(** * The submit service of the armada control plane

    A shallow embedding of the Go sources of the submit server
    ([SubmitServer] and its helpers), of the principal permission checker
    and of the request-item validation, followed by the properties of the
    service that are proved about them.

    Conventions of the embedding.
    - A Go struct is a record; a field [F] of a struct [T] is named [T_F]
      when the bare name is used by several structs.
    - A Go map is a [gmap]; a nil map and an empty map are told apart (as an
      [option]) only where the source tests for nil.
    - A Go pointer to a struct is the struct, or an [option] where the
      source tests the pointer for nil to tell a field that is given; the
      elements of a list of jobs, of items or of pod specifications are
      never nil, and nothing is proved of inputs that hold a nil one.
    - A Go [error] is a value of the inductive type [error], or of
      [foreign_error] when it comes from a collaborator; a pair
      [(value, err)] returned by a fallible call is a sum.
    - Calls that leave the server (queue registry, job store, event sink,
      scheduling-info oracle, id generator, clock, and the validation
      functions whose bodies live in other packages) are the commands of a
      free monad [Prog]; a handler answers them, and running a program
      yields its result together with the trace of the calls it made. *)

From Stdlib Require Import ZArith String Ascii List Lia.
From Stdlib Require Import Floats.PrimFloat.
From stdpp Require Import gmap strings list fin_maps.

Local Open Scope string_scope.
Local Open Scope list_scope.
Local Open Scope Z_scope.

(* ===================================================================== *)
(** * Go strings *)
(* ===================================================================== *)

(** [strings.ReplaceAll s old new] for a non-empty [old]: the non-overlapping
    occurrences of [old] in [s], leftmost first, are replaced by [new].
    [skip] counts the bytes of a matched occurrence still to be dropped. *)
Fixpoint replace_from (skip : nat) (old new s : string) : string :=
  match s with
  | EmptyString => EmptyString
  | String c s' =>
      match skip with
      | S k => replace_from k old new s'
      | O =>
          if String.prefix old s
          then new +:+ replace_from (Nat.pred (String.length old)) old new s'
          else String c (replace_from O old new s')
      end
  end.

Definition ReplaceAll (s old new : string) : string := replace_from O old new s.

(** The raw Go string literal of a blank, a backslash and a [z]. *)
Definition sentinel : string :=
  String " " (String (ascii_of_nat 92) (String "z" EmptyString)).

(* ===================================================================== *)
(** * Principals and the permission checker (package authorization) *)
(* ===================================================================== *)

Definition Permission := string.

(** Modelled from the spec: package [permissions] is not part of the
    sources. These are the permissions that the server names, with the names
    that the specification gives them. *)
Module permissions.
Definition SubmitJobs : Permission := "submit_jobs".
Definition SubmitAnyJobs : Permission := "submit_any_jobs".
Definition CreateQueue : Permission := "create_queue".
Definition DeleteQueue : Permission := "delete_queue".
Definition CancelJobs : Permission := "cancel_jobs".
Definition CancelAnyJobs : Permission := "cancel_any_jobs".
Definition ReprioritizeJobs : Permission := "reprioritize_jobs".
Definition ReprioritizeAnyJobs : Permission := "reprioritize_any_jobs".
Definition WatchEvents : Permission := "watch_events".
Definition WatchAllEvents : Permission := "watch_all_events".
End permissions.

(** Modelled from the spec: the [Principal] interface is not part of the
    sources. A principal has a name and sets of groups, scopes and claims,
    and is immutable for the life of a request. *)
Record Principal := {
  Principal_Name : string;
  Principal_Groups : list string;
  Principal_Scopes : list string;
  Principal_Claims : list string
}.

Definition GetName (p : Principal) : string := Principal_Name p.
Definition GetGroupNames (p : Principal) : list string := Principal_Groups p.
Definition IsInGroup (p : Principal) (group : string) : bool :=
  bool_decide (group ∈ Principal_Groups p).
Definition HasScope (p : Principal) (scope : string) : bool :=
  bool_decide (scope ∈ Principal_Scopes p).
Definition HasClaim (p : Principal) (claim : string) : bool :=
  bool_decide (claim ∈ Principal_Claims p).

(** Time is counted in nanoseconds, as [time.Duration] does. *)
Definition Time := Z.
Definition Duration := Z.
Definition time_Second : Duration := 1000000000.

(** Modelled from the spec: [authorization.GetPrincipal] is not part of the
    sources. The request context carries the ambient principal and the
    deadline, if any. *)
Record Context := {
  ctx_principal : Principal;
  ctx_deadline : option Time
}.

Definition GetPrincipal (ctx : Context) : Principal := ctx_principal ctx.

Record Owned := {
  GetUserOwners : list string;
  GetGroupOwners : list string
}.

(** The interface [authorization.PermissionChecker]: a value of the
    interface is the pair of its methods. *)
Record PermissionChecker := {
  UserHasPermission : Context -> Permission -> bool;
  UserOwns : Context -> Owned -> bool * list string
}.

Record PrincipalPermissionChecker := {
  permissionGroupMap : gmap Permission (list string);
  permissionScopeMap : gmap Permission (list string);
  permissionClaimMap : gmap Permission (list string)
}.

Definition hasPermission (perm : Permission)
    (permMap : gmap Permission (list string)) (assert : string -> bool) : bool :=
  match permMap !! perm with
  | None => false
  | Some allowedValues => existsb assert allowedValues
  end.

Definition PrincipalPermissionChecker_UserHasPermission
    (checker : PrincipalPermissionChecker) (ctx : Context) (perm : Permission) : bool :=
  let principal := GetPrincipal ctx in
  hasPermission perm (permissionScopeMap checker) (fun scope => HasScope principal scope)
  || hasPermission perm (permissionGroupMap checker) (fun group => IsInGroup principal group)
  || hasPermission perm (permissionClaimMap checker) (fun claim => HasClaim principal claim).

Definition PrincipalPermissionChecker_UserOwns
    (checker : PrincipalPermissionChecker) (ctx : Context) (obj : Owned) : bool * list string :=
  let principal := GetPrincipal ctx in
  let currentUserName := GetName principal in
  if existsb (fun userName => bool_decide (userName = currentUserName)) (GetUserOwners obj)
  then (true, [])
  else
    let ownershipGoups := filter (fun group => IsInGroup principal group = true) (GetGroupOwners obj) in
    (bool_decide (0 < length ownershipGoups)%nat, ownershipGoups).

Definition NewPrincipalPermissionChecker
    (permissionGroupMap permissionScopeMap permissionClaimMap : gmap Permission (list string))
    : PermissionChecker :=
  let checker := {| permissionGroupMap := permissionGroupMap;
                    permissionScopeMap := permissionScopeMap;
                    permissionClaimMap := permissionClaimMap |} in
  {| UserHasPermission := PrincipalPermissionChecker_UserHasPermission checker;
     UserOwns := PrincipalPermissionChecker_UserOwns checker |}.

(* ===================================================================== *)
(** * Queues (package queue) *)
(* ===================================================================== *)

Inductive PermissionSubjectKind :=
| PermissionSubjectKindUser
| PermissionSubjectKindGroup.

Inductive PermissionVerb :=
| PermissionVerbSubmit
| PermissionVerbCancel
| PermissionVerbReprioritize
| PermissionVerbWatch.

Record PermissionSubject := {
  Subject_Kind : PermissionSubjectKind;
  Subject_Name : string
}.

#[global] Instance PermissionSubjectKind_eq_dec : EqDecision PermissionSubjectKind.
Proof. solve_decision. Defined.

#[global] Instance PermissionVerb_eq_dec : EqDecision PermissionVerb.
Proof. solve_decision. Defined.

#[global] Instance PermissionSubject_eq_dec : EqDecision PermissionSubject.
Proof. solve_decision. Defined.

(** A permission binding of a queue: subjects and the verbs granted them. *)
Record Permissions := {
  Permissions_Subjects : list PermissionSubject;
  Permissions_Verbs : list PermissionVerb
}.

Record Queue := {
  Queue_Name : string;
  Queue_Permissions : list Permissions;
  Queue_PriorityFactor : float;
  Queue_ResourceLimits : gmap string float
}.

Definition AllPermissionVerbs : list PermissionVerb :=
  [PermissionVerbSubmit; PermissionVerbCancel; PermissionVerbReprioritize; PermissionVerbWatch].

(** Modelled from the spec: [queue.NewPermissionSubjectsFromOwners] is not
    part of the sources. Owners become subjects: each user owner a subject
    of kind user, each group owner a subject of kind group. *)
Definition NewPermissionSubjectsFromOwners (users groups : list string) : list PermissionSubject :=
  map (fun name => {| Subject_Kind := PermissionSubjectKindUser; Subject_Name := name |}) users
  ++ map (fun name => {| Subject_Kind := PermissionSubjectKindGroup; Subject_Name := name |}) groups.

(** Modelled from the spec: [queue.NewPermissionsFromOwners] is not part of
    the sources. The owners of a queue are bound to every verb. *)
Definition NewPermissionsFromOwners (users groups : list string) : Permissions :=
  {| Permissions_Subjects := NewPermissionSubjectsFromOwners users groups;
     Permissions_Verbs := AllPermissionVerbs |}.

(** Modelled from the spec: [Queue.HasPermission] is not part of the
    sources. A subject is granted a verb by a queue when some binding of the
    queue lists both the subject and the verb. *)
Definition HasPermission (q : Queue) (subject : PermissionSubject) (verb : PermissionVerb) : bool :=
  existsb (fun binding =>
             bool_decide (subject ∈ Permissions_Subjects binding)
             && bool_decide (verb ∈ Permissions_Verbs binding))
          (Queue_Permissions q).

(** The user owners of a queue, read back from its bindings: the names of
    the subjects of kind user. *)
Definition user_owners (q : Queue) : list string :=
  flat_map (fun binding =>
              flat_map (fun subject =>
                          match Subject_Kind subject with
                          | PermissionSubjectKindUser => [Subject_Name subject]
                          | PermissionSubjectKindGroup => []
                          end)
                       (Permissions_Subjects binding))
           (Queue_Permissions q).

(* ===================================================================== *)
(** * Pod specifications and the messages of the API (package api) *)
(* ===================================================================== *)

(** A [resource.Quantity]. The server copies and compares quantities and
    never computes with them; a quantity is its amount in base units. *)
Definition Quantity := Z.

Record ResourceRequirements := {
  Limits : option (gmap string Quantity);
  Requests : option (gmap string Quantity)
}.

Record Container := {
  Container_Name : string;
  Container_Resources : ResourceRequirements
}.

Record Toleration := {
  Toleration_Key : string;
  Toleration_Operator : string;
  Toleration_Value : string;
  Toleration_Effect : string;
  Toleration_TolerationSeconds : option Z
}.

(** [Toleration.MatchToleration] of the Kubernetes API: key, effect,
    operator and value agree. *)
Definition MatchToleration (t tolerationToMatch : Toleration) : bool :=
  bool_decide (Toleration_Key t = Toleration_Key tolerationToMatch)
  && bool_decide (Toleration_Effect t = Toleration_Effect tolerationToMatch)
  && bool_decide (Toleration_Operator t = Toleration_Operator tolerationToMatch)
  && bool_decide (Toleration_Value t = Toleration_Value tolerationToMatch).

(** The fields of a pod specification that the server reads or writes. *)
Record PodSpec := {
  Containers : list Container;
  Tolerations : list Toleration;
  NodeSelector : option (gmap string string)
}.

Inductive ServiceType := NodePort | Headless.

Record IngressConfig := {
  Ingress_Ports : list Z;
  Ingress_Annotations : gmap string string;
  Ingress_TlsEnabled : bool;
  Ingress_CertName : string;
  Ingress_UseClusterIP : bool
}.

Record ServiceConfig := {
  Service_Type : ServiceType;
  Service_Ports : list Z
}.

(** [JobSubmitRequestItem]. [Item_PodSpec] is a pointer that may be nil;
    the elements of the repeated field [Item_PodSpecs], as decoded from a
    request, are never nil. *)
Record JobSubmitRequestItem := {
  Item_Priority : float;
  Item_Namespace : string;
  Item_ClientId : string;
  Item_Labels : gmap string string;
  Item_Annotations : gmap string string;
  Item_RequiredNodeLabels : gmap string string;
  Item_PodSpec : option PodSpec;
  Item_PodSpecs : list PodSpec;
  Item_Ingress : list IngressConfig;
  Item_Services : list ServiceConfig
}.

Record JobSubmitRequest := {
  Req_Queue : string;
  Req_JobSetId : string;
  Req_JobRequestItems : list JobSubmitRequestItem
}.

Record JobCancelRequest := {
  Cancel_JobId : string;
  Cancel_JobSetId : string;
  Cancel_Queue : string
}.

Record JobReprioritizeRequest := {
  Reprioritize_JobIds : list string;
  Reprioritize_JobSetId : string;
  Reprioritize_Queue : string;
  Reprioritize_NewPriority : float
}.

Record QueueDeleteRequest := {
  QueueDelete_Name : string
}.

Record CancellationResult := {
  CancelledIds : list string
}.

Record JobSetInfo := {
  JobSetInfo_Name : string;
  JobSetInfo_QueuedJobs : Z;
  JobSetInfo_LeasedJobs : Z
}.

Record Job := {
  Job_Id : string;
  Job_ClientId : string;
  Job_Queue : string;
  Job_JobSetId : string;
  Job_Namespace : string;
  Job_Labels : gmap string string;
  Job_Annotations : gmap string string;
  Job_RequiredNodeLabels : gmap string string;
  Job_Ingress : list IngressConfig;
  Job_Services : list ServiceConfig;
  Job_Priority : float;
  Job_PodSpec : option PodSpec;
  Job_PodSpecs : list PodSpec;
  Job_Created : Time;
  Job_Owner : string;
  Job_QueueOwnershipUserGroups : list string
}.

(** Modelled from the spec: [JobSubmitRequestItem.GetAllPodSpecs] is not
    part of the sources. The pod specifications of an item are those of
    [pod_specs] when there are any, and else the one of [pod_spec], if set. *)
Definition GetAllPodSpecs (item : JobSubmitRequestItem) : list PodSpec :=
  match Item_PodSpecs item with
  | _ :: _ => Item_PodSpecs item
  | [] => match Item_PodSpec item with
          | Some spec => [spec]
          | None => []
          end
  end.

(** The report of one cluster to the scheduling-info oracle; the server
    hands the reports on without looking into them. *)
Record ClusterSchedulingInfoReport := {
  ClusterSchedulingInfoReport_ClusterId : string;
  ClusterSchedulingInfoReport_ReportTime : Time
}.

(* ===================================================================== *)
(** * Configuration (package configuration) *)
(* ===================================================================== *)

Record QueueManagementConfig := {
  AutoCreateQueues : bool;
  DefaultPriorityFactor : float
}.

Record SchedulingConfig := {
  DefaultJobLimits : gmap string Quantity;
  DefaultJobTolerations : list Toleration
}.

(* ===================================================================== *)
(** * Errors and gRPC statuses *)
(* ===================================================================== *)

(** Modelled from the spec: the type [ErrNoPermission] and the functions
    [MergePermissionErrors], [checkPermission] and [checkQueuePermission]
    are not part of the sources. A refusal names the principal and carries
    one diagnostic per tier that refused: what was attempted and why it was
    refused. *)
Record Diagnostic := {
  Diagnostic_Attempted : string;
  Diagnostic_Reason : string
}.

(** Modelled from the spec: the refusal [ErrNoPermission], which is not
    part of the sources. *)
Record ErrNoPermission := {
  ErrNoPermission_UserName : string;
  ErrNoPermission_Diagnostics : list Diagnostic
}.

(** The errors that the collaborators of the server return. Their packages
    cannot name the refusals of the server; [ErrOpaque] stands for an error
    that the server does not look into, and [ErrWrapping] for one that wraps
    another. *)
Inductive foreign_error :=
| ErrQueueNotFound (QueueName : string)
| ErrQueueAlreadyExists (QueueName : string)
| ErrOpaque (text : string)
| ErrWrapping (text : string) (inner : foreign_error).

(** An argument of a format string: a number, a string, or an error of a
    collaborator given for a verb other than [%w]. *)
Inductive FormatArg :=
| FormatInt (n : Z)
| FormatString (s : string)
| FormatError (e : foreign_error).

(** The errors the server handles: its own refusals, the errors of its
    collaborators, and the results of [fmt.Errorf]. In [Errorf format args
    wrapped], [wrapped] is the error given for a [%w] verb, if the format
    has one. *)
#[warnings="-register-all"]
Inductive error :=
| ErrNoPermission_ (e : ErrNoPermission)
| ErrForeign (e : foreign_error)
| Errorf (format : string) (args : list FormatArg) (wrapped : option error).

(** [errors.As] with a target of type [*ErrNoPermission]: the first error of
    that type in the chain of wrapped errors. *)
Fixpoint errors_As_ErrNoPermission (err : error) : option ErrNoPermission :=
  match err with
  | ErrNoPermission_ e => Some e
  | Errorf _ _ (Some inner) => errors_As_ErrNoPermission inner
  | _ => None
  end.

(** [errors.As] with a target of type [*repository.ErrQueueNotFound], on an
    error of the queue registry. *)
Fixpoint errors_As_ErrQueueNotFound (err : foreign_error) : option string :=
  match err with
  | ErrQueueNotFound name => Some name
  | ErrWrapping _ inner => errors_As_ErrQueueNotFound inner
  | _ => None
  end.

Inductive Code :=
| OK
| NotFound
| AlreadyExists
| PermissionDenied
| InvalidArgument
| FailedPrecondition
| Aborted
| Unavailable
| DeadlineExceeded
| Internal.

#[global] Instance Code_eq_dec : EqDecision Code.
Proof. solve_decision. Defined.

(** An argument of the format string of a status. [ArgRequestJson] is the
    JSON rendering of the request as it stands when the status is built. *)
Inductive StatusArg :=
| ArgString (s : string)
| ArgError (e : option error)
| ArgNoPermission (e : ErrNoPermission)
| ArgJobs (jobs : list Job)
| ArgRequestJson.

(** The format of a status is a literal of the source, or the text of an
    error where the source gives [e.Error()] as the format. *)
Inductive StatusFormat :=
| FormatLiteral (format : string)
| FormatErrorText (e : error).

(** A status built by [status.Errorf code format args]. *)
Record Status := {
  Status_Code : Code;
  Status_Format : StatusFormat;
  Status_Args : list StatusArg
}.

Definition status_Errorf (c : Code) (format : string) (args : list StatusArg) : Status :=
  {| Status_Code := c; Status_Format := FormatLiteral format; Status_Args := args |}.

(** An item of the response to a submission. [ResponseItem_Error] is the
    error whose text the item carries, if any. *)
Record JobSubmitResponseItem := {
  ResponseItem_JobId : string;
  ResponseItem_Error : option error
}.

Record JobSubmitResponse := {
  JobResponseItems : list JobSubmitResponseItem
}.

(** The code a caller of an operation sees: [OK] when no error is returned. *)
Definition code_of (err : option Status) : Code :=
  match err with
  | None => OK
  | Some st => Status_Code st
  end.

(** Modelled from the spec: [MergePermissionErrors] composes the
    diagnostics of several refusals into a single refusal, in the order
    given. *)
Definition MergePermissionErrors (errs : list ErrNoPermission) : ErrNoPermission :=
  {| ErrNoPermission_UserName :=
       match errs with
       | e :: _ => ErrNoPermission_UserName e
       | [] => EmptyString
       end;
     ErrNoPermission_Diagnostics := flat_map ErrNoPermission_Diagnostics errs |}.

(** Modelled from the spec: [checkPermission] refuses exactly when the
    principal of the context lacks the global permission. *)
Definition checkPermission (p : PermissionChecker) (ctx : Context) (permission : Permission)
    : option error :=
  if UserHasPermission p ctx permission
  then None
  else Some (ErrNoPermission_
               {| ErrNoPermission_UserName := GetName (GetPrincipal ctx);
                  ErrNoPermission_Diagnostics :=
                    [ {| Diagnostic_Attempted := permission;
                         Diagnostic_Reason := "the principal does not have the global permission" |} ] |}).

(** The subjects a principal matches: itself as a user, and each of its
    groups. *)
Definition principalSubjects (principal : Principal) : list PermissionSubject :=
  NewPermissionSubjectsFromOwners [GetName principal] (GetGroupNames principal).

(** Modelled from the spec: [checkQueuePermission] refuses exactly when the
    permissions list of the queue grants the verb to no subject matching the
    principal (by user name or by group membership). The permission given
    by the caller names the attempt in the diagnostic. *)
Definition checkQueuePermission (p : PermissionChecker) (ctx : Context) (q : Queue)
    (globalPermission : Permission) (verb : PermissionVerb) : option error :=
  let principal := GetPrincipal ctx in
  if existsb (fun subject => HasPermission q subject verb) (principalSubjects principal)
  then None
  else Some (ErrNoPermission_
               {| ErrNoPermission_UserName := GetName principal;
                  ErrNoPermission_Diagnostics :=
                    [ {| Diagnostic_Attempted := globalPermission;
                         Diagnostic_Reason := "the queue grants the verb to no subject matching the principal" |} ] |}).

(* ===================================================================== *)
(** * The world outside the server *)
(* ===================================================================== *)

(** The result of adding one job to the job store. *)
Record SubmitJobResult := {
  SubmitJobResult_JobId : string;
  SubmitJobResult_SubmittedJob : option Job;
  SubmitJobResult_DuplicateDetected : bool;
  SubmitJobResult_Error : option foreign_error
}.

(** A job that failed, with the reason: the format given to [fmt.Sprintf]
    and the error that is its argument. *)
Record jobFailure := {
  jobFailure_job : Job;
  jobFailure_reason : string * option error
}.

(** The result of updating one job in the job store. The type is not part
    of the sources; these are the fields that [reprioritizeJobs] reads. *)
Record UpdateJobResult := {
  UpdateJobResult_JobId : string;
  UpdateJobResult_Error : option foreign_error
}.

(** The response to a reprioritization: for every job id the error whose
    text the entry carries, or [None] for the empty text. *)
Record JobReprioritizeResponse := {
  ReprioritizationResults : gmap string (option error)
}.

(** The calls of the server to its collaborators: the queue registry, the
    job store, the scheduling-info oracle, the event sink (through the
    reporting functions of the package, one command each), the two
    validation functions whose bodies are in other files, the id generator
    and the clock. *)
Inductive Cmd :=
| QueueRepository_GetQueue (name : string)
| QueueRepository_CreateQueue (q : Queue)
| QueueRepository_DeleteQueue (name : string)
| JobRepository_GetQueueActiveJobSets (queue : string)
| JobRepository_AddJobs (jobs : list Job)
| JobRepository_GetExistingJobsByIds (ids : list string)
| JobRepository_GetActiveJobIds (queue jobSetId : string)
| JobRepository_DeleteJobs (jobs : list Job)
| SchedulingInfoRepository_GetClusterSchedulingInfo
| validateJobsCanBeScheduled (jobs : list Job) (info : gmap string ClusterSchedulingInfoReport)
| validation_ValidatePodSpec (spec : PodSpec) (config : SchedulingConfig)
| reportSubmitted (jobs : list Job)
| reportQueued (jobs : list Job)
| reportDuplicateDetected (results : list SubmitJobResult)
| reportFailed (clusterId : string) (failures : list jobFailure)
| reportJobsCancelling (principalName : string) (jobs : list Job)
| reportJobsCancelled (principalName : string) (jobs : list Job)
| JobRepository_UpdateJobs (ids : list string)
| reportJobsReprioritizing (principalName : string) (jobs : list Job) (newPriority : float)
| reportJobsUpdated (principalName : string) (jobs : list Job)
| reportJobsReprioritized (principalName : string) (jobs : list Job) (newPriority : float)
| util_NewULID
| time_Now.

(** What each call answers. The answer of [DeleteJobs] is a Go map from job
    to error; it is the list of its entries in the order in which the
    server will range over it. [UpdateJobs] is given a function of the
    server that it applies to the jobs it has fetched, as often as it sees
    fit; its answer tells, besides what the call returns, the lists of jobs
    to which the job store applied the function, in order. *)
Definition Resp (c : Cmd) : Type :=
  match c with
  | QueueRepository_GetQueue _ => (Queue + foreign_error)%type
  | QueueRepository_CreateQueue _ => option foreign_error
  | QueueRepository_DeleteQueue _ => option foreign_error
  | JobRepository_GetQueueActiveJobSets _ => (list JobSetInfo + foreign_error)%type
  | JobRepository_AddJobs _ => (list SubmitJobResult + foreign_error)%type
  | JobRepository_GetExistingJobsByIds _ => (list Job + foreign_error)%type
  | JobRepository_GetActiveJobIds _ _ => (list string + foreign_error)%type
  | JobRepository_DeleteJobs _ => (list (Job * option foreign_error) + foreign_error)%type
  | SchedulingInfoRepository_GetClusterSchedulingInfo =>
      (gmap string ClusterSchedulingInfoReport + foreign_error)%type
  | validateJobsCanBeScheduled _ _ => option foreign_error
  | validation_ValidatePodSpec _ _ => option foreign_error
  | reportSubmitted _ => option foreign_error
  | reportQueued _ => option foreign_error
  | reportDuplicateDetected _ => option foreign_error
  | reportFailed _ _ => option foreign_error
  | reportJobsCancelling _ _ => option foreign_error
  | reportJobsCancelled _ _ => option foreign_error
  | JobRepository_UpdateJobs _ =>
      (list (list Job) * (list UpdateJobResult + foreign_error))%type
  | reportJobsReprioritizing _ _ _ => option foreign_error
  | reportJobsUpdated _ _ => option foreign_error
  | reportJobsReprioritized _ _ _ => option foreign_error
  | util_NewULID => string
  | time_Now => Time
  end.

(** Programs: return a value, panic, or make a call and go on with its
    answer. *)
Inductive Prog (A : Type) : Type :=
| Ret (a : A)
| Panic
| Call (c : Cmd) (k : Resp c -> Prog A).

Arguments Ret {A} a.
Arguments Panic {A}.
Arguments Call {A} c k.

Fixpoint bind {A B : Type} (p : Prog A) (f : A -> Prog B) : Prog B :=
  match p with
  | Ret a => f a
  | Panic => Panic
  | Call c k => Call c (fun r => bind (k r) f)
  end.

Definition call (c : Cmd) : Prog (Resp c) := Call c Ret.

#[global] Instance Prog_ret : MRet Prog := fun A a => Ret a.
#[global] Instance Prog_bind : MBind Prog := fun A B f p => bind p f.

(** One call of a trace, with its answer. *)
Record Entry := {
  entry_cmd : Cmd;
  entry_resp : Resp entry_cmd
}.

(** A handler answers the calls, from a state of its own [S]. *)
Definition Handler (S : Type) := forall c : Cmd, S -> Resp c * S.

(** Running a program against a handler: the value returned ([None] for a
    panic), the last state of the handler and the trace of the calls. *)
Fixpoint run {S A : Type} (h : Handler S) (p : Prog A) (s : S) : option A * S * list Entry :=
  match p with
  | Ret a => (Some a, s, [])
  | Panic => (None, s, [])
  | Call c k =>
      let '(r, s1) := h c s in
      let '(a, s2, t) := run h (k r) s1 in
      (a, s2, {| entry_cmd := c; entry_resp := r |} :: t)
  end.

Definition result_of {S A : Type} (x : option A * S * list Entry) : option A := fst (fst x).
Definition trace_of {S A : Type} (x : option A * S * list Entry) : list Entry := snd x.

(** The calls of a trace, without their answers. *)
Definition calls (t : list Entry) : list Cmd := map entry_cmd t.

(** A call that writes to the job store. *)
Definition writes_job_store (c : Cmd) : bool :=
  match c with
  | JobRepository_AddJobs _ | JobRepository_DeleteJobs _ | JobRepository_UpdateJobs _ => true
  | _ => false
  end.

(** A call that appends to the event sink. *)
Definition appends_event (c : Cmd) : bool :=
  match c with
  | reportSubmitted _ | reportQueued _ | reportDuplicateDetected _ | reportFailed _ _
  | reportJobsCancelling _ _ | reportJobsCancelled _ _
  | reportJobsReprioritizing _ _ _ | reportJobsUpdated _ _ | reportJobsReprioritized _ _ _ => true
  | _ => false
  end.

(* ===================================================================== *)
(** * Validation of a request item (package validation) *)
(* ===================================================================== *)

(** The inner loop of [validateIngressConfigs], over the ports of the
    ingress configuration with index [index]. *)
Fixpoint validateIngressPorts (ports : list Z) (index : Z) (existingPortSet : gmap Z Z)
    : gmap Z Z + error :=
  match ports with
  | [] => inl existingPortSet
  | port :: rest =>
      match existingPortSet !! port with
      | Some existingIndex =>
          inr (Errorf "port %d has two ingress configurations, specified in ingress configs with indexes %d, %d. Each port should at maximum have one ingress configuration"
                      [FormatInt port; FormatInt existingIndex; FormatInt index] None)
      | None => validateIngressPorts rest index (<[port := index]> existingPortSet)
      end
  end.

Fixpoint validateIngressConfigs_from (configs : list IngressConfig) (index : Z)
    (existingPortSet : gmap Z Z) : option error :=
  match configs with
  | [] => None
  | portConfig :: rest =>
      match Ingress_Ports portConfig with
      | [] => Some (Errorf "ingress contains zero ports. Each ingress should have at least one port" [] None)
      | _ :: _ =>
          match validateIngressPorts (Ingress_Ports portConfig) index existingPortSet with
          | inr err => Some err
          | inl existingPortSet => validateIngressConfigs_from rest (index + 1) existingPortSet
          end
      end
  end.

Definition validateIngressConfigs (item : JobSubmitRequestItem) : option error :=
  validateIngressConfigs_from (Item_Ingress item) 0 ∅.

Definition ValidateJobSubmitRequestItem (request : JobSubmitRequestItem) : option error :=
  validateIngressConfigs request.

(* ===================================================================== *)
(** * The submit server (package server) *)
(* ===================================================================== *)

(** The server. Its repositories and its event store are reached through
    the commands of [Cmd]; the record keeps the permission checker and the
    configuration. *)
Record SubmitServer := {
  server_permissions : PermissionChecker;
  cancelJobsBatchSize : Z;
  queueManagementConfig : QueueManagementConfig;
  schedulingConfig : SchedulingConfig
}.

(** ** Defaulting of pod specifications *)

(** The body of the loop of [fillContainerRequestsAndLimits], for the
    container at one index. *)
Definition fillContainer (c : Container) : Container :=
  let limits : gmap string Quantity := default ∅ (Limits (Container_Resources c)) in
  let requests : gmap string Quantity := default ∅ (Requests (Container_Resources c)) in
  let requests :=
    map_fold (fun resourceName quantity (requests : gmap string Quantity) =>
                match requests !! resourceName with
                | Some _ => requests
                | None => <[resourceName := quantity]> requests
                end) requests limits in
  let limits :=
    map_fold (fun resourceName quantity (limits : gmap string Quantity) =>
                match limits !! resourceName with
                | Some _ => limits
                | None => <[resourceName := quantity]> limits
                end) limits requests in
  {| Container_Name := Container_Name c;
     Container_Resources := {| Limits := Some limits; Requests := Some requests |} |}.

Definition fillContainerRequestsAndLimits (containers : list Container) : list Container :=
  map fillContainer containers.

(** The first loop of [applyDefaultsToPodSpec], for the container at one
    index. As in the source, both [hasLimit] and [hasRequest] are read from
    the limits of the container. *)
Definition applyDefaultsToContainer (server : SubmitServer) (c : Container) : Container :=
  let limits : gmap string Quantity := default ∅ (Limits (Container_Resources c)) in
  let requests : gmap string Quantity := default ∅ (Requests (Container_Resources c)) in
  let '(requests, limits) :=
    map_fold (fun res val (acc : gmap string Quantity * gmap string Quantity) =>
                let '(requests, limits) := acc in
                let hasLimit := bool_decide (is_Some (limits !! res)) in
                let hasRequest := bool_decide (is_Some (limits !! res)) in
                if negb hasLimit && negb hasRequest
                then (<[res := val]> requests, <[res := val]> limits)
                else (requests, limits))
             (requests, limits)
             (DefaultJobLimits (schedulingConfig server)) in
  {| Container_Name := Container_Name c;
     Container_Resources := {| Limits := Some limits; Requests := Some requests |} |}.

(** [applyDefaultsToPodSpec] on a pod specification that is not nil (on nil
    the source returns at once). *)
Definition applyDefaultsToPodSpec (server : SubmitServer) (spec : PodSpec) : PodSpec :=
  let containers := map (applyDefaultsToContainer server) (Containers spec) in
  let podTolerations : gmap string Toleration :=
    foldl (fun (m : gmap string Toleration) podToleration =>
             <[Toleration_Key podToleration := podToleration]> m)
          ∅ (Tolerations spec) in
  let tolerations :=
    foldl (fun tolerations defaultToleration =>
             match podTolerations !! Toleration_Key defaultToleration with
             | Some podToleration =>
                 if MatchToleration defaultToleration podToleration
                 then tolerations
                 else tolerations ++ [defaultToleration]
             | None => tolerations ++ [defaultToleration]
             end)
          (Tolerations spec) (DefaultJobTolerations (schedulingConfig server)) in
  {| Containers := containers;
     Tolerations := tolerations;
     NodeSelector := NodeSelector spec |}.

(** ** Enrichment of labels and annotations *)

(** The body of the loop of [enrichText], for one value. *)
Definition enrichValue (value jobId : string) : string :=
  let value := ReplaceAll value "{{JobId}}" sentinel in
  let value := ReplaceAll value "{JobId}" jobId in
  ReplaceAll value sentinel "JobId".

(** [enrichText] assigns to every key of the map the enriched value; the
    map returned is the map the source leaves behind. *)
Definition enrichText (labels : gmap string string) (jobId : string) : gmap string string :=
  (fun value => enrichValue value jobId) <$> labels.

(** ** Creation of the job objects *)

(** The loop that merges the deprecated [RequiredNodeLabels] of an item
    into the node selector of a pod specification. *)
Definition mergeRequiredNodeLabels (labels : gmap string string) (podSpec : PodSpec) : PodSpec :=
  {| Containers := Containers podSpec;
     Tolerations := Tolerations podSpec;
     NodeSelector :=
       map_fold (fun k v (selector : option (gmap string string)) =>
                   Some (<[k := v]> (default ∅ selector)))
                (NodeSelector podSpec) labels |}.

(** The loop of [createJobsObjects] over the pod specifications of the
    [i]-th item, from the [j]-th on. It yields the pod specifications as the
    loop leaves them, or the error that ends [createJobsObjects]. The items
    of a request and their pod specifications are values here: the
    embedding has no nil item and no nil pod specification, so that the
    tests for nil of the source always pass and nothing is said of a
    request that holds one. *)
Fixpoint createJobsObjects_podSpecs (server : SubmitServer) (request : JobSubmitRequest)
    (item : JobSubmitRequestItem) (i j : Z) (podSpecs : list PodSpec)
    : Prog (list PodSpec + error) :=
  match podSpecs with
  | [] => mret (inl [])
  | podSpec :: rest =>
      let podSpec :=
        {| Containers := fillContainerRequestsAndLimits (Containers podSpec);
           Tolerations := Tolerations podSpec;
           NodeSelector := NodeSelector podSpec |} in
      let podSpec := applyDefaultsToPodSpec server podSpec in
      err ← call (validation_ValidatePodSpec podSpec (schedulingConfig server));
      match err with
      | Some err =>
          mret (inr (Errorf "[createJobs] error validating the %d-th pod pf the %d-th job of job set %s: %w"
                            [FormatInt j; FormatInt i; FormatString (Req_JobSetId request)]
                            (Some (ErrForeign err))))
      | None =>
          let podSpec := mergeRequiredNodeLabels (Item_RequiredNodeLabels item) podSpec in
          r ← createJobsObjects_podSpecs server request item i (j + 1) rest;
          match r with
          | inr err => mret (inr err)
          | inl rest => mret (inl (podSpec :: rest))
          end
      end
  end.

(** The pod specifications of an item are updated in place; the job takes
    the fields [PodSpec] and [PodSpecs] of the item after the update. *)
Definition updatedPodSpec (item : JobSubmitRequestItem) (podSpecs : list PodSpec) : option PodSpec :=
  match Item_PodSpecs item with
  | _ :: _ => Item_PodSpec item
  | [] => head podSpecs
  end.

Definition updatedPodSpecs (item : JobSubmitRequestItem) (podSpecs : list PodSpec) : list PodSpec :=
  match Item_PodSpecs item with
  | _ :: _ => podSpecs
  | [] => []
  end.

(** The loop of [createJobsObjects] over the items of the request, from the
    [i]-th on. The id generator and the clock are the functions [getUlid]
    and [getTime] that [createJobs] passes. *)
Fixpoint createJobsObjects_items (server : SubmitServer) (request : JobSubmitRequest)
    (owner : string) (ownershipGroups : list string) (i : Z)
    (items : list JobSubmitRequestItem) : Prog (list Job + error) :=
  match items with
  | [] => mret (inl [])
  | item :: rest =>
      if bool_decide (is_Some (Item_PodSpec item))
         && bool_decide (0 < length (Item_PodSpecs item))%nat
      then mret (inr (Errorf "[createJobs] job %d in job set %s contains both podSpec and podSpecs, but may only contain either"
                             [FormatInt i; FormatString (Req_JobSetId request)] None))
      else
        let podSpecs := GetAllPodSpecs item in
        if bool_decide (length podSpecs = 0%nat)
        then mret (inr (Errorf "[createJobs] job %d in job set %s contains no podSpec or podSpecs"
                               [FormatInt i; FormatString (Req_JobSetId request)] None))
        else
          match ValidateJobSubmitRequestItem item with
          | Some err =>
              mret (inr (Errorf "[createJobs] error validating the %d-th job of job set %s: %w"
                                [FormatInt i; FormatString (Req_JobSetId request)] (Some err)))
          | None =>
              let namespace :=
                if bool_decide (Item_Namespace item = EmptyString)
                then "default" else Item_Namespace item in
              r ← createJobsObjects_podSpecs server request item i 0 (GetAllPodSpecs item);
              match r with
              | inr err => mret (inr err)
              | inl podSpecs =>
                  jobId ← call util_NewULID;
                  let labels := enrichText (Item_Labels item) jobId in
                  let annotations := enrichText (Item_Annotations item) jobId in
                  created ← call time_Now;
                  let j :=
                    {| Job_Id := jobId;
                       Job_ClientId := Item_ClientId item;
                       Job_Queue := Req_Queue request;
                       Job_JobSetId := Req_JobSetId request;
                       Job_Namespace := namespace;
                       Job_Labels := labels;
                       Job_Annotations := annotations;
                       Job_RequiredNodeLabels := Item_RequiredNodeLabels item;
                       Job_Ingress := Item_Ingress item;
                       Job_Services := Item_Services item;
                       Job_Priority := Item_Priority item;
                       Job_PodSpec := updatedPodSpec item podSpecs;
                       Job_PodSpecs := updatedPodSpecs item podSpecs;
                       Job_Created := created;
                       Job_Owner := owner;
                       Job_QueueOwnershipUserGroups := ownershipGroups |} in
                  r ← createJobsObjects_items server request owner ownershipGroups (i + 1) rest;
                  match r with
                  | inr err => mret (inr err)
                  | inl jobs => mret (inl (j :: jobs))
                  end
              end
          end
  end.

Definition createJobsObjects (server : SubmitServer) (request : JobSubmitRequest)
    (owner : string) (ownershipGroups : list string) : Prog (list Job + error) :=
  if bool_decide (Req_JobSetId request = EmptyString)
  then mret (inr (Errorf "[createJobs] job set not specified" [] None))
  else if bool_decide (Req_Queue request = EmptyString)
  then mret (inr (Errorf "[createJobs] queue not specified" [] None))
  else createJobsObjects_items server request owner ownershipGroups 0 (Req_JobRequestItems request).

Definition createJobs (server : SubmitServer) (request : JobSubmitRequest)
    (owner : string) (ownershipGroups : list string) : Prog (list Job + error) :=
  createJobsObjects server request owner ownershipGroups.

Definition createJobFailuresWithReason (jobs : list Job) (reason : string * option error)
    : list jobFailure :=
  map (fun job => {| jobFailure_job := job; jobFailure_reason := reason |}) jobs.

(** ** Queues *)

Definition getQueueOrCreate (server : SubmitServer) (ctx : Context) (queueName : string)
    : Prog (Queue + Status) :=
  r ← call (QueueRepository_GetQueue queueName);
  match r with
  | inl q => mret (inl q)
  | inr e =>
      match errors_As_ErrQueueNotFound e with
      | Some _ =>
          if negb (AutoCreateQueues (queueManagementConfig server))
             || negb (UserHasPermission (server_permissions server) ctx permissions.SubmitAnyJobs)
          then mret (inr (status_Errorf NotFound "Queue %q not found" [ArgString queueName]))
          else
            let principal := GetPrincipal ctx in
            let q :=
              {| Queue_Name := queueName;
                 Queue_Permissions :=
                   [NewPermissionsFromOwners [GetName principal] (GetGroupNames principal)];
                 Queue_PriorityFactor := DefaultPriorityFactor (queueManagementConfig server);
                 Queue_ResourceLimits := ∅ |} in
            err ← call (QueueRepository_CreateQueue q);
            match err with
            | Some _ =>
                mret (inr {| Status_Code := Aborted;
                             Status_Format := FormatErrorText (ErrForeign e);
                             Status_Args := [] |})
            | None => mret (inl q)
            end
      | None =>
          mret (inr (status_Errorf Unavailable "Could not load queue %q: %s"
                                   [ArgString queueName; ArgError (Some (ErrForeign e))]))
      end
  end.

Definition DeleteQueue (server : SubmitServer) (ctx : Context) (request : QueueDeleteRequest)
    : Prog (option unit * option Status) :=
  let err := checkPermission (server_permissions server) ctx permissions.DeleteQueue in
  match err with
  | Some err =>
      match errors_As_ErrNoPermission err with
      | Some ep =>
          mret (None, Some (status_Errorf PermissionDenied "[DeleteQueue] error deleting queue %s: %s"
                                          [ArgString (QueueDelete_Name request); ArgNoPermission ep]))
      | None =>
          mret (None, Some (status_Errorf Unavailable "[DeleteQueue] error checking permissions: %s"
                                          [ArgError (Some err)]))
      end
  | None =>
      r ← call (JobRepository_GetQueueActiveJobSets (QueueDelete_Name request));
      match r with
      | inr err =>
          mret (None, Some (status_Errorf InvalidArgument
                              "[DeleteQueue] error getting active job sets for queue %s: %s"
                              [ArgString (QueueDelete_Name request); ArgError (Some (ErrForeign err))]))
      | inl active =>
          if bool_decide (0 < length active)%nat
          then mret (None, Some (status_Errorf FailedPrecondition
                                   "[DeleteQueue] error deleting queue %s: queue is not empty"
                                   [ArgString (QueueDelete_Name request)]))
          else
            err ← call (QueueRepository_DeleteQueue (QueueDelete_Name request));
            match err with
            | Some err =>
                mret (None, Some (status_Errorf InvalidArgument
                                    "[DeleteQueue] error deleting queue %s: %s"
                                    [ArgString (QueueDelete_Name request); ArgError (Some (ErrForeign err))]))
            | None => mret (Some tt, None)
            end
      end
  end.

(** ** SubmitJobs *)

(** The ownership groups of a submission, as [SubmitJobs] computes them:
    empty when the queue grants the submit verb to the principal as a user,
    and else the names of the group subjects of the principal to which the
    queue grants the verb, appended one by one. *)
Definition ownershipGroups (q : Queue) (principal : Principal) : list string :=
  let principalSubject :=
    {| Subject_Name := GetName principal; Subject_Kind := PermissionSubjectKindUser |} in
  let groups : list string := [] in
  if negb (HasPermission q principalSubject PermissionVerbSubmit)
  then
    foldl (fun groups subject =>
             if HasPermission q subject PermissionVerbSubmit
             then groups ++ [Subject_Name subject]
             else groups)
          groups
          (NewPermissionSubjectsFromOwners [] (GetGroupNames principal))
  else groups.

(** What the loop of [SubmitJobs] over the submission results builds. *)
Record SubmissionOutcome := {
  outcome_responses : list JobSubmitResponseItem;
  outcome_createdJobs : list Job;
  outcome_jobFailures : list jobFailure;
  outcome_doubleSubmits : list SubmitJobResult
}.

(** The loop of [SubmitJobs] over the submission results, from index [i]
    on. [None] is the panic of the index expression [jobs[i]] out of range. *)
Fixpoint partitionResults (jobs : list Job) (i : nat) (submissionResults : list SubmitJobResult)
    (acc : SubmissionOutcome) : option SubmissionOutcome :=
  match submissionResults with
  | [] => Some acc
  | submissionResult :: rest =>
      let jobResponse :=
        {| ResponseItem_JobId := SubmitJobResult_JobId submissionResult;
           ResponseItem_Error := None |} in
      match SubmitJobResult_Error submissionResult with
      | Some err =>
          match jobs !! i with
          | None => None
          | Some job =>
              partitionResults jobs (S i) rest
                {| outcome_responses :=
                     outcome_responses acc
                     ++ [ {| ResponseItem_JobId := SubmitJobResult_JobId submissionResult;
                             ResponseItem_Error := Some (ErrForeign err) |} ];
                   outcome_createdJobs := outcome_createdJobs acc;
                   outcome_jobFailures :=
                     outcome_jobFailures acc
                     ++ [ {| jobFailure_job := job;
                             jobFailure_reason := ("Failed to save job in Armada: %s", Some (ErrForeign err)) |} ];
                   outcome_doubleSubmits := outcome_doubleSubmits acc |}
          end
      | None =>
          if SubmitJobResult_DuplicateDetected submissionResult
          then
            partitionResults jobs (S i) rest
              {| outcome_responses := outcome_responses acc ++ [jobResponse];
                 outcome_createdJobs := outcome_createdJobs acc;
                 outcome_jobFailures := outcome_jobFailures acc;
                 outcome_doubleSubmits := outcome_doubleSubmits acc ++ [submissionResult] |}
          else
            match jobs !! i with
            | None => None
            | Some job =>
                partitionResults jobs (S i) rest
                  {| outcome_responses := outcome_responses acc ++ [jobResponse];
                     outcome_createdJobs := outcome_createdJobs acc ++ [job];
                     outcome_jobFailures := outcome_jobFailures acc;
                     outcome_doubleSubmits := outcome_doubleSubmits acc |}
            end
      end
  end.

(** [SubmitJobs] from the creation of the jobs on, once the queue [q] is
    resolved and the caller is authorized. *)
Definition SubmitJobs_authorized (server : SubmitServer) (ctx : Context)
    (req : JobSubmitRequest) (q : Queue) : Prog (option JobSubmitResponse * option Status) :=
  let principal := GetPrincipal ctx in
  let groups := ownershipGroups q principal in
  r ← createJobs server req (GetName principal) groups;
  match r with
  | inr e =>
      mret (None, Some (status_Errorf InvalidArgument
                          "[SubmitJobs] Error submitting job %s for user %s: %v"
                          [ArgRequestJson; ArgString (GetName principal); ArgError (Some e)]))
  | inl jobs =>
      r ← call SchedulingInfoRepository_GetClusterSchedulingInfo;
      match r with
      | inr err =>
          mret (None, Some (status_Errorf InvalidArgument
                              "[SubmitJobs] error getting scheduling info: %s" [ArgError (Some (ErrForeign err))]))
      | inl allClusterSchedulingInfo =>
          err ← call (validateJobsCanBeScheduled jobs allClusterSchedulingInfo);
          match err with
          | Some err =>
              mret (None, Some (status_Errorf InvalidArgument
                                  "[SubmitJobs] error submitting jobs for user %s: %s"
                                  [ArgString (GetName principal); ArgError (Some (ErrForeign err))]))
          | None =>
              err ← call (reportSubmitted jobs);
              match err with
              | Some err =>
                  mret (None, Some (status_Errorf Aborted
                                      "[SubmitJobs] error getting submitted report: %s"
                                      [ArgError (Some (ErrForeign err))]))
              | None =>
                  r ← call (JobRepository_AddJobs jobs);
                  match r with
                  | inr err =>
                      let jobFailures :=
                        createJobFailuresWithReason jobs ("Failed to save job in Armada: %s", None) in
                      reportErr ← call (reportFailed EmptyString jobFailures);
                      match reportErr with
                      | Some reportErr =>
                          mret (None, Some (status_Errorf Internal
                                              "[SubmitJobs] error reporting failure event: %v"
                                              [ArgError (Some (ErrForeign reportErr))]))
                      | None =>
                          mret (None, Some (status_Errorf Aborted
                                              "[SubmitJobs] error saving jobs in Armada: %s"
                                              [ArgError (Some (ErrForeign err))]))
                      end
                  | inl submissionResults =>
                      match partitionResults jobs 0 submissionResults
                              {| outcome_responses := []; outcome_createdJobs := [];
                                 outcome_jobFailures := []; outcome_doubleSubmits := [] |} with
                      | None => Panic
                      | Some out =>
                          let result := {| JobResponseItems := outcome_responses out |} in
                          err ← call (reportFailed EmptyString (outcome_jobFailures out));
                          match err with
                          | Some err =>
                              mret (Some result,
                                    Some (status_Errorf Internal
                                            "[SubmitJobs] error reporting failed jobs: %s"
                                            [ArgError (Some (ErrForeign err))]))
                          | None =>
                              err ← call (reportDuplicateDetected (outcome_doubleSubmits out));
                              match err with
                              | Some err =>
                                  mret (Some result,
                                        Some (status_Errorf Internal
                                                "[SubmitJobs] error reporting duplicate jobs: %s"
                                                [ArgError (Some (ErrForeign err))]))
                              | None =>
                                  err ← call (reportQueued (outcome_createdJobs out));
                                  match err with
                                  | Some err =>
                                      mret (Some result,
                                            Some (status_Errorf Internal
                                                    "[SubmitJobs] error reporting queued jobs: %s"
                                                    [ArgError (Some (ErrForeign err))]))
                                  | None =>
                                      if bool_decide (0 < length (outcome_jobFailures out))%nat
                                      then
                                        mret (Some result,
                                              Some (status_Errorf Internal
                                                      "[SubmitJobs] error submitting some or all jobs: %s"
                                                      [ArgError None]))
                                      else mret (Some result, None)
                                  end
                              end
                          end
                      end
                  end
              end
          end
      end
  end.

(** The two-tier check of [SubmitJobs] on the resolved queue: the status
    with which the operation returns, or [None] when it goes on. *)
Definition SubmitJobs_refusal (server : SubmitServer) (ctx : Context)
    (req : JobSubmitRequest) (q : Queue) : option Status :=
  let err := checkPermission (server_permissions server) ctx permissions.SubmitAnyJobs in
  match err with
  | None => None
  | Some err =>
      match errors_As_ErrNoPermission err with
      | Some globalPermErr =>
          let err :=
            checkQueuePermission (server_permissions server) ctx q
                                 permissions.SubmitJobs PermissionVerbSubmit in
          match err with
          | None => None
          | Some err =>
              match errors_As_ErrNoPermission err with
              | Some queuePermErr =>
                  Some (status_Errorf PermissionDenied
                          "[SubmitJobs] error submitting job in queue %s: %s"
                          [ArgString (Req_Queue req);
                           ArgNoPermission (MergePermissionErrors [globalPermErr; queuePermErr])])
              | None =>
                  Some (status_Errorf Unavailable "[SubmitJobs] error checking permissions: %s"
                                      [ArgError (Some err)])
              end
          end
      | None =>
          Some (status_Errorf Unavailable "[SubmitJobs] error checking permissions: %s"
                              [ArgError (Some err)])
      end
  end.

Definition SubmitJobs (server : SubmitServer) (ctx : Context) (req : JobSubmitRequest)
    : Prog (option JobSubmitResponse * option Status) :=
  r ← getQueueOrCreate server ctx (Req_Queue req);
  match r with
  | inr err => mret (None, Some err)
  | inl q =>
      match SubmitJobs_refusal server ctx req q with
      | Some st => mret (None, Some st)
      | None => SubmitJobs_authorized server ctx req q
      end
  end.

(** ** Cancelling and reprioritizing *)

(** The set of the queue names of some jobs, as the first loop of
    [checkCancelPerms] and of [checkReprioritizePerms] builds it. *)
Definition queueNamesOf (jobs : list Job) : gset string :=
  foldl (fun (queueNames : gset string) job => {[Job_Queue job]} ∪ queueNames) ∅ jobs.

(** The two-tier check of a verb on one queue, as the second loop of
    [checkCancelPerms] and of [checkReprioritizePerms] makes it: the error
    with which the loop returns, or [None] when it goes on. *)
Definition checkQueuePerms (server : SubmitServer) (ctx : Context) (q : Queue)
    (anyPermission permission : Permission) (verb : PermissionVerb) : option error :=
  let err := checkPermission (server_permissions server) ctx anyPermission in
  match err with
  | None => None
  | Some err =>
      match errors_As_ErrNoPermission err with
      | Some globalPermErr =>
          let err := checkQueuePermission (server_permissions server) ctx q permission verb in
          match err with
          | None => None
          | Some err =>
              match errors_As_ErrNoPermission err with
              | Some queuePermErr =>
                  Some (ErrNoPermission_ (MergePermissionErrors [globalPermErr; queuePermErr]))
              | None => Some err
              end
          end
      | None => Some err
      end
  end.

(** The second loop of [checkCancelPerms], over the queue names in the
    order in which the set is ranged over. *)
Fixpoint checkCancelPerms_queues (server : SubmitServer) (ctx : Context)
    (queueNames : list string) : Prog (option error) :=
  match queueNames with
  | [] => mret None
  | queueName :: rest =>
      r ← call (QueueRepository_GetQueue queueName);
      match r with
      | inr err => mret (Some (ErrForeign err))
      | inl q =>
          match checkQueuePerms server ctx q permissions.CancelAnyJobs
                                permissions.CancelJobs PermissionVerbCancel with
          | Some err => mret (Some err)
          | None => checkCancelPerms_queues server ctx rest
          end
      end
  end.

(** The source ranges over a Go map of the queue names, in an order that
    the runtime picks anew at each range; the order of [elements] stands
    for it. What depends on the order, the properties of the lookups of
    the checks, is proved of the loops for every order of the names. *)
Definition checkCancelPerms (server : SubmitServer) (ctx : Context) (jobs : list Job)
    : Prog (option error) :=
  checkCancelPerms_queues server ctx (elements (queueNamesOf jobs)).

Fixpoint checkReprioritizePerms_queues (server : SubmitServer) (ctx : Context)
    (queueNames : list string) : Prog (option error) :=
  match queueNames with
  | [] => mret None
  | queueName :: rest =>
      r ← call (QueueRepository_GetQueue queueName);
      match r with
      | inr err => mret (Some (ErrForeign err))
      | inl q =>
          match checkQueuePerms server ctx q permissions.ReprioritizeAnyJobs
                                permissions.ReprioritizeJobs PermissionVerbReprioritize with
          | Some err => mret (Some err)
          | None => checkReprioritizePerms_queues server ctx rest
          end
      end
  end.

Definition checkReprioritizePerms (server : SubmitServer) (ctx : Context) (jobs : list Job)
    : Prog (option error) :=
  checkReprioritizePerms_queues server ctx (elements (queueNamesOf jobs)).

(** The loop of [cancelJobs] over the deletion result: the jobs deleted
    without error, and their ids. (The source logs the other jobs.) *)
Definition cancelledOf (deletionResult : list (Job * option foreign_error))
    : list Job * list string :=
  foldl (fun (acc : list Job * list string) (entry : Job * option foreign_error) =>
           let '(cancelled, cancelledIds) := acc in
           let '(job, err) := entry in
           match err with
           | Some _ => (cancelled, cancelledIds)
           | None => (cancelled ++ [job], cancelledIds ++ [Job_Id job])
           end)
        ([], []) deletionResult.

(** [cancelJobs] after the check of the permissions. *)
Definition cancelJobs_permitted (server : SubmitServer) (ctx : Context) (jobs : list Job)
    : Prog (CancellationResult + error) :=
  let principal := GetPrincipal ctx in
  err ← call (reportJobsCancelling (GetName principal) jobs);
  match err with
  | Some err =>
      mret (inr (Errorf "[cancelJobs] error reporting jobs marked as cancelled: %w" []
                        (Some (ErrForeign err))))
  | None =>
      r ← call (JobRepository_DeleteJobs jobs);
      match r with
      | inr err => mret (inr (Errorf "[cancelJobs] error deleting jobs: %w" [] (Some (ErrForeign err))))
      | inl deletionResult =>
          let '(cancelled, cancelledIds) := cancelledOf deletionResult in
          err ← call (reportJobsCancelled (GetName principal) cancelled);
          match err with
          | Some err =>
              mret (inr (Errorf "[cancelJobs] error reporting job cancellation: %w" []
                                (Some (ErrForeign err))))
          | None => mret (inl {| CancelledIds := cancelledIds |})
          end
      end
  end.

Definition cancelJobs (server : SubmitServer) (ctx : Context) (jobs : list Job)
    : Prog (CancellationResult + error) :=
  err ← checkCancelPerms server ctx jobs;
  match err with
  | Some err => mret (inr err)
  | None => cancelJobs_permitted server ctx jobs
  end.

Definition cancelJobsById (server : SubmitServer) (ctx : Context) (jobId : string)
    : Prog (option CancellationResult * option Status) :=
  r ← call (JobRepository_GetExistingJobsByIds [jobId]);
  match r with
  | inr err =>
      mret (None, Some (status_Errorf Unavailable
                          "[cancelJobsById] error getting job with ID %s: %s"
                          [ArgString jobId; ArgError (Some (ErrForeign err))]))
  | inl jobs =>
      if negb (bool_decide (length jobs = 1%nat))
      then mret (None, Some (status_Errorf Internal
                               "[cancelJobsById] error getting job with ID %s: expected exactly one result, but got %v"
                               [ArgString jobId; ArgJobs jobs]))
      else
        r ← cancelJobs server ctx jobs;
        match r with
        | inr err =>
            match errors_As_ErrNoPermission err with
            | Some e =>
                mret (None, Some (status_Errorf PermissionDenied
                                    "[cancelJobsById] error canceling job with ID %s: %s"
                                    [ArgString jobId; ArgNoPermission e]))
            | None =>
                mret (None, Some (status_Errorf Unavailable
                                    "[cancelJobsById] error checking permissions: %s"
                                    [ArgError (Some err)]))
            end
        | inl result => mret (Some result, None)
        end
  end.

(** Modelled from the spec: [util.Batch] is not part of the sources. The
    ids are cut, in order, into chunks of the batch size; the last chunk
    holds what is left. The spec says nothing of a batch size that is not
    positive: the value of [Batch] is arbitrary there, and what is proved
    either assumes a positive size or holds whatever the batches are. *)
Fixpoint chunks (fuel size : nat) (elements : list string) : list (list string) :=
  match fuel with
  | O => []
  | S fuel =>
      match elements with
      | [] => []
      | _ :: _ => take size elements :: chunks fuel size (drop size elements)
      end
  end.

Definition Batch (elements : list string) (batchSize : Z) : list (list string) :=
  if bool_decide (0 < batchSize)
  then chunks (length elements) (Z.to_nat batchSize) elements
  else [].

(** Modelled from the spec: [util.CloseToDeadline] is not part of the
    sources. The deadline of the context is close when there is one and
    less than the tolerance is left of it on the clock. *)
Definition CloseToDeadline (ctx : Context) (tolerance : Duration) : Prog bool :=
  match ctx_deadline ctx with
  | None => mret false
  | Some deadline =>
      now ← call time_Now;
      mret (bool_decide (deadline - now < tolerance))
  end.

(** The loop of [cancelJobsByQueueAndSet] over the batches. *)
Fixpoint cancelJobsByQueueAndSet_batches (server : SubmitServer) (ctx : Context)
    (batches : list (list string)) (cancelledIds : list string)
    : Prog (option CancellationResult * option Status) :=
  match batches with
  | [] => mret (Some {| CancelledIds := cancelledIds |}, None)
  | batch :: rest =>
      r ← call (JobRepository_GetExistingJobsByIds batch);
      match r with
      | inr err =>
          let result := {| CancelledIds := cancelledIds |} in
          mret (Some result,
                Some (status_Errorf Internal "[cancelJobsBySetAndQueue] error getting jobs: %s"
                                    [ArgError (Some (ErrForeign err))]))
      | inl jobs =>
          r ← cancelJobs server ctx jobs;
          match r with
          | inr err =>
              match errors_As_ErrNoPermission err with
              | Some e =>
                  mret (None, Some (status_Errorf PermissionDenied
                                      "[cancelJobsBySetAndQueue] error canceling jobs: %s"
                                      [ArgNoPermission e]))
              | None =>
                  let result := {| CancelledIds := cancelledIds |} in
                  mret (Some result,
                        Some (status_Errorf Unavailable
                                "[cancelJobsBySetAndQueue] error checking permissions: %s"
                                [ArgError (Some err)]))
              end
          | inl result =>
              let cancelledIds := cancelledIds ++ CancelledIds result in
              close ← CloseToDeadline ctx (time_Second * 1);
              if (close : bool)
              then
                let result := {| CancelledIds := cancelledIds |} in
                mret (Some result,
                      Some (status_Errorf DeadlineExceeded
                              "[cancelJobsBySetAndQueue] deadline exceeded" []))
              else cancelJobsByQueueAndSet_batches server ctx rest cancelledIds
          end
      end
  end.

Definition cancelJobsByQueueAndSet (server : SubmitServer) (ctx : Context)
    (queue jobSetId : string) : Prog (option CancellationResult * option Status) :=
  r ← call (JobRepository_GetActiveJobIds queue jobSetId);
  match r with
  | inr err =>
      mret (None, Some (status_Errorf Unavailable
                          "[cancelJobsBySetAndQueue] error getting job IDs: %s"
                          [ArgError (Some (ErrForeign err))]))
  | inl ids =>
      let batches := Batch ids (cancelJobsBatchSize server) in
      let cancelledIds : list string := [] in
      cancelJobsByQueueAndSet_batches server ctx batches cancelledIds
  end.

Definition CancelJobs (server : SubmitServer) (ctx : Context) (request : JobCancelRequest)
    : Prog (option CancellationResult * option Status) :=
  if negb (bool_decide (Cancel_JobId request = EmptyString))
  then cancelJobsById server ctx (Cancel_JobId request)
  else if negb (bool_decide (Cancel_JobSetId request = EmptyString))
          && negb (bool_decide (Cancel_Queue request = EmptyString))
  then cancelJobsByQueueAndSet server ctx (Cancel_Queue request) (Cancel_JobSetId request)
  else mret (None, Some (status_Errorf InvalidArgument
                           "[CancelJobs] specify either job ID or both queue name and job set ID" [])).

(** ** Reprioritization *)

(** The function that [reprioritizeJobs] gives to [UpdateJobs] sets the
    priority of every job it is applied to. *)
Definition withPriority (newPriority : float) (job : Job) : Job :=
  {| Job_Id := Job_Id job;
     Job_ClientId := Job_ClientId job;
     Job_Queue := Job_Queue job;
     Job_JobSetId := Job_JobSetId job;
     Job_Namespace := Job_Namespace job;
     Job_Labels := Job_Labels job;
     Job_Annotations := Job_Annotations job;
     Job_RequiredNodeLabels := Job_RequiredNodeLabels job;
     Job_Ingress := Job_Ingress job;
     Job_Services := Job_Services job;
     Job_Priority := newPriority;
     Job_PodSpec := Job_PodSpec job;
     Job_PodSpecs := Job_PodSpecs job;
     Job_Created := Job_Created job;
     Job_Owner := Job_Owner job;
     Job_QueueOwnershipUserGroups := Job_QueueOwnershipUserGroups job |}.

Definition reportReprioritizedJobEvents (reprioritizedJobs : list Job) (newPriority : float)
    (principalName : string) : Prog (option error) :=
  err ← call (reportJobsUpdated principalName reprioritizedJobs);
  match err with
  | Some err =>
      mret (Some (Errorf "[reportReprioritizedJobEvents] error reporting jobs updated: %w" []
                         (Some (ErrForeign err))))
  | None =>
      err ← call (reportJobsReprioritized principalName reprioritizedJobs newPriority);
      match err with
      | Some err =>
          mret (Some (Errorf "[reportReprioritizedJobEvents] error reporting jobs reprioritized: %w"
                             [] (Some (ErrForeign err))))
      | None => mret None
      end
  end.

(** The function given to [UpdateJobs], applied to each of the lists of
    jobs to which the job store applied it. An error of the reports is
    logged, and nothing else comes of it. *)
Fixpoint reprioritizeJobs_applied (applied : list (list Job)) (newPriority : float)
    (principalName : string) : Prog unit :=
  match applied with
  | [] => mret tt
  | jobs :: rest =>
      _ ← reportReprioritizedJobEvents (map (withPriority newPriority) jobs) newPriority
                                       principalName;
      reprioritizeJobs_applied rest newPriority principalName
  end.

Definition reprioritizeJobs (jobIds : list string) (newPriority : float) (principalName : string)
    : Prog (gmap string (option error) + error) :=
  r ← call (JobRepository_UpdateJobs jobIds);
  _ ← reprioritizeJobs_applied r.1 newPriority principalName;
  match r.2 with
  | inr err =>
      mret (inr (Errorf "[reprioritizeJobs] error updating jobs: %s" [FormatError err] None))
  | inl updateJobResults =>
      mret (inl (foldl (fun (results : gmap string (option error)) r =>
                          <[UpdateJobResult_JobId r := ErrForeign <$> UpdateJobResult_Error r]>
                            results)
                       ∅ updateJobResults))
  end.

(** The jobs that a request to reprioritize selects: the jobs of its ids,
    else the active jobs of its queue and job set, else none. *)
Definition ReprioritizeJobs_jobs (request : JobReprioritizeRequest)
    : Prog (list Job + Status) :=
  if bool_decide (0 < length (Reprioritize_JobIds request))%nat
  then
    r ← call (JobRepository_GetExistingJobsByIds (Reprioritize_JobIds request));
    match r with
    | inr err =>
        mret (inr (status_Errorf Unavailable "[ReprioritizeJobs] error getting jobs by ID: %s"
                                 [ArgError (Some (ErrForeign err))]))
    | inl existingJobs => mret (inl existingJobs)
    end
  else if negb (bool_decide (Reprioritize_Queue request = EmptyString))
          && negb (bool_decide (Reprioritize_JobSetId request = EmptyString))
  then
    r ← call (JobRepository_GetActiveJobIds (Reprioritize_Queue request)
                                            (Reprioritize_JobSetId request));
    match r with
    | inr err =>
        mret (inr (status_Errorf Unavailable
                     "[ReprioritizeJobs] error getting job IDs for queue %s and job set %s: %s"
                     [ArgString (Reprioritize_Queue request);
                      ArgString (Reprioritize_JobSetId request);
                      ArgError (Some (ErrForeign err))]))
    | inl ids =>
        r ← call (JobRepository_GetExistingJobsByIds ids);
        match r with
        | inr err =>
            mret (inr (status_Errorf Unavailable
                         "[ReprioritizeJobs] error getting jobs for queue %s and job set %s: %s"
                         [ArgString (Reprioritize_Queue request);
                          ArgString (Reprioritize_JobSetId request);
                          ArgError (Some (ErrForeign err))]))
        | inl existingJobs => mret (inl existingJobs)
        end
    end
  else mret (inl []).

(** [ReprioritizeJobs] once the jobs are selected and the permissions are
    checked. *)
Definition ReprioritizeJobs_permitted (server : SubmitServer) (ctx : Context)
    (request : JobReprioritizeRequest) (jobs : list Job)
    : Prog (option JobReprioritizeResponse * option Status) :=
  let principalName := GetName (GetPrincipal ctx) in
  err ← call (reportJobsReprioritizing principalName jobs (Reprioritize_NewPriority request));
  match err with
  | Some err =>
      mret (None, Some (status_Errorf Unavailable
                          "[ReprioritizeJobs] error reporting job re-prioritization: %s"
                          [ArgError (Some (ErrForeign err))]))
  | None =>
      let jobIds := map Job_Id jobs in
      r ← reprioritizeJobs jobIds (Reprioritize_NewPriority request) principalName;
      match r with
      | inr err =>
          mret (None, Some (status_Errorf Unavailable
                              "[ReprioritizeJobs] error re-prioritizing jobs: %s"
                              [ArgError (Some err)]))
      | inl results => mret (Some {| ReprioritizationResults := results |}, None)
      end
  end.

Definition ReprioritizeJobs (server : SubmitServer) (ctx : Context)
    (request : JobReprioritizeRequest)
    : Prog (option JobReprioritizeResponse * option Status) :=
  r ← ReprioritizeJobs_jobs request;
  match r with
  | inr st => mret (None, Some st)
  | inl jobs =>
      err ← checkReprioritizePerms server ctx jobs;
      match err with
      | Some err =>
          match errors_As_ErrNoPermission err with
          | Some e =>
              mret (None, Some (status_Errorf PermissionDenied "[ReprioritizeJobs] error: %s"
                                              [ArgNoPermission e]))
          | None =>
              mret (None, Some (status_Errorf Unavailable
                                  "[ReprioritizeJobs] error checking permissions: %s"
                                  [ArgError (Some err)]))
          end
      | None => ReprioritizeJobs_permitted server ctx request jobs
      end
  end.

(* ===================================================================== *)
(** * The vocabulary of the properties, and example data *)
(* ===================================================================== *)

(** The definitions below state the properties proved in the second part of
    the file: predicates on containers, values, traces and calls, and the
    servers, requests and handlers of the examples. *)

(** What the filling step makes of one container [c]: the container [c']
    has a map of requests and a map of limits, with the same resources; a
    resource that had one of the two values has it twice, a resource that
    had both keeps both, and a resource that had none has none. *)
Definition filled (c c' : Container) : Prop :=
  let limits0 : gmap string Quantity := default ∅ (Limits (Container_Resources c)) in
  let requests0 : gmap string Quantity := default ∅ (Requests (Container_Resources c)) in
  Container_Name c' = Container_Name c
  /\ exists limits requests : gmap string Quantity,
      Limits (Container_Resources c') = Some limits
      /\ Requests (Container_Resources c') = Some requests
      /\ forall r : string,
          (is_Some (requests !! r) <-> is_Some (limits !! r))
          /\ (forall v, limits0 !! r = Some v -> requests0 !! r = None ->
                        requests !! r = Some v /\ limits !! r = Some v)
          /\ (forall v, requests0 !! r = Some v -> limits0 !! r = None ->
                        limits !! r = Some v /\ requests !! r = Some v)
          /\ (forall vl vr, limits0 !! r = Some vl -> requests0 !! r = Some vr ->
                            limits !! r = Some vl /\ requests !! r = Some vr)
          /\ (limits0 !! r = None -> requests0 !! r = None ->
              limits !! r = None /\ requests !! r = None).

(** A container as the filling step leaves it: a resource has a request
    exactly when it has a limit. *)
Definition balanced (c : Container) : Prop :=
  forall res : string,
    is_Some (default (∅ : gmap string Quantity) (Requests (Container_Resources c)) !! res)
    <-> is_Some (default (∅ : gmap string Quantity) (Limits (Container_Resources c)) !! res).

(** What the defaulting step is to make of one container [c], for the
    default limits [defaults]: the container [c'] has a map of requests and
    a map of limits; a resource for which [c] has neither a request nor a
    limit has got the default, if there is one, as its request and as its
    limit, and has neither otherwise; a resource for which [c] has a request
    or a limit is left as it is. *)
Definition defaulted (defaults : gmap string Quantity) (c c' : Container) : Prop :=
  let limits0 : gmap string Quantity := default ∅ (Limits (Container_Resources c)) in
  let requests0 : gmap string Quantity := default ∅ (Requests (Container_Resources c)) in
  Container_Name c' = Container_Name c
  /\ exists limits requests : gmap string Quantity,
      Limits (Container_Resources c') = Some limits
      /\ Requests (Container_Resources c') = Some requests
      /\ forall res : string,
          (requests0 !! res = None -> limits0 !! res = None ->
           requests !! res = defaults !! res /\ limits !! res = defaults !! res)
          /\ (is_Some (requests0 !! res) \/ is_Some (limits0 !! res) ->
              requests !! res = requests0 !! res /\ limits !! res = limits0 !! res).

(** A server whose configuration gives memory the default [1]. *)
Definition server_with_memory_default : SubmitServer :=
  {| server_permissions := NewPrincipalPermissionChecker ∅ ∅ ∅;
     cancelJobsBatchSize := 1;
     queueManagementConfig := {| AutoCreateQueues := false; DefaultPriorityFactor := 1%float |};
     schedulingConfig :=
       {| DefaultJobLimits := {[ "memory" := 1 ]}; DefaultJobTolerations := [] |} |}.

(** A container that requests [2] of memory and has no limits. *)
Definition container_with_memory_request : Container :=
  {| Container_Name := "main";
     Container_Resources := {| Limits := None; Requests := Some {[ "memory" := 2 ]} |} |}.

(** The value as the job is to store it, read from left to right: the
    escape sequence [{{JobId}}] stands for the verbatim [JobId], the
    placeholder [{JobId}] for the id of the job, and every other character
    for itself. The three characters of the sentinel of [enrichText], which
    the source takes to be impossible to enter, are read as an escape
    sequence too. [skip] counts the characters of a sequence still to be
    passed over. *)
Fixpoint read_from (skip : nat) (jobId value : string) : string :=
  match value with
  | EmptyString => EmptyString
  | String c rest =>
      match skip with
      | S k => read_from k jobId rest
      | O =>
          if String.prefix "{{JobId}}" value then "JobId" +:+ read_from 8 jobId rest
          else if String.prefix "{JobId}" value then jobId +:+ read_from 6 jobId rest
          else if String.prefix sentinel value then "JobId" +:+ read_from 2 jobId rest
          else String c (read_from 0 jobId rest)
      end
  end.

Definition stored_value (jobId value : string) : string := read_from 0 jobId value.

Fixpoint has_char (c : ascii) (s : string) : bool :=
  match s with
  | EmptyString => false
  | String a s' => bool_decide (a = c) || has_char c s'
  end.

Definition backslash : ascii := ascii_of_nat 92.

(** An id that is not empty and holds none of the characters of the
    sentinel: no blank, no backslash and no [z]. The ids that the server
    mints are ULIDs, written in digits and capital letters. *)
Definition sentinel_free (jobId : string) : bool :=
  negb (bool_decide (jobId = EmptyString))
  && negb (has_char " " jobId)
  && negb (has_char backslash jobId)
  && negb (has_char "z" jobId).

(** The value after the first two replacements of [enrichText]. *)
Definition marked (jobId value : string) : string :=
  ReplaceAll (ReplaceAll value "{{JobId}}" sentinel) "{JobId}" jobId.

(** [holds panics P Q p]: whatever the answers to its calls, every call
    that [p] makes satisfies [P] and every value that [p] returns satisfies
    [Q]; and [p] panics only if [panics] holds. *)
Fixpoint holds {A : Type} (panics : Prop) (P : Cmd -> Prop) (Q : A -> Prop) (p : Prog A) : Prop :=
  match p with
  | Ret a => Q a
  | Panic => panics
  | Call c k => P c /\ forall r, holds panics P Q (k r)
  end.

(** The program may panic; the program does not panic. *)
Definition may_panic : Prop := True.
Definition no_panic : Prop := False.

(** The code with which an operation returns, when it returns. *)
Definition returned_code {A : Type} (r : option (option A * option Status)) : option Code :=
  match r with
  | Some (_, err) => Some (code_of err)
  | None => None
  end.

(** An item is malformed when it gives both [pod_spec] and [pod_specs], or
    neither. *)
Definition malformed (item : JobSubmitRequestItem) : Prop :=
  (is_Some (Item_PodSpec item) /\ Item_PodSpecs item <> [])
  \/ (Item_PodSpec item = None /\ Item_PodSpecs item = []).

(** What a job keeps of the item it is created from. *)
Definition created_from (request : JobSubmitRequest) (owner : string) (groups : list string)
    (item : JobSubmitRequestItem) (job : Job) : Prop :=
  Job_Queue job = Req_Queue request
  /\ Job_JobSetId job = Req_JobSetId request
  /\ Job_Owner job = owner
  /\ Job_QueueOwnershipUserGroups job = groups
  /\ Job_Labels job = enrichText (Item_Labels item) (Job_Id job)
  /\ Job_Annotations job = enrichText (Item_Annotations item) (Job_Id job).

(** The calls of [createJobsObjects]: the validation of pod specifications,
    the id generator and the clock. *)
Definition creating (c : Cmd) : Prop :=
  match c with
  | validation_ValidatePodSpec _ _ | util_NewULID | time_Now => True
  | _ => False
  end.

(** A handler without state that answers every call the same way: no queue
    is found, every other call succeeds, the clock stands still and the id
    generator gives one id. *)
Definition steady (c : Cmd) : Resp c :=
  match c return Resp c with
  | QueueRepository_GetQueue name => inr (ErrQueueNotFound name)
  | QueueRepository_CreateQueue _ => None
  | QueueRepository_DeleteQueue _ => None
  | JobRepository_GetQueueActiveJobSets _ => inl []
  | JobRepository_AddJobs jobs =>
      inl (map (fun job => {| SubmitJobResult_JobId := Job_Id job;
                              SubmitJobResult_SubmittedJob := Some job;
                              SubmitJobResult_DuplicateDetected := false;
                              SubmitJobResult_Error := None |}) jobs)
  | JobRepository_GetExistingJobsByIds _ => inl []
  | JobRepository_GetActiveJobIds _ _ => inl []
  | JobRepository_DeleteJobs jobs => inl (map (fun job => (job, None)) jobs)
  | SchedulingInfoRepository_GetClusterSchedulingInfo => inl ∅
  | validateJobsCanBeScheduled _ _ => None
  | validation_ValidatePodSpec _ _ => None
  | reportSubmitted _ => None
  | reportQueued _ => None
  | reportDuplicateDetected _ => None
  | reportFailed _ _ => None
  | reportJobsCancelling _ _ => None
  | reportJobsCancelled _ _ => None
  | JobRepository_UpdateJobs _ => ([], inl [])
  | reportJobsReprioritizing _ _ _ => None
  | reportJobsUpdated _ _ => None
  | reportJobsReprioritized _ _ _ => None
  | util_NewULID => "01ARZ3NDEKTSV4RRFFQ69G5FAV"
  | time_Now => 0
  end.

Definition steady_handler : Handler unit := fun c s => (steady c, s).

(** A server that creates missing queues and cancels in batches of two,
    with a permission checker that gives [submit_any_jobs] and
    [cancel_any_jobs] to the group [admins] and [delete_queue] to the group
    [operators]. *)
Definition example_server : SubmitServer :=
  {| server_permissions :=
       NewPrincipalPermissionChecker
         {[ permissions.SubmitAnyJobs := ["admins"];
            permissions.CancelAnyJobs := ["admins"];
            permissions.DeleteQueue := ["operators"] ]}
         ∅ ∅;
     cancelJobsBatchSize := 2;
     queueManagementConfig := {| AutoCreateQueues := true; DefaultPriorityFactor := 1%float |};
     schedulingConfig :=
       {| DefaultJobLimits := {[ "memory" := 1 ]}; DefaultJobTolerations := [] |} |}.

Definition example_item : JobSubmitRequestItem :=
  {| Item_Priority := 1%float;
     Item_Namespace := EmptyString;
     Item_ClientId := "c1";
     Item_Labels := {[ "app" := "job-{JobId}" ]};
     Item_Annotations := {[ "note" := "{{JobId}} of {JobId}" ]};
     Item_RequiredNodeLabels := ∅;
     Item_PodSpec := None;
     Item_PodSpecs :=
       [ {| Containers :=
              [ {| Container_Name := "main";
                   Container_Resources := {| Limits := Some {[ "cpu" := 2 ]}; Requests := None |} |} ];
            Tolerations := [];
            NodeSelector := None |} ];
     Item_Ingress := [];
     Item_Services := [] |}.

Definition example_request : JobSubmitRequest :=
  {| Req_Queue := "q1"; Req_JobSetId := "js1"; Req_JobRequestItems := [example_item] |}.

(** What [enrichText] is to make of a map of labels or annotations
    [before] for the job with id [jobId]: the map [after] has the same keys,
    and under every key the value of [before] as it is to be stored. *)
Definition enriched (jobId : string) (before after : gmap string string) : Prop :=
  dom after = dom before
  /\ forall key value : string,
      before !! key = Some value -> after !! key = Some (stored_value jobId value).

Definition example_jobs : list Job :=
  match result_of (run steady_handler (createJobs example_server example_request "alice" ["admins"]) tt) with
  | Some (inl jobs) => jobs
  | _ => []
  end.

(** The calls of [SubmitJobs] once the caller is authorized: those of
    [createJobs], and then the calls that check, report and store the jobs
    created from the items of the request. *)
Definition submitting (request : JobSubmitRequest) (owner : string) (groups : list string)
    (c : Cmd) : Prop :=
  match c with
  | validation_ValidatePodSpec _ _ | util_NewULID | time_Now => True
  | SchedulingInfoRepository_GetClusterSchedulingInfo => True
  | validateJobsCanBeScheduled jobs _ | reportSubmitted jobs | JobRepository_AddJobs jobs =>
      Forall2 (created_from request owner groups) (Req_JobRequestItems request) jobs
  | reportFailed _ _ | reportDuplicateDetected _ | reportQueued _ => True
  | _ => False
  end.

(** The calls of [getQueueOrCreate]: one lookup of the queue, and at most
    the creation of a queue of that name owned by the principal. *)
Definition resolving (ctx : Context) (queueName : string) (c : Cmd) : Prop :=
  match c with
  | QueueRepository_GetQueue name => name = queueName
  | QueueRepository_CreateQueue q =>
      Queue_Name q = queueName /\ user_owners q = [GetName (GetPrincipal ctx)]
  | _ => False
  end.

(** A subject matches a principal by name when it is a user, and by group
    membership when it is a group. *)
Definition matches (principal : Principal) (subject : PermissionSubject) : Prop :=
  match Subject_Kind subject with
  | PermissionSubjectKindUser => Subject_Name subject = GetName principal
  | PermissionSubjectKindGroup => Subject_Name subject ∈ GetGroupNames principal
  end.

(** The permissions list of a queue grants a verb to a principal when one of
    its bindings lists the verb and a subject matching the principal. *)
Definition queue_grants (q : Queue) (principal : Principal) (verb : PermissionVerb) : Prop :=
  exists binding subject,
    binding ∈ Queue_Permissions q
    /\ subject ∈ Permissions_Subjects binding
    /\ matches principal subject
    /\ verb ∈ Permissions_Verbs binding.

(** Both tiers refuse. *)
Definition denied (server : SubmitServer) (ctx : Context) (q : Queue)
    (anyPermission : Permission) (verb : PermissionVerb) : Prop :=
  UserHasPermission (server_permissions server) ctx anyPermission = false
  /\ ~ queue_grants q (GetPrincipal ctx) verb.

(** The single refusal into which the refusals of both tiers are merged:
    it carries the diagnostics of the global tier and then those of the
    queue tier, and each tier gives at least one. *)
Definition merged_refusal (server : SubmitServer) (ctx : Context) (q : Queue)
    (anyPermission permission : Permission) (verb : PermissionVerb)
    (merged : ErrNoPermission) : Prop :=
  exists globalPermErr queuePermErr,
    checkPermission (server_permissions server) ctx anyPermission
    = Some (ErrNoPermission_ globalPermErr)
    /\ checkQueuePermission (server_permissions server) ctx q permission verb
       = Some (ErrNoPermission_ queuePermErr)
    /\ merged = MergePermissionErrors [globalPermErr; queuePermErr]
    /\ ErrNoPermission_Diagnostics merged
       = ErrNoPermission_Diagnostics globalPermErr ++ ErrNoPermission_Diagnostics queuePermErr
    /\ ErrNoPermission_Diagnostics globalPermErr <> []
    /\ ErrNoPermission_Diagnostics queuePermErr <> [].

(** Once the permissions are checked, [cancelJobs] calls the event sink and
    the job store only, and the errors it returns wrap errors of theirs:
    none is a refusal. *)
Definition cancelling (c : Cmd) : Prop :=
  match c with
  | reportJobsCancelling _ _ | JobRepository_DeleteJobs _ | reportJobsCancelled _ _ => True
  | _ => False
  end.

(** A queue that grants the submit verb to the group [team-a] and the
    cancel verb to the user [carol]. *)
Definition example_queue : Queue :=
  {| Queue_Name := "q1";
     Queue_Permissions :=
       [ {| Permissions_Subjects :=
              [ {| Subject_Kind := PermissionSubjectKindGroup; Subject_Name := "team-a" |} ];
            Permissions_Verbs := [PermissionVerbSubmit] |};
         {| Permissions_Subjects :=
              [ {| Subject_Kind := PermissionSubjectKindUser; Subject_Name := "carol" |} ];
            Permissions_Verbs := [PermissionVerbCancel] |} ];
     Queue_PriorityFactor := 1%float;
     Queue_ResourceLimits := ∅ |}.

Definition example_job : Job :=
  {| Job_Id := "01ARZ3NDEKTSV4RRFFQ69G5FAV";
     Job_ClientId := "c1";
     Job_Queue := "q1";
     Job_JobSetId := "js1";
     Job_Namespace := "default";
     Job_Labels := ∅;
     Job_Annotations := ∅;
     Job_RequiredNodeLabels := ∅;
     Job_Ingress := [];
     Job_Services := [];
     Job_Priority := 1%float;
     Job_PodSpec := None;
     Job_PodSpecs := [];
     Job_Created := 0;
     Job_Owner := "alice";
     Job_QueueOwnershipUserGroups := ["team-a"] |}.

(** A handler like [steady_handler], but whose registry resolves every
    queue name to [example_queue] and whose job store finds [example_job]
    under every id. *)
Definition stocked (c : Cmd) : Resp c :=
  match c as c0 return Resp c0 with
  | QueueRepository_GetQueue _ => inl example_queue
  | JobRepository_GetExistingJobsByIds _ => inl [example_job]
  | c0 => steady c0
  end.

Definition stocked_handler : Handler unit := fun c s => (stocked c, s).

Definition context_of (name : string) (groups : list string) : Context :=
  {| ctx_principal := {| Principal_Name := name; Principal_Groups := groups;
                         Principal_Scopes := []; Principal_Claims := [] |};
     ctx_deadline := None |}.

(** [alice] is in the group that the queue grants the submit verb, [bob] is
    a guest, [root] has the global permissions. *)
Definition ctx_alice : Context := context_of "alice" ["staff"; "team-a"].
Definition ctx_bob : Context := context_of "bob" ["guests"].
Definition ctx_root : Context := context_of "root" ["admins"; "operators"].

(** The queue that [getQueueOrCreate] makes for a name that is not found. *)
Definition autoCreatedQueue (server : SubmitServer) (ctx : Context) (queueName : string) : Queue :=
  {| Queue_Name := queueName;
     Queue_Permissions :=
       [NewPermissionsFromOwners [GetName (GetPrincipal ctx)] (GetGroupNames (GetPrincipal ctx))];
     Queue_PriorityFactor := DefaultPriorityFactor (queueManagementConfig server);
     Queue_ResourceLimits := ∅ |}.

(** A call that neither writes to the job store nor appends to the event
    sink. *)
Definition harmless (c : Cmd) : Prop :=
  writes_job_store c = false /\ appends_event c = false.

(** An item with both [pod_spec] and [pod_specs], and a request made of it
    and of the well-formed item of the example. *)
Definition item_with_both : JobSubmitRequestItem :=
  {| Item_Priority := 1%float;
     Item_Namespace := EmptyString;
     Item_ClientId := "c2";
     Item_Labels := ∅;
     Item_Annotations := ∅;
     Item_RequiredNodeLabels := ∅;
     Item_PodSpec := Some {| Containers := []; Tolerations := []; NodeSelector := None |};
     Item_PodSpecs := [ {| Containers := []; Tolerations := []; NodeSelector := None |} ];
     Item_Ingress := [];
     Item_Services := [] |}.

Definition malformed_request : JobSubmitRequest :=
  {| Req_Queue := "q1"; Req_JobSetId := "js1";
     Req_JobRequestItems := [example_item; item_with_both] |}.

Definition userSubject (name : string) : PermissionSubject :=
  {| Subject_Kind := PermissionSubjectKindUser; Subject_Name := name |}.

Definition groupSubject (name : string) : PermissionSubject :=
  {| Subject_Kind := PermissionSubjectKindGroup; Subject_Name := name |}.

(** The ownership groups in the words of the specification: none when the
    queue grants the submit verb to the caller as a user, and else the
    groups of the caller that the queue grants the submit verb. *)
Definition granted_groups (q : Queue) (principal : Principal) : list string :=
  if HasPermission q (userSubject (GetName principal)) PermissionVerbSubmit
  then []
  else filter (fun group => HasPermission q (groupSubject group) PermissionVerbSubmit = true)
              (GetGroupNames principal).

(** The lists of jobs handed to the job store in a trace. *)
Definition submitted_jobs (t : list Entry) : list (list Job) :=
  flat_map (fun c => match c with
                     | JobRepository_AddJobs jobs => [jobs]
                     | _ => []
                     end) (calls t).

(** A handler like [steady_handler], but whose registry fails to delete. *)
Definition failing_delete (c : Cmd) : Resp c :=
  match c as c0 return Resp c0 with
  | QueueRepository_DeleteQueue _ => Some (ErrOpaque "registry unavailable")
  | c0 => steady c0
  end.

Definition failing_delete_handler : Handler unit := fun c s => (failing_delete c, s).

(** The calls of the path of [CancelJobs] by job id: the fetch of the job,
    the lookup of queues, and the calls of [cancelJobs]. The listing of the
    active job ids of a job set is not among them. *)
Definition cancelling_by_id (c : Cmd) : Prop :=
  match c with
  | JobRepository_GetExistingJobsByIds _ | QueueRepository_GetQueue _ => True
  | reportJobsCancelling _ _ | JobRepository_DeleteJobs _ | reportJobsCancelled _ _ => True
  | _ => False
  end.

(** The lists of ids with which jobs were fetched from the job store. *)
Definition fetched (t : list Entry) : list (list string) :=
  flat_map (fun e =>
              match entry_cmd e with
              | JobRepository_GetExistingJobsByIds ids => [ids]
              | _ => []
              end) t.

(** The jobs of a deletion result that were deleted without error, in the
    order of the result. *)
Definition deleted_without_error (deletionResult : list (Job * option foreign_error)) : list Job :=
  (filter (fun entry => entry.2 = None) deletionResult).*1.



(** The readings of the clock. *)
Definition reading_of (c : Cmd) : Resp c -> list Time :=
  match c return Resp c -> list Time with
  | time_Now => fun now => [now]
  | _ => fun _ => []
  end.

Definition clock_readings (t : list Entry) : list Time :=
  flat_map (fun e => reading_of (entry_cmd e) (entry_resp e)) t.




(** A trace of lookups of queues tells nothing of a cancellation. *)
Definition looking_up (c : Cmd) : Prop :=
  match c with
  | QueueRepository_GetQueue _ => True
  | _ => False
  end.

(** A handler with a clock: its state is the time, deleting jobs takes 300
    milliseconds, and nothing else takes time. Its job store lists five
    active jobs and finds every job, on the queue of the example. *)
Definition ticking : Handler Time :=
  fun c now =>
    match c as c0 return Resp c0 * Time with
    | JobRepository_GetActiveJobIds _ _ => (inl ["a"; "b"; "c"; "d"; "e"], now)
    | JobRepository_GetExistingJobsByIds ids =>
        (inl (map (fun id =>
                     {| Job_Id := id;
                        Job_ClientId := EmptyString;
                        Job_Queue := "q1";
                        Job_JobSetId := "js1";
                        Job_Namespace := "default";
                        Job_Labels := ∅;
                        Job_Annotations := ∅;
                        Job_RequiredNodeLabels := ∅;
                        Job_Ingress := [];
                        Job_Services := [];
                        Job_Priority := 1%float;
                        Job_PodSpec := None;
                        Job_PodSpecs := [];
                        Job_Created := 0;
                        Job_Owner := "alice";
                        Job_QueueOwnershipUserGroups := [] |}) ids), now)
    | QueueRepository_GetQueue _ => (inl example_queue, now)
    | JobRepository_DeleteJobs jobs =>
        (inl (map (fun job => (job, None)) jobs), now + 300000000)
    | time_Now => (now, now)
    | c0 => (steady c0, now)
    end.

(** [root], with a deadline a second and a half after time [0]. *)
Definition ctx_root_in_a_hurry : Context :=
  {| ctx_principal := ctx_principal ctx_root; ctx_deadline := Some 1500000000 |}.

(* ===================================================================== *)
(** * More of the code: validators of request items, queue management *)
(* ===================================================================== *)

(** ** The validators of package validation *)

(** The errors of the validator [JobSubmitRequestItem]: one constructor for
    each message that the source formats, with the arguments of the format
    where there are any. *)
Inductive ItemFault :=
| FaultBothPodSpecs
| FaultNoPodSpec
| FaultPodSpec (j : nat) (podSpec : PodSpec) (err : foreign_error)
| FaultIngress (err : error).

(** A [JobSubmitRequestItemFn] is given a pointer to an item, which it may
    update, and returns an error: it is a function from the item to the item
    as it leaves it and to the error, if any. *)
Definition JobSubmitRequestItemFn : Type :=
  JobSubmitRequestItem -> JobSubmitRequestItem * option ItemFault.

(** An item whose pod specifications have been updated in place: the
    fields of the item after the update of the pod specifications that
    [GetAllPodSpecs] gives. *)
Definition withPodSpecs (item : JobSubmitRequestItem) (podSpecs : list PodSpec)
    : JobSubmitRequestItem :=
  {| Item_Priority := Item_Priority item;
     Item_Namespace := Item_Namespace item;
     Item_ClientId := Item_ClientId item;
     Item_Labels := Item_Labels item;
     Item_Annotations := Item_Annotations item;
     Item_RequiredNodeLabels := Item_RequiredNodeLabels item;
     Item_PodSpec := updatedPodSpec item podSpecs;
     Item_PodSpecs := updatedPodSpecs item podSpecs;
     Item_Ingress := Item_Ingress item;
     Item_Services := Item_Services item |}.

Section item_validation.

(** [validation.ValidatePodSpec] with a bound on the size of a pod is not
    part of the sources: the validators take it as a parameter. *)
Variable ValidatePodSpec : PodSpec -> N -> option foreign_error.

(** The loop of the validator over the pod specifications, from index [j]
    on. *)
Fixpoint validatePodSpecs (maxPodSize : N) (j : nat) (podSpecs : list PodSpec)
    : option ItemFault :=
  match podSpecs with
  | [] => None
  | podSpec :: rest =>
      match ValidatePodSpec podSpec maxPodSize with
      | Some err => Some (FaultPodSpec j podSpec err)
      | None => validatePodSpecs maxPodSize (S j) rest
      end
  end.

(** The validator that [validation.JobSubmitRequestItem maxPodSize] returns. *)
Definition validation_JobSubmitRequestItem (maxPodSize : N) : JobSubmitRequestItemFn :=
  fun item =>
    (item,
     if bool_decide (is_Some (Item_PodSpec item))
        && bool_decide (0 < length (Item_PodSpecs item))%nat
     then Some FaultBothPodSpecs
     else if bool_decide (length (GetAllPodSpecs item) = 0%nat)
     then Some FaultNoPodSpec
     else
       match validatePodSpecs maxPodSize 0 (GetAllPodSpecs item) with
       | Some fault => Some fault
       | None => FaultIngress <$> validateIngressConfigs item
       end).

(** [validate.ApplyDefaultPodSpec update]: every pod specification of the
    item is updated, and the item is then validated. *)
Definition ApplyDefaultPodSpec (validate : JobSubmitRequestItemFn) (update : PodSpec -> PodSpec)
    : JobSubmitRequestItemFn :=
  fun item => validate (withPodSpecs item (map update (GetAllPodSpecs item))).

End item_validation.

(** ** Queue management *)

(** The message [Queue] of the API, in which the kind of a subject and a
    verb are strings. *)
Record api_Subject := {
  api_Subject_Kind : string;
  api_Subject_Name : string
}.

Record api_Permissions := {
  api_Permissions_Subjects : list api_Subject;
  api_Permissions_Verbs : list string
}.

Record api_Queue := {
  api_Queue_Name : string;
  api_Queue_PriorityFactor : float;
  api_Queue_UserOwners : list string;
  api_Queue_GroupOwners : list string;
  api_Queue_ResourceLimits : gmap string float;
  api_Queue_Permissions : list api_Permissions
}.

(** [errors.As] with a target of type [*repository.ErrQueueAlreadyExists],
    on an error of the queue registry. *)
Fixpoint errors_As_ErrQueueAlreadyExists (err : foreign_error) : option string :=
  match err with
  | ErrQueueAlreadyExists name => Some name
  | ErrWrapping _ inner => errors_As_ErrQueueAlreadyExists inner
  | _ => None
  end.

(** The request of [CreateQueue] once the user owners are defaulted: a
    request that names no user owner gets the caller as its user owner. *)
Definition withDefaultOwner (ctx : Context) (request : api_Queue) : api_Queue :=
  if bool_decide (length (api_Queue_UserOwners request) = 0%nat)
  then
    let principal := GetPrincipal ctx in
    {| api_Queue_Name := api_Queue_Name request;
       api_Queue_PriorityFactor := api_Queue_PriorityFactor request;
       api_Queue_UserOwners := [GetName principal];
       api_Queue_GroupOwners := api_Queue_GroupOwners request;
       api_Queue_ResourceLimits := api_Queue_ResourceLimits request;
       api_Queue_Permissions := api_Queue_Permissions request |}
  else request.

Section queue_management.

(** [queue.NewQueue], which validates a queue of the API and converts it,
    is not part of the sources: [CreateQueue] takes it as a parameter. *)
Variable NewQueue : api_Queue -> Queue + foreign_error.

Definition CreateQueue (server : SubmitServer) (ctx : Context) (request : api_Queue)
    : Prog (option unit * option Status) :=
  let err := checkPermission (server_permissions server) ctx permissions.CreateQueue in
  match err with
  | Some err =>
      match errors_As_ErrNoPermission err with
      | Some ep =>
          mret (None, Some (status_Errorf PermissionDenied "[CreateQueue] error creating queue %s: %s"
                                          [ArgString (api_Queue_Name request); ArgNoPermission ep]))
      | None =>
          mret (None, Some (status_Errorf Unavailable "[CreateQueue] error checking permissions: %s"
                                          [ArgError (Some err)]))
      end
  | None =>
      let request := withDefaultOwner ctx request in
      match NewQueue request with
      | inr err =>
          mret (None, Some (status_Errorf InvalidArgument "[CreateQueue] error validating queue: %s"
                                          [ArgError (Some (ErrForeign err))]))
      | inl queue =>
          err ← call (QueueRepository_CreateQueue queue);
          match err with
          | Some err =>
              match errors_As_ErrQueueAlreadyExists err with
              | Some _ =>
                  mret (None, Some (status_Errorf AlreadyExists "[CreateQueue] error creating queue: %s"
                                                  [ArgError (Some (ErrForeign err))]))
              | None =>
                  mret (None, Some (status_Errorf Unavailable "[CreateQueue] error creating queue: %s"
                                                  [ArgError (Some (ErrForeign err))]))
              end
          | None => mret (Some tt, None)
          end
      end
  end.

End queue_management.

(** ** Example data for the validators *)

(** An ingress configuration for some ports, and the item of the example
    with some ingress configurations. *)
Definition ingress_on (ports : list Z) : IngressConfig :=
  {| Ingress_Ports := ports;
     Ingress_Annotations := ∅;
     Ingress_TlsEnabled := false;
     Ingress_CertName := EmptyString;
     Ingress_UseClusterIP := false |}.

Definition example_item_with_ingress (configs : list IngressConfig) : JobSubmitRequestItem :=
  {| Item_Priority := Item_Priority example_item;
     Item_Namespace := Item_Namespace example_item;
     Item_ClientId := Item_ClientId example_item;
     Item_Labels := Item_Labels example_item;
     Item_Annotations := Item_Annotations example_item;
     Item_RequiredNodeLabels := Item_RequiredNodeLabels example_item;
     Item_PodSpec := Item_PodSpec example_item;
     Item_PodSpecs := Item_PodSpecs example_item;
     Item_Ingress := configs;
     Item_Services := Item_Services example_item |}.

(** A list holds an element twice. *)
Definition listed_twice (port : Z) (ports : list Z) : Prop :=
  exists before between after, ports = before ++ port :: between ++ port :: after.

(** Every entry of the port set of [validateIngressConfigs] maps a port to
    the index, not above [index], of an ingress configuration of [configs]
    that lists the port; the ports of the configuration at [index] itself
    that have an entry are among [seen]. *)
Definition indexes_ports (configs : list IngressConfig) (index : Z) (seen : list Z)
    (existingPortSet : gmap Z Z) : Prop :=
  forall port existingIndex,
    existingPortSet !! port = Some existingIndex ->
    0 <= existingIndex <= index
    /\ (exists config,
          configs !! Z.to_nat existingIndex = Some config /\ port ∈ Ingress_Ports config)
    /\ (existingIndex = index -> port ∈ seen).

(* ===================================================================== *)
(** * More vocabulary: traces with their answers *)
(* ===================================================================== *)

(** A call with its answer. *)
Definition answered (c : Cmd) (r : Resp c) : Entry := {| entry_cmd := c; entry_resp := r |}.

(** [traced R p]: whatever the answers to its calls, the trace [t] of the
    calls of [p] with their answers and the value [a] that [p] returns
    ([None] for a panic) satisfy [R t a]. *)
Fixpoint traced {A : Type} (R : list Entry -> option A -> Prop) (p : Prog A) : Prop :=
  match p with
  | Ret a => R [] (Some a)
  | Panic => R [] None
  | Call c k => forall r : Resp c, traced (fun t a => R (answered c r :: t) a) (k r)
  end.

(** The ids that the id generator gave. *)
Definition minting_of (c : Cmd) : Resp c -> list string :=
  match c return Resp c -> list string with
  | util_NewULID => fun id => [id]
  | _ => fun _ => []
  end.

Definition minted (t : list Entry) : list string :=
  flat_map (fun e => minting_of (entry_cmd e) (entry_resp e)) t.

(** What a job keeps of its item besides what [created_from] tells: the
    namespace of a job is the one of the item, or [default] when the item
    names none. *)
Definition copied_from (item : JobSubmitRequestItem) (job : Job) : Prop :=
  Job_ClientId job = Item_ClientId item
  /\ Job_Namespace job
     = (if bool_decide (Item_Namespace item = EmptyString) then "default" else Item_Namespace item)
  /\ Job_Priority job = Item_Priority item
  /\ Job_RequiredNodeLabels job = Item_RequiredNodeLabels item
  /\ Job_Ingress job = Item_Ingress item
  /\ Job_Services job = Item_Services item.

(** The calls with which [SubmitJobs] prepares a submission: it resolves
    the queue and creates the job objects. *)
Definition preparing (c : Cmd) : Prop :=
  match c with
  | QueueRepository_GetQueue _ | QueueRepository_CreateQueue _ => True
  | validation_ValidatePodSpec _ _ | util_NewULID | time_Now => True
  | _ => False
  end.

(** The stages of a submission once the jobs are created, in the order of
    [SubmitJobs]: the scheduling information, the check that the jobs can be
    scheduled, the submitted events, the write to the job store, and the
    failed, duplicate and queued events. *)
Definition stages (jobs : list Job) (info : gmap string ClusterSchedulingInfoReport)
    (failures : list jobFailure) (duplicates : list SubmitJobResult) (created : list Job)
    : list Cmd :=
  [ SchedulingInfoRepository_GetClusterSchedulingInfo;
    validateJobsCanBeScheduled jobs info;
    reportSubmitted jobs;
    JobRepository_AddJobs jobs;
    reportFailed EmptyString failures;
    reportDuplicateDetected duplicates;
    reportQueued created ].

(** The item of the response for one result of the job store. *)
Definition response_of (submissionResult : SubmitJobResult) : JobSubmitResponseItem :=
  {| ResponseItem_JobId := SubmitJobResult_JobId submissionResult;
     ResponseItem_Error := ErrForeign <$> SubmitJobResult_Error submissionResult |}.

(** The three classes of the results of the job store: saved with an
    error, found to be a duplicate, and created. *)
Definition failed_result (submissionResult : SubmitJobResult) : Prop :=
  is_Some (SubmitJobResult_Error submissionResult).

Definition duplicate_result (submissionResult : SubmitJobResult) : Prop :=
  SubmitJobResult_Error submissionResult = None
  /\ SubmitJobResult_DuplicateDetected submissionResult = true.

Definition created_result (submissionResult : SubmitJobResult) : Prop :=
  SubmitJobResult_Error submissionResult = None
  /\ SubmitJobResult_DuplicateDetected submissionResult = false.

#[global] Instance failed_result_dec (r : SubmitJobResult) : Decision (failed_result r).
Proof. unfold failed_result. apply _. Defined.

#[global] Instance duplicate_result_dec (r : SubmitJobResult) : Decision (duplicate_result r).
Proof. unfold duplicate_result. apply _. Defined.

#[global] Instance created_result_dec (r : SubmitJobResult) : Decision (created_result r).
Proof. unfold created_result. apply _. Defined.

(** The calls of the loop of [createJobsObjects] over the pod
    specifications of an item: validations only. *)
Definition validating (c : Cmd) : Prop :=
  match c with
  | validation_ValidatePodSpec _ _ => True
  | _ => False
  end.

(** The outcome with which the loop of [SubmitJobs] over the results of the
    job store starts. *)
Definition no_outcome : SubmissionOutcome :=
  {| outcome_responses := []; outcome_createdJobs := [];
     outcome_jobFailures := []; outcome_doubleSubmits := [] |}.

(** The calls of a submission up to the write of the jobs that the job
    store accepts, with their answers. *)
Definition stored_as (jobs : list Job) (info : gmap string ClusterSchedulingInfoReport)
    (submissionResults : list SubmitJobResult) : list Entry :=
  [ answered SchedulingInfoRepository_GetClusterSchedulingInfo (inl info);
    answered (validateJobsCanBeScheduled jobs info) None;
    answered (reportSubmitted jobs) None;
    answered (JobRepository_AddJobs jobs) (inl submissionResults) ].

(** The reports that follow the write, and the error with which the
    operation returns after them: the first report that fails ends the
    operation with [Internal]; when none fails, the operation returns
    [Internal] if a job failed to be saved, and no error otherwise. *)
Inductive reports (out : SubmissionOutcome) : list Entry -> option Status -> Prop :=
| reports_failed_fails err st :
    Status_Code st = Internal ->
    reports out [ answered (reportFailed EmptyString (outcome_jobFailures out)) (Some err) ]
            (Some st)
| reports_duplicates_fails err st :
    Status_Code st = Internal ->
    reports out [ answered (reportFailed EmptyString (outcome_jobFailures out)) None;
                  answered (reportDuplicateDetected (outcome_doubleSubmits out)) (Some err) ]
            (Some st)
| reports_queued_fails err st :
    Status_Code st = Internal ->
    reports out [ answered (reportFailed EmptyString (outcome_jobFailures out)) None;
                  answered (reportDuplicateDetected (outcome_doubleSubmits out)) None;
                  answered (reportQueued (outcome_createdJobs out)) (Some err) ]
            (Some st)
| reports_some_failed st :
    Status_Code st = Internal ->
    outcome_jobFailures out <> [] ->
    reports out [ answered (reportFailed EmptyString (outcome_jobFailures out)) None;
                  answered (reportDuplicateDetected (outcome_doubleSubmits out)) None;
                  answered (reportQueued (outcome_createdJobs out)) None ]
            (Some st)
| reports_done :
    outcome_jobFailures out = [] ->
    reports out [ answered (reportFailed EmptyString (outcome_jobFailures out)) None;
                  answered (reportDuplicateDetected (outcome_doubleSubmits out)) None;
                  answered (reportQueued (outcome_createdJobs out)) None ]
            None.

(** The courses that [SubmitJobs] can take once the jobs are created: the
    calls with their answers, and what the operation returns ([None] for a
    panic). *)
Inductive submission (jobs : list Job)
    : list Entry -> option (option JobSubmitResponse * option Status) -> Prop :=
| submission_without_info err st :
    Status_Code st = InvalidArgument ->
    submission jobs
      [ answered SchedulingInfoRepository_GetClusterSchedulingInfo (inr err) ]
      (Some (None, Some st))
| submission_infeasible info err st :
    Status_Code st = InvalidArgument ->
    submission jobs
      [ answered SchedulingInfoRepository_GetClusterSchedulingInfo (inl info);
        answered (validateJobsCanBeScheduled jobs info) (Some err) ]
      (Some (None, Some st))
| submission_unreported info err st :
    Status_Code st = Aborted ->
    submission jobs
      [ answered SchedulingInfoRepository_GetClusterSchedulingInfo (inl info);
        answered (validateJobsCanBeScheduled jobs info) None;
        answered (reportSubmitted jobs) (Some err) ]
      (Some (None, Some st))
| submission_refused info err failures reported st :
    map jobFailure_job failures = jobs ->
    Status_Code st = (if reported is Some _ then Internal else Aborted) ->
    submission jobs
      [ answered SchedulingInfoRepository_GetClusterSchedulingInfo (inl info);
        answered (validateJobsCanBeScheduled jobs info) None;
        answered (reportSubmitted jobs) None;
        answered (JobRepository_AddJobs jobs) (inr err);
        answered (reportFailed EmptyString failures) reported ]
      (Some (None, Some st))
| submission_panics info submissionResults :
    partitionResults jobs 0 submissionResults no_outcome = None ->
    submission jobs (stored_as jobs info submissionResults) None
| submission_stored info submissionResults out t err :
    partitionResults jobs 0 submissionResults no_outcome = Some out ->
    reports out t err ->
    submission jobs (stored_as jobs info submissionResults ++ t)
               (Some (Some {| JobResponseItems := outcome_responses out |}, err)).

(** The writes to the job store in a trace: the jobs handed to [AddJobs],
    each with the answer of the job store. *)
Definition store_answer_of (c : Cmd)
    : Resp c -> list (list Job * (list SubmitJobResult + foreign_error)) :=
  match c return Resp c -> list (list Job * (list SubmitJobResult + foreign_error)) with
  | JobRepository_AddJobs jobs => fun r => [(jobs, r)]
  | _ => fun _ => []
  end.

Definition store_answers (t : list Entry)
    : list (list Job * (list SubmitJobResult + foreign_error)) :=
  flat_map (fun e => store_answer_of (entry_cmd e) (entry_resp e)) t.

(** The reports of [SubmitJobs] that follow the write to the job store. *)
Definition reporting (c : Cmd) : Prop :=
  match c with
  | reportFailed _ _ | reportDuplicateDetected _ | reportQueued _ => True
  | _ => False
  end.

(** The reports that follow the write, each with the answer of the event
    sink, in the order of the trace. *)
Definition report_of (c : Cmd) : Resp c -> list (Cmd * option foreign_error) :=
  match c as c0 return Resp c0 -> list (Cmd * option foreign_error) with
  | reportFailed clusterId failures => fun err => [(reportFailed clusterId failures, err)]
  | reportDuplicateDetected results => fun err => [(reportDuplicateDetected results, err)]
  | reportQueued jobs => fun err => [(reportQueued jobs, err)]
  | _ => fun _ => []
  end.

Definition reported (t : list Entry) : list (Cmd * option foreign_error) :=
  flat_map (fun e => report_of (entry_cmd e) (entry_resp e)) t.

(** ** Example data for submissions *)

(** A request of three items, and handlers like [steady_handler] whose job
    store answers a write in other ways: by position, with an error for the
    first job, a duplicate for the second and a creation for the others; with
    a refusal of the whole write; and with one result more than there are
    jobs. *)
Definition example_request3 : JobSubmitRequest :=
  {| Req_Queue := "q1"; Req_JobSetId := "js1";
     Req_JobRequestItems := [example_item; example_item; example_item] |}.

Definition mixed_results (jobs : list Job) : list SubmitJobResult :=
  imap (fun i job =>
          {| SubmitJobResult_JobId := Job_Id job;
             SubmitJobResult_SubmittedJob := Some job;
             SubmitJobResult_DuplicateDetected := bool_decide (i = 1%nat);
             SubmitJobResult_Error :=
               if bool_decide (i = 0%nat) then Some (ErrOpaque "write failed") else None |})
       jobs.

Definition mixed_store (c : Cmd) : Resp c :=
  match c as c0 return Resp c0 with
  | JobRepository_AddJobs jobs => inl (mixed_results jobs)
  | c0 => steady c0
  end.

Definition mixed_store_handler : Handler unit := fun c s => (mixed_store c, s).

Definition refusing_store (c : Cmd) : Resp c :=
  match c as c0 return Resp c0 with
  | JobRepository_AddJobs _ => inr (ErrOpaque "job store unavailable")
  | c0 => steady c0
  end.

Definition refusing_store_handler : Handler unit := fun c s => (refusing_store c, s).

Definition overflowing_store (c : Cmd) : Resp c :=
  match c as c0 return Resp c0 with
  | JobRepository_AddJobs jobs => inl (mixed_results (jobs ++ jobs))
  | c0 => steady c0
  end.

Definition overflowing_store_handler : Handler unit := fun c s => (overflowing_store c, s).

(** The submission of the three items by [root], with the store that
    answers by position: what is returned, and what was written. *)
Definition submission_of_three : option (option JobSubmitResponse * option Status) * unit * list Entry :=
  run mixed_store_handler (SubmitJobs example_server ctx_root example_request3) tt.

Definition example_response : JobSubmitResponse :=
  match result_of submission_of_three with
  | Some (Some response, _) => response
  | _ => {| JobResponseItems := [] |}
  end.

Definition example_response_error : option Status :=
  match result_of submission_of_three with
  | Some (_, err) => err
  | None => None
  end.

Definition example_jobs3 : list Job :=
  match store_answers (trace_of submission_of_three) with
  | (jobs, _) :: _ => jobs
  | [] => []
  end.

(** ** Vocabulary for cancellations *)

(** The deletions from the job store in a trace: the jobs handed to
    [DeleteJobs], each with the answer of the job store. *)
Definition deletion_of (c : Cmd)
    : Resp c -> list (list Job * (list (Job * option foreign_error) + foreign_error)) :=
  match c return Resp c -> list (list Job * (list (Job * option foreign_error) + foreign_error)) with
  | JobRepository_DeleteJobs jobs => fun r => [(jobs, r)]
  | _ => fun _ => []
  end.

Definition deletions (t : list Entry)
    : list (list Job * (list (Job * option foreign_error) + foreign_error)) :=
  flat_map (fun e => deletion_of (entry_cmd e) (entry_resp e)) t.

(** The courses that [cancelJobs] can take once the permissions are
    checked, for the principal of name [name]: the calls with their answers,
    and what is returned. *)
Inductive cancellation (name : string) (jobs : list Job)
    : list Entry -> option (CancellationResult + error) -> Prop :=
| cancellation_unreported err e :
    cancellation name jobs
      [ answered (reportJobsCancelling name jobs) (Some err) ]
      (Some (inr e))
| cancellation_refused err e :
    cancellation name jobs
      [ answered (reportJobsCancelling name jobs) None;
        answered (JobRepository_DeleteJobs jobs) (inr err) ]
      (Some (inr e))
| cancellation_unconfirmed deletionResult err e :
    cancellation name jobs
      [ answered (reportJobsCancelling name jobs) None;
        answered (JobRepository_DeleteJobs jobs) (inl deletionResult);
        answered (reportJobsCancelled name (deleted_without_error deletionResult)) (Some err) ]
      (Some (inr e))
| cancellation_done deletionResult :
    cancellation name jobs
      [ answered (reportJobsCancelling name jobs) None;
        answered (JobRepository_DeleteJobs jobs) (inl deletionResult);
        answered (reportJobsCancelled name (deleted_without_error deletionResult)) None ]
      (Some (inl {| CancelledIds := map Job_Id (deleted_without_error deletionResult) |})).

(** A deletion result in which the job store failed to delete the second of
    three jobs, and a handler like [stocked_handler] whose job store finds
    three jobs and answers a deletion in that way. *)
Definition example_job_of (id : string) : Job :=
  {| Job_Id := id;
     Job_ClientId := Job_ClientId example_job;
     Job_Queue := Job_Queue example_job;
     Job_JobSetId := Job_JobSetId example_job;
     Job_Namespace := Job_Namespace example_job;
     Job_Labels := Job_Labels example_job;
     Job_Annotations := Job_Annotations example_job;
     Job_RequiredNodeLabels := Job_RequiredNodeLabels example_job;
     Job_Ingress := Job_Ingress example_job;
     Job_Services := Job_Services example_job;
     Job_Priority := Job_Priority example_job;
     Job_PodSpec := Job_PodSpec example_job;
     Job_PodSpecs := Job_PodSpecs example_job;
     Job_Created := Job_Created example_job;
     Job_Owner := Job_Owner example_job;
     Job_QueueOwnershipUserGroups := Job_QueueOwnershipUserGroups example_job |}.


Definition example_jobs_abc : list Job :=
  [example_job_of "a"; example_job_of "b"; example_job_of "c"].

Definition partial_deletion (jobs : list Job) : list (Job * option foreign_error) :=
  imap (fun i job =>
          (job, if bool_decide (i = 1%nat) then Some (ErrOpaque "job is leased") else None))
       jobs.

Definition partly_deleting (c : Cmd) : Resp c :=
  match c as c0 return Resp c0 with
  | JobRepository_DeleteJobs jobs => inl (partial_deletion jobs)
  | c0 => stocked c0
  end.

Definition partly_deleting_handler : Handler unit := fun c s => (partly_deleting c, s).




(** The answers of the job store to the listing of the active job sets of a
    queue, in a trace. *)
Definition listing_of (c : Cmd) : Resp c -> list (list JobSetInfo + foreign_error) :=
  match c return Resp c -> list (list JobSetInfo + foreign_error) with
  | JobRepository_GetQueueActiveJobSets _ => fun r => [r]
  | _ => fun _ => []
  end.

Definition listings (t : list Entry) : list (list JobSetInfo + foreign_error) :=
  flat_map (fun e => listing_of (entry_cmd e) (entry_resp e)) t.

(** ** Vocabulary for the defaulting of pod specifications *)

(** What [createJobsObjects] makes of a container of a pod specification:
    it fills the requests and limits, and then applies the defaults. *)
Definition preparedContainer (server : SubmitServer) (c : Container) : Container :=
  applyDefaultsToContainer server (fillContainer c).

(** The value of a resource of a prepared container: the value that the
    client gave for it, else the value that the client gave for the other
    kind, else the default, if any. *)
Definition prepared_value (own other defaults : gmap string Quantity) (res : string)
    : option Quantity :=
  match own !! res, other !! res with
  | Some v, _ => Some v
  | None, Some v => Some v
  | None, None => defaults !! res
  end.

(** What the loop of [createJobsObjects] makes of a pod specification of
    an item: the containers are filled, the defaults are applied, and, once
    the pod specification is validated, the required node labels of the item
    are merged into the node selector. *)
Definition preparedPodSpec (server : SubmitServer) (item : JobSubmitRequestItem)
    (podSpec : PodSpec) : PodSpec :=
  mergeRequiredNodeLabels (Item_RequiredNodeLabels item)
    (applyDefaultsToPodSpec server
       {| Containers := fillContainerRequestsAndLimits (Containers podSpec);
          Tolerations := Tolerations podSpec;
          NodeSelector := NodeSelector podSpec |}).

(** The pod specifications that a job carries, in the field [PodSpec] or in
    the field [PodSpecs]. *)
Definition carries (job : Job) (podSpec : PodSpec) : Prop :=
  Job_PodSpec job = Some podSpec \/ podSpec ∈ Job_PodSpecs job.

(** ** Vocabulary for the cancellation of a job set *)

(** The ids of the jobs whose cancellation was confirmed: the jobs of the
    cancelled events that were reported without error. *)
Definition confirmation_of (c : Cmd) : Resp c -> list string :=
  match c return Resp c -> list string with
  | reportJobsCancelled _ cancelled =>
      fun err => match err with
                 | None => map Job_Id cancelled
                 | Some _ => []
                 end
  | _ => fun _ => []
  end.

Definition confirmed (t : list Entry) : list string :=
  flat_map (fun e => confirmation_of (entry_cmd e) (entry_resp e)) t.

(** ** Vocabulary for the two tiers in the operations on jobs *)








(* ===================================================================== *)
(** * Properties: requests and limits of a container *)
(* ===================================================================== *)

Section fill.

Implicit Types (src dst : gmap string Quantity) (r : string).

(** The loop "for every entry of [src] that [dst] lacks, copy it into
    [dst]" leaves [dst] with its own entries, completed by those of [src]. *)
Lemma copy_missing_lookup src dst r :
  map_fold (fun k v (acc : gmap string Quantity) =>
              match acc !! k with
              | Some _ => acc
              | None => <[k := v]> acc
              end) dst src !! r
  = match dst !! r with
    | Some v => Some v
    | None => src !! r
    end.
Proof.
  revert r.
  apply (map_fold_weak_ind
           (fun (acc : gmap string Quantity) (m : gmap string Quantity) =>
              forall r, acc !! r = match dst !! r with Some v => Some v | None => m !! r end)).
  - intros r. rewrite lookup_empty. by destruct (dst !! r).
  - intros k v m acc Hk IH r.
    destruct (decide (k = r)) as [->|Hne].
    + rewrite lookup_insert_eq.
      destruct (acc !! r) as [w|] eqn:Hacc.
      * rewrite Hacc. rewrite IH in Hacc. rewrite Hk in Hacc.
        destruct (dst !! r); congruence.
      * rewrite lookup_insert_eq. rewrite IH in Hacc.
        destruct (dst !! r); congruence.
    + rewrite (lookup_insert_ne m) by done.
      destruct (acc !! k); [apply IH|].
      rewrite lookup_insert_ne by done. apply IH.
Qed.

Lemma fillContainer_Requests (c : Container) r :
  exists requests,
    Requests (Container_Resources (fillContainer c)) = Some requests
    /\ requests !! r
       = match default ∅ (Requests (Container_Resources c)) !! r with
         | Some v => Some v
         | None => default ∅ (Limits (Container_Resources c)) !! r
         end.
Proof.
  eexists. split; [reflexivity|]. apply copy_missing_lookup.
Qed.

Lemma fillContainer_Limits (c : Container) r :
  exists limits,
    Limits (Container_Resources (fillContainer c)) = Some limits
    /\ limits !! r
       = match default ∅ (Limits (Container_Resources c)) !! r with
         | Some v => Some v
         | None => default ∅ (Requests (Container_Resources c)) !! r
         end.
Proof.
  eexists. split; [reflexivity|].
  rewrite copy_missing_lookup.
  destruct (default ∅ (Limits (Container_Resources c)) !! r) eqn:Hl; [done|].
  rewrite copy_missing_lookup. rewrite Hl.
  by destruct (default ∅ (Requests (Container_Resources c)) !! r).
Qed.

End fill.

Lemma fillContainer_filled (c : Container) : filled c (fillContainer c).
Proof.
  split; [reflexivity|].
  destruct (fillContainer_Limits c "") as [limits [HL _]].
  destruct (fillContainer_Requests c "") as [requests [HR _]].
  exists limits, requests. split; [done|]. split; [done|].
  intros r.
  destruct (fillContainer_Limits c r) as [limits' [HL' Hl]].
  destruct (fillContainer_Requests c r) as [requests' [HR' Hr]].
  assert (limits' = limits) as -> by congruence.
  assert (requests' = requests) as -> by congruence.
  rewrite Hl, Hr.
  destruct (default ∅ (Limits (Container_Resources c)) !! r) as [vl|];
    destruct (default ∅ (Requests (Container_Resources c)) !! r) as [vr|];
    repeat split; intros; simplify_eq; eauto; by apply is_Some_None in H.
Qed.

(** C3. After [fillContainerRequestsAndLimits], every container has requests
    and limits over the same resources: a resource that had only a limit has
    got a request equal to the limit, a resource that had only a request
    has got a limit equal to the request, a resource that had both keeps
    both values, and a resource that had neither has neither. *)
Theorem fillContainerRequestsAndLimits_symmetric (containers : list Container) :
  Forall2 filled containers (fillContainerRequestsAndLimits containers).
Proof.
  unfold fillContainerRequestsAndLimits.
  induction containers as [|c containers IH]; simpl.
  - constructor.
  - constructor; [apply fillContainer_filled | exact IH].
Qed.

(* ===================================================================== *)
(** * Properties: defaults from the scheduling configuration *)
(* ===================================================================== *)

(** What the loop of [applyDefaultsToPodSpec] over the default job limits
    makes of the requests and limits of a container: a default is applied to
    a resource, to its request and to its limit, exactly when the container
    has no limit for the resource. *)
Lemma applyDefaults_loop_lookup (defaults requests0 limits0 : gmap string Quantity) (r : string) :
  let result :=
    map_fold (fun res val (acc : gmap string Quantity * gmap string Quantity) =>
                let '(requests, limits) := acc in
                let hasLimit := bool_decide (is_Some (limits !! res)) in
                let hasRequest := bool_decide (is_Some (limits !! res)) in
                if negb hasLimit && negb hasRequest
                then (<[res := val]> requests, <[res := val]> limits)
                else (requests, limits))
             (requests0, limits0) defaults in
  result.1 !! r
  = match limits0 !! r, defaults !! r with
    | None, Some d => Some d
    | _, _ => requests0 !! r
    end
  /\ result.2 !! r
     = match limits0 !! r, defaults !! r with
       | None, Some d => Some d
       | _, _ => limits0 !! r
       end.
Proof.
  cbv zeta. revert r.
  apply (map_fold_weak_ind
           (fun (acc : gmap string Quantity * gmap string Quantity) (m : gmap string Quantity) =>
              forall r,
                acc.1 !! r = match limits0 !! r, m !! r with
                             | None, Some d => Some d
                             | _, _ => requests0 !! r
                             end
                /\ acc.2 !! r = match limits0 !! r, m !! r with
                                | None, Some d => Some d
                                | _, _ => limits0 !! r
                                end)).
  - intros r. rewrite lookup_empty. simpl. by destruct (limits0 !! r).
  - intros k v m [requests limits] Hk IH r. simpl in IH.
    destruct (IH k) as [_ Hlk]. rewrite Hk in Hlk.
    assert (limits !! k = limits0 !! k) as Hl by (rewrite Hlk; by destruct (limits0 !! k)).
    destruct (IH r) as [Hrr Hlr].
    destruct (decide (k = r)) as [->|Hne].
    + rewrite (lookup_insert_eq m). rewrite Hl.
      rewrite Hk in Hrr, Hlr.
      destruct (limits0 !! r) as [w|] eqn:H0; simpl.
      * by rewrite Hrr, Hlr.
      * by rewrite !lookup_insert_eq.
    + rewrite (lookup_insert_ne m) by done.
      destruct (bool_decide (is_Some (limits !! k))); simpl.
      * by rewrite Hrr, Hlr.
      * rewrite !lookup_insert_ne by done. by rewrite Hrr, Hlr.
Qed.

(** The defaulting step on a container that has a request exactly where
    it has a limit. *)
Lemma applyDefaultsToContainer_defaulted (server : SubmitServer) (c : Container) :
  balanced c ->
  defaulted (DefaultJobLimits (schedulingConfig server)) c (applyDefaultsToContainer server c).
Proof.
  intros Hbalanced. unfold defaulted, applyDefaultsToContainer. cbv zeta.
  pose proof (applyDefaults_loop_lookup
                (DefaultJobLimits (schedulingConfig server))
                (default ∅ (Requests (Container_Resources c)))
                (default ∅ (Limits (Container_Resources c)))) as Hloop.
  cbv zeta in Hloop.
  destruct (map_fold _ _ _) as [requests limits]. simpl in Hloop.
  split; [reflexivity|]. exists limits, requests. do 2 (split; [reflexivity|]).
  intros res. destruct (Hloop res) as [-> ->]. specialize (Hbalanced res).
  destruct (default ∅ (Limits (Container_Resources c)) !! res) as [limit|] eqn:Hlimit;
    destruct (default ∅ (Requests (Container_Resources c)) !! res) as [request|] eqn:Hrequest.
  - split; [done|]. by intros _.
  - destruct Hbalanced as [_ H]. by destruct H.
  - destruct Hbalanced as [H _]. by destruct H.
  - split.
    + intros _ _. by destruct (DefaultJobLimits (schedulingConfig server) !! res).
    + intros [[? [=]]|[? [=]]].
Qed.

Lemma fillContainer_balanced (c : Container) : balanced (fillContainer c).
Proof.
  destruct (fillContainer_filled c) as [_ (limits & requests & HL & HR & Hsame)].
  intros res. rewrite HL, HR. apply Hsame.
Qed.

(** C4. When the policy-defaulting step runs, [createJobsObjects], its only
    caller, has just filled the requests and limits of the containers, so
    that every container has a request exactly where it has a limit. On
    every such container, and so on every container that reaches it, the
    step sets both the request and the limit of a resource to the default,
    for every resource with a default for which the container has neither a
    request nor a limit; a resource for which the container has a request or
    a limit is left as it is, and so is a resource without a default. *)
Theorem applyDefaultsToPodSpec_defaults (server : SubmitServer) :
  (forall spec : PodSpec,
      Forall balanced (Containers spec) ->
      Forall2 (defaulted (DefaultJobLimits (schedulingConfig server)))
              (Containers spec) (Containers (applyDefaultsToPodSpec server spec)))
  /\ (forall containers : list Container,
        Forall balanced (fillContainerRequestsAndLimits containers))
  /\ (forall spec : PodSpec,
        let filledSpec :=
          {| Containers := fillContainerRequestsAndLimits (Containers spec);
             Tolerations := Tolerations spec;
             NodeSelector := NodeSelector spec |} in
        Forall2 (defaulted (DefaultJobLimits (schedulingConfig server)))
                (Containers filledSpec) (Containers (applyDefaultsToPodSpec server filledSpec))).
Proof.
  assert (forall containers : list Container,
             Forall balanced containers ->
             Forall2 (defaulted (DefaultJobLimits (schedulingConfig server)))
                     containers (map (applyDefaultsToContainer server) containers)) as Hstep.
  { intros containers Hall. induction Hall as [|c containers Hc _ IH]; cbn; constructor.
    - by apply applyDefaultsToContainer_defaulted.
    - exact IH. }
  assert (forall containers : list Container,
             Forall balanced (fillContainerRequestsAndLimits containers)) as Hfilled.
  { intros containers. unfold fillContainerRequestsAndLimits.
    apply Forall_fmap, Forall_true. intros c. apply fillContainer_balanced. }
  split; [|split].
  - intros spec Hall. unfold applyDefaultsToPodSpec. cbn [Containers]. by apply Hstep.
  - exact Hfilled.
  - intros spec filledSpec. subst filledSpec. unfold applyDefaultsToPodSpec. cbn [Containers].
    apply Hstep, Hfilled.
Qed.

(** The step on the containers of the example: the container with a
    request and no limit for memory is filled first, and keeps its
    request. *)
Lemma applyDefaultsToPodSpec_defaults_witness :
  Forall2 (defaulted (DefaultJobLimits (schedulingConfig server_with_memory_default)))
          (fillContainerRequestsAndLimits [container_with_memory_request])
          (Containers
             (applyDefaultsToPodSpec server_with_memory_default
                {| Containers := fillContainerRequestsAndLimits [container_with_memory_request];
                   Tolerations := [];
                   NodeSelector := None |})).
Proof.
  destruct (applyDefaultsToPodSpec_defaults server_with_memory_default) as (Hstep & Hfilled & _).
  apply (Hstep {| Containers := fillContainerRequestsAndLimits [container_with_memory_request];
                  Tolerations := [];
                  NodeSelector := None |}).
  apply Hfilled.
Defined.

(** Called on a container that was not filled, the step would not leave a
    request without a limit as it is: both tests of the loop read the
    limits, so that the request of [2] for memory is overwritten by the
    default [1]. No caller of the sources passes such a container. *)
Example applyDefaultsToPodSpec_overwrites_request :
  let spec :=
    {| Containers := [container_with_memory_request]; Tolerations := []; NodeSelector := None |} in
  Requests (Container_Resources container_with_memory_request) ≫= (.!! "memory") = Some 2
  /\ exists c,
      Containers (applyDefaultsToPodSpec server_with_memory_default spec) = [c]
      /\ Requests (Container_Resources c) ≫= (.!! "memory") = Some 1
      /\ Limits (Container_Resources c) ≫= (.!! "memory") = Some 1.
Proof.
  cbv zeta. split; [reflexivity|].
  eexists. split; [reflexivity|].
  split; vm_compute; reflexivity.
Qed.

(** On the path of [createJobsObjects]: the filled container keeps its
    request of [2] for memory, and its limit is the request. *)
Example createJobsObjects_keeps_request :
  exists c,
    Containers
      (applyDefaultsToPodSpec server_with_memory_default
         {| Containers := fillContainerRequestsAndLimits [container_with_memory_request];
            Tolerations := [];
            NodeSelector := None |}) = [c]
    /\ Requests (Container_Resources c) ≫= (.!! "memory") = Some 2
    /\ Limits (Container_Resources c) ≫= (.!! "memory") = Some 2.
Proof.
  eexists. split; [reflexivity|].
  split; vm_compute; reflexivity.
Qed.

(* ===================================================================== *)
(** * Properties: enrichment of labels and annotations *)
(* ===================================================================== *)

Section replace.

Variables (c0 : ascii) (old' new : string).
Let old := String c0 old'.

Lemma replace_nomatch (a : ascii) (s : string) :
  String.prefix old (String a s) = false ->
  replace_from O old new (String a s) = String a (replace_from O old new s).
Proof. intros H. simpl. subst old. simpl in H. by rewrite H. Qed.

Lemma replace_copy (text rest : string) :
  has_char c0 text = false ->
  replace_from O old new (text +:+ rest) = text +:+ replace_from O old new rest.
Proof.
  induction text as [|a text IH]; intros H; [reflexivity|].
  simpl in H. apply orb_false_elim in H as [Ha Ht].
  apply bool_decide_eq_false in Ha.
  change (String a text +:+ rest) with (String a (text +:+ rest)).
  rewrite replace_nomatch.
  - simpl. by rewrite IH.
  - subst old. simpl. destruct (ascii_dec c0 a); [congruence|done].
Qed.

Lemma replace_skip (a s rest : string) :
  replace_from (String.length a) s new (a +:+ rest) = replace_from O s new rest.
Proof.
  induction a as [|c a IH]; [by destruct rest|].
  simpl. exact IH.
Qed.

Lemma string_prefix_append (a rest : string) : String.prefix a (a +:+ rest) = true.
Proof.
  induction a as [|c a IH]; simpl; [by destruct rest|].
  destruct (ascii_dec c c); [exact IH|done].
Qed.

Lemma replace_match (rest : string) :
  replace_from O old new (old +:+ rest) = new +:+ replace_from O old new rest.
Proof.
  subst old.
  change (String c0 old' +:+ rest) with (String c0 (old' +:+ rest)).
  cbn [replace_from].
  change (String c0 (old' +:+ rest)) with (String c0 old' +:+ rest).
  rewrite string_prefix_append.
  cbn [String.length Nat.pred].
  by rewrite replace_skip.
Qed.

End replace.

Lemma string_prefix_cons (c a : ascii) (s1 s2 : string) :
  String.prefix (String c s1) (String a s2)
  = if ascii_dec c a then String.prefix s1 s2 else false.
Proof. reflexivity. Qed.

Lemma replace_match_sentinel (new rest : string) :
  replace_from O sentinel new (sentinel +:+ rest) = new +:+ replace_from O sentinel new rest.
Proof. exact (replace_match " " _ new rest). Qed.

Lemma string_prefix_split (p v : string) :
  String.prefix p v = true -> exists rest, v = p +:+ rest.
Proof.
  revert v. induction p as [|a p IH]; intros v H; [by exists v|].
  destruct v as [|b v]; [done|].
  rewrite string_prefix_cons in H. destruct (ascii_dec a b) as [->|]; [|done].
  destruct (IH v H) as [rest ->]. by exists rest.
Qed.

Lemma string_length_append (a b : string) :
  String.length (a +:+ b) = (String.length a + String.length b)%nat.
Proof.
  induction a as [|c a IH]; [done|].
  change (String c a +:+ b) with (String c (a +:+ b)). cbn [String.length]. by rewrite IH.
Qed.

Lemma read_skip (jobId a rest : string) :
  read_from (String.length a) jobId (a +:+ rest) = read_from 0 jobId rest.
Proof. induction a as [|c a IH]; [by destruct rest|]. exact IH. Qed.

Lemma read_escape (jobId rest : string) :
  stored_value jobId ("{{JobId}}" +:+ rest) = "JobId" +:+ stored_value jobId rest.
Proof.
  unfold stored_value.
  change ("{{JobId}}" +:+ rest) with (String "{" ("{JobId}}" +:+ rest)).
  cbn [read_from].
  change (String "{" ("{JobId}}" +:+ rest)) with ("{{JobId}}" +:+ rest).
  rewrite string_prefix_append.
  apply (f_equal (String.append "JobId")). exact (read_skip jobId "{JobId}}" rest).
Qed.

Lemma read_placeholder (jobId rest : string) :
  stored_value jobId ("{JobId}" +:+ rest) = jobId +:+ stored_value jobId rest.
Proof.
  unfold stored_value.
  change ("{JobId}" +:+ rest) with (String "{" ("JobId}" +:+ rest)).
  cbn [read_from].
  replace (String.prefix "{{JobId}}" (String "{" ("JobId}" +:+ rest))) with false
    by reflexivity.
  change (String "{" ("JobId}" +:+ rest)) with ("{JobId}" +:+ rest).
  rewrite string_prefix_append.
  apply (f_equal (String.append jobId)). exact (read_skip jobId "JobId}" rest).
Qed.

Lemma read_sentinel (jobId rest : string) :
  stored_value jobId (sentinel +:+ rest) = "JobId" +:+ stored_value jobId rest.
Proof.
  unfold stored_value, sentinel.
  change (String " " (String (ascii_of_nat 92) "z") +:+ rest)
    with (String " " (String (ascii_of_nat 92) "z" +:+ rest)).
  cbn [read_from].
  replace (String.prefix "{{JobId}}" (String " " (String (ascii_of_nat 92) "z" +:+ rest)))
    with false by reflexivity.
  replace (String.prefix "{JobId}" (String " " (String (ascii_of_nat 92) "z" +:+ rest)))
    with false by reflexivity.
  change (String " " (String (ascii_of_nat 92) "z" +:+ rest))
    with (String " " (String (ascii_of_nat 92) "z") +:+ rest).
  rewrite string_prefix_append.
  apply (f_equal (String.append "JobId")).
  exact (read_skip jobId (String (ascii_of_nat 92) "z") rest).
Qed.

Lemma read_copy (jobId : string) (c : ascii) (rest : string) :
  String.prefix "{{JobId}}" (String c rest) = false ->
  String.prefix "{JobId}" (String c rest) = false ->
  String.prefix sentinel (String c rest) = false ->
  stored_value jobId (String c rest) = String c (stored_value jobId rest).
Proof. intros H1 H2 H3. unfold stored_value. cbn [read_from]. by rewrite H1, H2, H3. Qed.

(** A replacement does not show in front of the text a prefix that holds
    neither the first character of what is replaced nor the first character
    of what replaces it. *)
Lemma replace_prefix (c0 n0 : ascii) (old' new' q x : string) :
  has_char c0 q = false ->
  has_char n0 q = false ->
  String.prefix q (replace_from 0 (String c0 old') (String n0 new') x) = String.prefix q x.
Proof.
  revert x. induction q as [|a q IH]; intros x Hc Hn.
  { by destruct (replace_from _ _ _ _), x. }
  cbn [has_char] in Hc, Hn.
  apply orb_false_elim in Hc as [Hc Hcq]. apply orb_false_elim in Hn as [Hn Hnq].
  apply bool_decide_eq_false in Hc, Hn.
  destruct x as [|b x]; [done|].
  cbn [replace_from].
  destruct (String.prefix (String c0 old') (String b x)) eqn:Hmatch.
  - rewrite string_prefix_cons in Hmatch. destruct (ascii_dec c0 b) as [<-|]; [|done].
    change (String n0 new' +:+ ?r) with (String n0 (new' +:+ r)).
    rewrite !string_prefix_cons.
    destruct (ascii_dec a n0); [done|]. by destruct (ascii_dec a c0).
  - rewrite !string_prefix_cons. destruct (ascii_dec a b); [|done]. by apply IH.
Qed.

Section enrich.

Variable jobId : string.
Hypothesis jobId_free : sentinel_free jobId = true.

Lemma jobId_chars :
  exists (j0 : ascii) (j' : string),
    jobId = String j0 j'
    /\ j0 <> " "%char /\ j0 <> backslash /\ j0 <> "z"%char
    /\ has_char " " jobId = false.
Proof.
  unfold sentinel_free in jobId_free.
  apply andb_prop in jobId_free as [H Hz]. apply andb_prop in H as [H Hb].
  apply andb_prop in H as [Hne Hs].
  apply negb_true_iff in Hz, Hb, Hs, Hne. apply bool_decide_eq_false in Hne.
  destruct jobId as [|j0 j']; [done|]. exists j0, j'. split; [done|].
  cbn [has_char] in Hz, Hb, Hs.
  apply orb_false_elim in Hz as [Hz _]. apply orb_false_elim in Hb as [Hb _].
  pose proof Hs as Hs'. apply orb_false_elim in Hs as [Hs _].
  apply bool_decide_eq_false in Hz, Hb, Hs. done.
Qed.

Lemma marked_escape (rest : string) :
  marked jobId ("{{JobId}}" +:+ rest) = sentinel +:+ marked jobId rest.
Proof.
  unfold marked, ReplaceAll.
  rewrite (replace_match "{" "{JobId}}").
  by rewrite (replace_copy "{" "JobId}" jobId sentinel).
Qed.

Lemma marked_placeholder (rest : string) :
  marked jobId ("{JobId}" +:+ rest) = jobId +:+ marked jobId rest.
Proof.
  unfold marked, ReplaceAll.
  change ("{JobId}" +:+ rest) with (String "{" ("JobId}" +:+ rest)).
  rewrite (replace_nomatch "{" "{JobId}}") by reflexivity.
  rewrite (replace_copy "{" "{JobId}}" sentinel "JobId}") by reflexivity.
  change (String "{" ("JobId}" +:+ ?r)) with ("{JobId}" +:+ r).
  by rewrite (replace_match "{" "JobId}").
Qed.

Lemma marked_copy (c : ascii) (rest : string) :
  String.prefix "{{JobId}}" (String c rest) = false ->
  String.prefix "{JobId}" (String c rest) = false ->
  marked jobId (String c rest) = String c (marked jobId rest).
Proof.
  intros Hescape Hplaceholder. unfold marked, ReplaceAll.
  rewrite (replace_nomatch "{" "{JobId}}") by exact Hescape.
  rewrite (replace_nomatch "{" "JobId}"); [done|].
  rewrite string_prefix_cons in Hplaceholder |- *.
  destruct (ascii_dec "{" c); [|done].
  unfold sentinel. by rewrite replace_prefix.
Qed.

(** What shows in front of the marked value was in front of the value, as
    long as it holds neither a blank nor the first character of the id. *)
Lemma marked_prefix (q value : string) :
  q <> EmptyString ->
  has_char " " q = false ->
  (forall j0 j', jobId = String j0 j' -> has_char j0 q = false) ->
  String.prefix q (marked jobId value) = true -> String.prefix q value = true.
Proof.
  destruct jobId_chars as (j0 & j' & Hid & _).
  intros Hq Hblank Hhead. specialize (Hhead j0 j' Hid).
  revert value Hq. induction q as [|a q IH]; intros value Hq; [done|].
  cbn [has_char] in Hblank, Hhead.
  apply orb_false_elim in Hblank as [Ha Hblank]. apply orb_false_elim in Hhead as [Ha' Hhead].
  apply bool_decide_eq_false in Ha, Ha'.
  destruct value as [|b value]; [done|].
  destruct (String.prefix "{{JobId}}" (String b value)) eqn:Hescape.
  { apply string_prefix_split in Hescape as [rest ->]. rewrite marked_escape.
    unfold sentinel.
    change (String " " ?s +:+ ?r) with (String " " (s +:+ r)).
    rewrite string_prefix_cons. by destruct (ascii_dec a " "). }
  destruct (String.prefix "{JobId}" (String b value)) eqn:Hplaceholder.
  { apply string_prefix_split in Hplaceholder as [rest ->]. rewrite marked_placeholder, Hid.
    change (String j0 j' +:+ ?r) with (String j0 (j' +:+ r)).
    rewrite string_prefix_cons. by destruct (ascii_dec a j0). }
  rewrite marked_copy by done. rewrite !string_prefix_cons.
  destruct (ascii_dec a b); [|done].
  destruct q as [|a' q]; [by destruct (marked jobId value), value|].
  by apply IH.
Qed.

(** The three replacements of [enrichText] read the value from left to
    right. *)
Lemma enrichValue_stored_value (value : string) :
  enrichValue value jobId = stored_value jobId value.
Proof.
  destruct jobId_chars as (j0 & j' & Hid & Hj1 & Hj2 & Hj3 & Hblank).
  change (enrichValue value jobId) with (ReplaceAll (marked jobId value) sentinel "JobId").
  unfold ReplaceAll.
  remember (String.length value) as n eqn:Hn.
  assert (String.length value <= n)%nat as Hlen by lia. clear Hn.
  revert value Hlen. induction n as [|n IH]; intros value Hlen.
  { by destruct value; [|cbn in Hlen; lia]. }
  destruct value as [|c value]; [done|].
  destruct (String.prefix "{{JobId}}" (String c value)) eqn:Hescape.
  { apply string_prefix_split in Hescape as [rest Hrest]. rewrite Hrest in Hlen |- *.
    rewrite string_length_append in Hlen. cbn in Hlen.
    rewrite marked_escape, replace_match_sentinel, read_escape.
    rewrite IH by lia. done. }
  destruct (String.prefix "{JobId}" (String c value)) eqn:Hplaceholder.
  { apply string_prefix_split in Hplaceholder as [rest Hrest]. rewrite Hrest in Hlen |- *.
    rewrite string_length_append in Hlen. cbn in Hlen.
    rewrite marked_placeholder, read_placeholder.
    unfold sentinel. rewrite replace_copy by exact Hblank.
    fold sentinel. rewrite IH by lia. done. }
  destruct (String.prefix sentinel (String c value)) eqn:Hsentinel.
  { apply string_prefix_split in Hsentinel as [rest Hrest]. rewrite Hrest in Hlen |- *.
    rewrite string_length_append in Hlen. cbn in Hlen.
    unfold marked, ReplaceAll.
    unfold sentinel at 2.
    rewrite (replace_copy "{" "{JobId}}" sentinel sentinel) by reflexivity.
    rewrite (replace_copy "{" "JobId}" jobId sentinel) by reflexivity.
    rewrite replace_match_sentinel, read_sentinel.
    change (replace_from 0 "{JobId}" jobId (replace_from 0 "{{JobId}}" sentinel rest))
      with (marked jobId rest).
    rewrite IH by lia. done. }
  rewrite marked_copy, read_copy by done.
  cbn in Hlen. unfold sentinel at 1.
  rewrite replace_nomatch.
  - fold sentinel. by rewrite IH by lia.
  - unfold sentinel in Hsentinel. rewrite string_prefix_cons in Hsentinel |- *.
    destruct (ascii_dec " " c); [|done].
    destruct (String.prefix (String (ascii_of_nat 92) "z") (marked jobId value)) eqn:Hspurious;
      [|done].
    apply marked_prefix in Hspurious; [congruence|done|reflexivity|].
    intros j0' j'' Hid'. assert (j0' = j0) as -> by congruence.
    cbn [has_char]. rewrite !bool_decide_eq_false_2; [done|..]; by intros ?.
Qed.

End enrich.

(* ===================================================================== *)
(** * Reasoning about programs *)
(* ===================================================================== *)

Section programs.

Context {S : Type} (h : Handler S).

Lemma run_call (c : Cmd) (s : S) :
  run h (call c) s
  = (Some (h c s).1, (h c s).2, [ {| entry_cmd := c; entry_resp := (h c s).1 |} ]).
Proof. unfold call. simpl. by destruct (h c s). Qed.

Lemma run_bind {A B : Type} (p : Prog A) (f : A -> Prog B) (s : S) :
  run h (p ≫= f) s
  = match run h p s with
    | (Some a, s1, t1) =>
        let '(b, s2, t2) := run h (f a) s1 in (b, s2, t1 ++ t2)
    | (None, s1, t1) => (None, s1, t1)
    end.
Proof.
  revert s. induction p as [a| |c k IH]; intros s.
  - simpl. change (mbind f (Ret a)) with (f a).
    by destruct (run h (f a) s) as [[b s2] t2].
  - reflexivity.
  - change (mbind f (Call c k)) with (Call c (fun r => k r ≫= f)).
    simpl. destruct (h c s) as [r s1]. rewrite IH.
    destruct (run h (k r) s1) as [[[a|] s2] t1]; [|done].
    by destruct (run h (f a) s2) as [[b s3] t2].
Qed.

End programs.

Lemma holds_bind {A B : Type} (panics : Prop) (P : Cmd -> Prop) (Q1 : A -> Prop) (Q : B -> Prop)
    (p : Prog A) (f : A -> Prog B) :
  holds panics P Q1 p -> (forall a, Q1 a -> holds panics P Q (f a)) -> holds panics P Q (p ≫= f).
Proof.
  intros Hp Hf. induction p as [a| |c k IH].
  - apply Hf, Hp.
  - exact Hp.
  - destruct Hp as [Hc Hk]. split; [exact Hc|].
    intros r. apply IH, Hk.
Qed.

Lemma holds_weaken {A : Type} (panics panics' : Prop) (P P' : Cmd -> Prop) (Q Q' : A -> Prop)
    (p : Prog A) :
  (panics -> panics') -> (forall c, P c -> P' c) -> (forall a, Q a -> Q' a) ->
  holds panics P Q p -> holds panics' P' Q' p.
Proof.
  intros Hpanic HP HQ. induction p as [a| |c k IH]; simpl; [auto|auto|].
  intros [Hc Hk]. split; [auto|]. intros r. apply IH, Hk.
Qed.

Lemma holds_call (panics : Prop) (P : Cmd -> Prop) (c : Cmd) :
  P c -> holds panics P (fun _ => True) (call c).
Proof. intros Hc. split; [exact Hc|]. intros r. exact I. Qed.

Lemma holds_run {S A : Type} (panics : Prop) (P : Cmd -> Prop) (Q : A -> Prop) (p : Prog A)
    (h : Handler S) (s : S) :
  holds panics P Q p ->
  Forall P (calls (trace_of (run h p s)))
  /\ (forall a, result_of (run h p s) = Some a -> Q a)
  /\ (result_of (run h p s) = None -> panics).
Proof.
  revert s. induction p as [a| |c k IH]; intros s Hp.
  - split; [constructor|]. split; [|done]. intros a' [= <-]. exact Hp.
  - split; [constructor|]. split; [|done]. intros a' [=].
  - destruct Hp as [Hc Hk]. simpl.
    destruct (h c s) as [r s1].
    destruct (IH r s1 (Hk r)) as (Ht & Hr & Hn).
    destruct (run h (k r) s1) as [[a s2] t].
    split; [constructor; [exact Hc|exact Ht]|]. split; [exact Hr|exact Hn].
Qed.

(* ===================================================================== *)
(** * Properties: the job objects *)
(* ===================================================================== *)

Ltac holds_step :=
  match goal with
  | |- holds _ _ _ (Ret _) => cbn [holds]
  | |- holds may_panic _ _ Panic => exact I
  | |- holds _ _ _ (Call _ _) => cbn [holds]; split; [|intros ?]
  | |- holds _ _ _ (mret _) => change (@mret Prog _ ?A ?a) with (@Ret A a); cbn [holds]
  | |- holds _ _ _ (mbind ?f (call ?c)) =>
      change (mbind f (call c)) with (Call c (fun r => f r)); cbn beta
  | |- holds _ _ _ (match ?x with _ => _ end) => destruct x eqn:?
  end.

Lemma createJobsObjects_podSpecs_holds (server : SubmitServer) (request : JobSubmitRequest)
    (item : JobSubmitRequestItem) (i j : Z) (podSpecs : list PodSpec) :
  holds no_panic creating (fun _ => True) (createJobsObjects_podSpecs server request item i j podSpecs).
Proof.
  revert j. induction podSpecs as [|podSpec rest IH]; intros j.
  - exact I.
  - cbn [createJobsObjects_podSpecs].
    repeat holds_step; try exact I.
    eapply holds_bind; [apply IH|].
    intros a _. by repeat holds_step.
Qed.

Lemma createJobsObjects_items_holds (server : SubmitServer) (request : JobSubmitRequest)
    (owner : string) (groups : list string) (i : Z) (items : list JobSubmitRequestItem) :
  holds no_panic creating
        (fun r => match r with
                  | inl jobs =>
                      Forall2 (created_from request owner groups) items jobs
                      /\ Forall (fun item => ~ malformed item) items
                  | inr _ => True
                  end)
        (createJobsObjects_items server request owner groups i items).
Proof.
  revert i. induction items as [|item rest IH]; intros i.
  - split; constructor.
  - cbn [createJobsObjects_items].
    destruct (bool_decide (is_Some (Item_PodSpec item))
              && bool_decide (0 < length (Item_PodSpecs item))%nat) eqn:Hboth;
      [exact I|].
    destruct (bool_decide (length (GetAllPodSpecs item) = 0%nat)) eqn:Hnone; [exact I|].
    assert (~ malformed item) as Hshape.
    { intros [[Hs Hl]|[Hs Hl]].
      - apply andb_false_iff in Hboth as [Hb|Hb]; apply bool_decide_eq_false in Hb.
        + done.
        + destruct (Item_PodSpecs item); [done|]. simpl in Hb. lia.
      - apply bool_decide_eq_false in Hnone. apply Hnone.
        unfold GetAllPodSpecs. by rewrite Hl, Hs. }
    destruct (ValidateJobSubmitRequestItem item); [exact I|].
    eapply holds_bind; [apply createJobsObjects_podSpecs_holds|].
    intros [podSpecs|err] _; [|exact I].
    repeat holds_step; try exact I.
    eapply holds_bind; [apply IH|].
    intros [jobs|err] Hjobs; [|exact I].
    destruct Hjobs as [Hjobs Hshapes].
    holds_step. split.
    + constructor; [|exact Hjobs]. by repeat split.
    + by constructor.
Qed.

Lemma createJobs_holds (server : SubmitServer) (request : JobSubmitRequest)
    (owner : string) (groups : list string) :
  holds no_panic creating
        (fun r => match r with
                  | inl jobs =>
                      Forall2 (created_from request owner groups) (Req_JobRequestItems request) jobs
                      /\ Forall (fun item => ~ malformed item) (Req_JobRequestItems request)
                  | inr _ => True
                  end)
        (createJobs server request owner groups).
Proof.
  unfold createJobs, createJobsObjects.
  destruct (bool_decide (Req_JobSetId request = EmptyString)); [exact I|].
  destruct (bool_decide (Req_Queue request = EmptyString)); [exact I|].
  apply createJobsObjects_items_holds.
Qed.

Lemma enrichText_enriched (labels : gmap string string) (jobId : string) :
  sentinel_free jobId = true ->
  enriched jobId labels (enrichText labels jobId).
Proof.
  intros Hid. unfold enrichText. split.
  - apply dom_fmap_L.
  - intros key value Hkey.
    rewrite lookup_fmap, Hkey. simpl.
    by rewrite enrichValue_stored_value.
Qed.

(** C6. Every job that [createJobs] creates stores the labels and the
    annotations of its item under the same keys, and every value as it
    reads from left to right: each escape sequence [{{JobId}}] as the
    verbatim [JobId], each placeholder [{JobId}] as the id of the job, and
    every other character as it is, but for the three characters of the
    sentinel of [enrichText], which are stored as [JobId] too. This holds of
    every value, for an id that is not empty and holds no blank, backslash
    or [z], as the ULIDs that the server mints. *)
Theorem createJobs_enriches_labels {S : Type} (h : Handler S) (s : S)
    (server : SubmitServer) (request : JobSubmitRequest) (owner : string)
    (groups : list string) (jobs : list Job) :
  result_of (run h (createJobs server request owner groups) s) = Some (inl jobs) ->
  Forall2 (fun item job =>
             sentinel_free (Job_Id job) = true ->
             enriched (Job_Id job) (Item_Labels item) (Job_Labels job)
             /\ enriched (Job_Id job) (Item_Annotations item) (Job_Annotations job))
          (Req_JobRequestItems request) jobs.
Proof.
  intros Hrun.
  destruct (holds_run _ _ _ _ h s (createJobs_holds server request owner groups)) as (_ & Hres & _).
  destruct (Hres _ Hrun) as [Hjobs _].
  eapply Forall2_impl; [exact Hjobs|].
  intros item job (_ & _ & _ & _ & -> & ->) Hid.
  split; by apply enrichText_enriched.
Qed.

Lemma createJobs_enriches_labels_witness :
  Forall (fun job => sentinel_free (Job_Id job) = true) example_jobs
  /\ Forall2 (fun item job =>
                sentinel_free (Job_Id job) = true ->
                enriched (Job_Id job) (Item_Labels item) (Job_Labels job)
                /\ enriched (Job_Id job) (Item_Annotations item) (Job_Annotations job))
             (Req_JobRequestItems example_request) example_jobs.
Proof.
  split.
  - apply Forall_forall. intros job Hjob. vm_compute in Hjob.
    apply list_elem_of_singleton in Hjob as ->. vm_compute. reflexivity.
  - apply (createJobs_enriches_labels steady_handler tt example_server example_request
             "alice" ["admins"] example_jobs).
    vm_compute. reflexivity.
Defined.

(** The example at work: the label and the annotation of the created job. *)
Example example_jobs_labels :
  map (fun job => (Job_Labels job !! "app", Job_Annotations job !! "note")) example_jobs
  = [ (Some "job-01ARZ3NDEKTSV4RRFFQ69G5FAV", Some "JobId of 01ARZ3NDEKTSV4RRFFQ69G5FAV") ].
Proof. vm_compute. reflexivity. Qed.

(** Values as they are read: braces that open nothing are kept, and so are
    backslashes; a brace before a placeholder makes an escape sequence of
    it. *)
Example stored_value_examples :
  stored_value "01ARZ" "{ id: {JobId}, key: {{JobId}} }" = "{ id: 01ARZ, key: JobId }"
  /\ stored_value "01ARZ" (String "C" (String ":" (String backslash "jobs"))
                             +:+ String backslash "{JobId}")
     = String "C" (String ":" (String backslash "jobs")) +:+ String backslash "01ARZ"
  /\ stored_value "01ARZ" "{{ .Values.name }}-{JobId}" = "{{ .Values.name }}-01ARZ"
  /\ stored_value "01ARZ" "{{JobId}" = "{01ARZ"
  /\ stored_value "01ARZ" "{{{JobId}}}" = "{JobId}"
  /\ stored_value "01ARZ" (sentinel +:+ "{JobId}") = "JobId01ARZ".
Proof. vm_compute. by repeat split. Qed.

(* ===================================================================== *)
(** * Properties: the course of SubmitJobs *)
(* ===================================================================== *)

Lemma creating_submitting (request : JobSubmitRequest) (owner : string) (groups : list string)
    (c : Cmd) :
  creating c -> submitting request owner groups c.
Proof. by destruct c. Qed.

Lemma SubmitJobs_authorized_holds (server : SubmitServer) (ctx : Context)
    (req : JobSubmitRequest) (q : Queue) :
  holds may_panic (submitting req (GetName (GetPrincipal ctx)) (ownershipGroups q (GetPrincipal ctx)))
        (fun r => In (code_of r.2) [OK; InvalidArgument; Aborted; Internal])
        (SubmitJobs_authorized server ctx req q).
Proof.
  unfold SubmitJobs_authorized.
  eapply holds_bind.
  { eapply (holds_weaken no_panic);
      [intros []|apply creating_submitting|intros a Ha; exact Ha|apply createJobs_holds]. }
  intros [jobs|e] Hjobs; [destruct Hjobs as [Hjobs _]|];
    repeat holds_step; simpl; auto 10.
Qed.

(** With a malformed item in the request, the creation of the jobs fails
    and [SubmitJobs] returns with [InvalidArgument], after the calls of
    [createJobs] alone. *)
Lemma SubmitJobs_authorized_malformed (server : SubmitServer) (ctx : Context)
    (req : JobSubmitRequest) (q : Queue) :
  Exists malformed (Req_JobRequestItems req) ->
  holds no_panic creating
        (fun r => r.1 = None /\ code_of r.2 = InvalidArgument)
        (SubmitJobs_authorized server ctx req q).
Proof.
  intros Hbad. unfold SubmitJobs_authorized.
  eapply holds_bind; [apply createJobs_holds|].
  intros [jobs|e] Hjobs.
  - destruct Hjobs as [_ Hshapes].
    apply Exists_exists in Hbad as (item & Hin & Hitem).
    rewrite Forall_forall in Hshapes. by destruct (Hshapes item Hin).
  - by holds_step.
Qed.

(** The user owners of a queue whose only binding is that of its owners. *)
Lemma user_owners_of_owners (name : string) (factor : float) (limits : gmap string float)
    (users groups : list string) :
  user_owners {| Queue_Name := name;
                 Queue_Permissions := [NewPermissionsFromOwners users groups];
                 Queue_PriorityFactor := factor;
                 Queue_ResourceLimits := limits |} = users.
Proof.
  unfold user_owners, NewPermissionsFromOwners, NewPermissionSubjectsFromOwners. simpl.
  rewrite app_nil_r, flat_map_app.
  assert (flat_map
            (fun subject =>
               match Subject_Kind subject with
               | PermissionSubjectKindUser => [Subject_Name subject]
               | PermissionSubjectKindGroup => []
               end)
            (map (fun name => {| Subject_Kind := PermissionSubjectKindGroup; Subject_Name := name |})
                 groups) = []) as ->.
  { induction groups as [|g groups IH]; [done|]. simpl. exact IH. }
  rewrite app_nil_r.
  induction users as [|u users IH]; [done|]. simpl. by rewrite IH.
Qed.

Lemma getQueueOrCreate_holds (server : SubmitServer) (ctx : Context) (queueName : string) :
  holds no_panic (resolving ctx queueName)
        (fun r => match r with
                  | inl _ => True
                  | inr st => In (Status_Code st) [NotFound; Aborted; Unavailable]
                  end)
        (getQueueOrCreate server ctx queueName).
Proof.
  unfold getQueueOrCreate. repeat holds_step; simpl; auto 10.
  split; [reflexivity|apply user_owners_of_owners].
Qed.

Lemma SubmitJobs_run {S : Type} (h : Handler S) (s : S) (server : SubmitServer)
    (ctx : Context) (req : JobSubmitRequest) :
  run h (SubmitJobs server ctx req) s
  = match run h (getQueueOrCreate server ctx (Req_Queue req)) s with
    | (Some (inl q), s1, t1) =>
        match SubmitJobs_refusal server ctx req q with
        | Some st => (Some (None, Some st), s1, t1)
        | None =>
            let '(b, s2, t2) := run h (SubmitJobs_authorized server ctx req q) s1 in
            (b, s2, t1 ++ t2)
        end
    | (Some (inr err), s1, t1) => (Some (None, Some err), s1, t1)
    | (None, s1, t1) => (None, s1, t1)
    end.
Proof.
  unfold SubmitJobs. rewrite run_bind.
  destruct (run h (getQueueOrCreate server ctx (Req_Queue req)) s) as [[[[q|err]|] s1] t1];
    [|cbn; by rewrite app_nil_r|done].
  destruct (SubmitJobs_refusal server ctx req q); [cbn; by rewrite app_nil_r|done].
Qed.

(* ===================================================================== *)
(** * Properties: the two tiers of authorization *)
(* ===================================================================== *)

Lemma principalSubjects_matches (principal : Principal) (subject : PermissionSubject) :
  subject ∈ principalSubjects principal <-> matches principal subject.
Proof.
  unfold principalSubjects, NewPermissionSubjectsFromOwners, matches.
  rewrite elem_of_app, !list_elem_of_fmap. split.
  - intros [(name & -> & Hin)|(name & -> & Hin)]; simpl.
    + by apply list_elem_of_singleton in Hin.
    + exact Hin.
  - destruct subject as [[] name]; simpl.
    + intros ->. left. exists (GetName principal). split; [done|]. by apply list_elem_of_singleton.
    + intros Hin. right. by exists name.
Qed.

Lemma HasPermission_true (q : Queue) (subject : PermissionSubject) (verb : PermissionVerb) :
  HasPermission q subject verb = true
  <-> exists binding, binding ∈ Queue_Permissions q
                      /\ subject ∈ Permissions_Subjects binding
                      /\ verb ∈ Permissions_Verbs binding.
Proof.
  unfold HasPermission. rewrite existsb_exists. split.
  - intros (binding & Hin & Hb). apply andb_prop in Hb as [Hs Hv].
    apply bool_decide_eq_true in Hs, Hv. apply list_elem_of_In in Hin. by exists binding.
  - intros (binding & Hin & Hs & Hv). exists binding.
    split; [by apply list_elem_of_In|]. by rewrite !bool_decide_eq_true_2.
Qed.

Lemma queue_grants_existsb (q : Queue) (principal : Principal) (verb : PermissionVerb) :
  existsb (fun subject => HasPermission q subject verb) (principalSubjects principal) = true
  <-> queue_grants q principal verb.
Proof.
  rewrite existsb_exists. split.
  - intros (subject & Hin & Hp). apply list_elem_of_In, principalSubjects_matches in Hin.
    apply HasPermission_true in Hp as (binding & Hb & Hs & Hv). by exists binding, subject.
  - intros (binding & subject & Hb & Hs & Hm & Hv). exists subject.
    split; [by apply list_elem_of_In, principalSubjects_matches|].
    apply HasPermission_true. by exists binding.
Qed.

Lemma denied_dec (server : SubmitServer) (ctx : Context) (q : Queue)
    (anyPermission : Permission) (verb : PermissionVerb) :
  denied server ctx q anyPermission verb \/ ~ denied server ctx q anyPermission verb.
Proof.
  unfold denied.
  destruct (UserHasPermission (server_permissions server) ctx anyPermission);
    [right; by intros [? _]|].
  destruct (existsb (fun subject => HasPermission q subject verb)
                    (principalSubjects (GetPrincipal ctx))) eqn:Hq.
  - apply queue_grants_existsb in Hq. right. by intros [_ ?].
  - left. split; [done|]. intros Hg. apply queue_grants_existsb in Hg. congruence.
Qed.


(** The same for the check that [SubmitJobs] makes on the resolved queue:
    the operation returns with [PermissionDenied] and the merged refusal
    when both tiers refuse, and goes on otherwise. *)
Lemma SubmitJobs_refusal_denied (server : SubmitServer) (ctx : Context)
    (req : JobSubmitRequest) (q : Queue) :
  (denied server ctx q permissions.SubmitAnyJobs PermissionVerbSubmit ->
   exists merged,
     SubmitJobs_refusal server ctx req q
     = Some (status_Errorf PermissionDenied "[SubmitJobs] error submitting job in queue %s: %s"
                           [ArgString (Req_Queue req); ArgNoPermission merged])
     /\ merged_refusal server ctx q permissions.SubmitAnyJobs permissions.SubmitJobs
                       PermissionVerbSubmit merged)
  /\ (~ denied server ctx q permissions.SubmitAnyJobs PermissionVerbSubmit ->
      SubmitJobs_refusal server ctx req q = None).
Proof.
  unfold denied, merged_refusal, SubmitJobs_refusal, checkPermission, checkQueuePermission.
  destruct (UserHasPermission (server_permissions server) ctx permissions.SubmitAnyJobs).
  { split; [by intros [? _]|done]. }
  cbn [errors_As_ErrNoPermission].
  destruct (existsb (fun subject => HasPermission q subject PermissionVerbSubmit)
                    (principalSubjects (GetPrincipal ctx))) eqn:Hq.
  - apply queue_grants_existsb in Hq. split; [by intros [_ ?]|done].
  - cbn [errors_As_ErrNoPermission]. split.
    + intros _. eexists. split; [reflexivity|].
      eexists _, _. repeat split; done.
    + intros Hn. exfalso. apply Hn. split; [done|].
      intros Hg. apply queue_grants_existsb in Hg. congruence.
Qed.

Lemma queueNamesOf_single (jobs : list Job) (queueName : string) :
  jobs <> [] ->
  Forall (fun job => Job_Queue job = queueName) jobs ->
  elements (queueNamesOf jobs) = [queueName].
Proof.
  intros Hne Hall.
  assert (forall acc : gset string,
             foldl (fun (queueNames : gset string) job => {[Job_Queue job]} ∪ queueNames) acc jobs
             = if decide (jobs = []) then acc else {[queueName]} ∪ acc) as Hfold.
  { induction Hall as [|job jobs Hjob Hall IH]; intros acc; [done|].
    simpl. rewrite Hjob.
    destruct jobs as [|job' jobs]; [done|].
    rewrite IH by done. simpl.
    by rewrite (assoc_L (∪)), (idemp_L (∪)). }
  unfold queueNamesOf. rewrite Hfold.
  destruct (decide (jobs = [])); [done|].
  rewrite (right_id_L ∅ (∪)). apply elements_singleton.
Qed.

Section one_queue.

Context {S : Type} (h : Handler S) (server : SubmitServer) (ctx : Context).


Lemma checkReprioritizePerms_single (s s1 : S) (jobs : list Job) (queueName : string) (q : Queue) :
  jobs <> [] ->
  Forall (fun job => Job_Queue job = queueName) jobs ->
  h (QueueRepository_GetQueue queueName) s = (inl q, s1) ->
  run h (checkReprioritizePerms server ctx jobs) s
  = (Some (checkQueuePerms server ctx q permissions.ReprioritizeAnyJobs
                           permissions.ReprioritizeJobs PermissionVerbReprioritize),
     s1,
     [ {| entry_cmd := QueueRepository_GetQueue queueName; entry_resp := inl q |} ]).
Proof.
  intros Hne Hall Hq. unfold checkReprioritizePerms.
  rewrite (queueNamesOf_single jobs queueName Hne Hall).
  cbn. rewrite Hq. by destruct (checkQueuePerms _ _ _ _ _ _).
Qed.

End one_queue.

Lemma cancelJobs_permitted_holds (server : SubmitServer) (ctx : Context) (jobs : list Job) :
  holds no_panic cancelling
        (fun r => match r with
                  | inl _ => True
                  | inr err => errors_As_ErrNoPermission err = None
                  end)
        (cancelJobs_permitted server ctx jobs).
Proof.
  unfold cancelJobs_permitted. repeat holds_step; simpl; auto.
Qed.

Section cancel_by_id.

Context {S : Type} (h : Handler S) (server : SubmitServer) (ctx : Context).



End cancel_by_id.

(* ===================================================================== *)
(** * Properties: queues created by a submission *)
(* ===================================================================== *)

Lemma getQueueOrCreate_not_found {S : Type} (h : Handler S) (s s1 : S)
    (server : SubmitServer) (ctx : Context) (queueName : string) (e : foreign_error) :
  h (QueueRepository_GetQueue queueName) s = (inr e, s1) ->
  is_Some (errors_As_ErrQueueNotFound e) ->
  run h (getQueueOrCreate server ctx queueName) s
  = if negb (AutoCreateQueues (queueManagementConfig server))
       || negb (UserHasPermission (server_permissions server) ctx permissions.SubmitAnyJobs)
    then (Some (inr (status_Errorf NotFound "Queue %q not found" [ArgString queueName])),
          s1,
          [ {| entry_cmd := QueueRepository_GetQueue queueName; entry_resp := inr e |} ])
    else
      let q := autoCreatedQueue server ctx queueName in
      let err := (h (QueueRepository_CreateQueue q) s1).1 in
      (Some (match err with
             | Some _ => inr {| Status_Code := Aborted;
                                Status_Format := FormatErrorText (ErrForeign e);
                                Status_Args := [] |}
             | None => inl q
             end),
       (h (QueueRepository_CreateQueue q) s1).2,
       [ {| entry_cmd := QueueRepository_GetQueue queueName; entry_resp := inr e |};
         {| entry_cmd := QueueRepository_CreateQueue q; entry_resp := err |} ]).
Proof.
  intros Hq [name Hname]. unfold getQueueOrCreate.
  change (run h (mbind ?f (call ?c)) s) with (run h (Call c f) s).
  cbn [run]. rewrite Hq. cbn beta iota. rewrite Hname.
  destruct (negb (AutoCreateQueues (queueManagementConfig server))
            || negb (UserHasPermission (server_permissions server) ctx permissions.SubmitAnyJobs));
    [reflexivity|].
  fold (autoCreatedQueue server ctx queueName). cbv zeta.
  change (run h (mbind ?f (call ?c)) s1) with (run h (Call c f) s1).
  cbn [run].
  destruct (h (QueueRepository_CreateQueue (autoCreatedQueue server ctx queueName)) s1)
    as [[err|] s2]; reflexivity.
Qed.

(** C2. For a request that names a queue which the registry does not find,
    [SubmitJobs] asks the registry to create a queue if and only if
    [auto_create_queues] is enabled and the caller has [submit_any_jobs];
    otherwise the request fails with [NotFound]; a queue that it asks to
    create bears the name of the request, and its permissions are those of
    owners of whom the caller is the sole user owner; and when the registry
    refuses to create the queue, the request fails with [Aborted]. *)
Theorem SubmitJobs_auto_creates_queue {S : Type} (h : Handler S) (s s1 : S)
    (server : SubmitServer) (ctx : Context) (req : JobSubmitRequest) (e : foreign_error) :
  h (QueueRepository_GetQueue (Req_Queue req)) s = (inr e, s1) ->
  is_Some (errors_As_ErrQueueNotFound e) ->
  let out := run h (SubmitJobs server ctx req) s in
  let allowed :=
    AutoCreateQueues (queueManagementConfig server) = true
    /\ UserHasPermission (server_permissions server) ctx permissions.SubmitAnyJobs = true in
  ((exists q, QueueRepository_CreateQueue q ∈ calls (trace_of out)) <-> allowed)
  /\ (~ allowed -> returned_code (result_of out) = Some NotFound)
  /\ (forall q, QueueRepository_CreateQueue q ∈ calls (trace_of out) ->
                Queue_Name q = Req_Queue req
                /\ Queue_Permissions q
                   = [NewPermissionsFromOwners [GetName (GetPrincipal ctx)]
                                               (GetGroupNames (GetPrincipal ctx))]
                /\ user_owners q = [GetName (GetPrincipal ctx)])
  /\ (allowed ->
      is_Some (h (QueueRepository_CreateQueue (autoCreatedQueue server ctx (Req_Queue req))) s1).1 ->
      returned_code (result_of out) = Some Aborted).
Proof.
  intros Hq Hnf out allowed.
  assert (forall q t, Forall (submitting req (GetName (GetPrincipal ctx))
                                (ownershipGroups (autoCreatedQueue server ctx (Req_Queue req))
                                                 (GetPrincipal ctx))) (calls t) ->
                      QueueRepository_CreateQueue q ∉ calls t) as Hlater.
  { intros q t Ht Hin. rewrite Forall_forall in Ht. exact (Ht _ Hin). }
  assert (forall q, QueueRepository_CreateQueue q
                    ∉ calls [ {| entry_cmd := QueueRepository_GetQueue (Req_Queue req);
                                 entry_resp := inr e |} ]) as Hfirst.
  { intros q Hin. cbn in Hin. by apply list_elem_of_singleton in Hin. }
  subst out. rewrite SubmitJobs_run.
  rewrite (getQueueOrCreate_not_found h s s1 server ctx (Req_Queue req) e Hq Hnf).
  subst allowed.
  destruct (AutoCreateQueues (queueManagementConfig server)); cbn [negb orb].
  2: { cbn [trace_of result_of fst snd returned_code code_of status_Errorf Status_Code].
       split; [|split; [|split]].
       - split; [by intros [q Hin%Hfirst]|by intros [? _]].
       - done.
       - by intros q Hin%Hfirst.
       - by intros [? _]. }
  destruct (UserHasPermission (server_permissions server) ctx permissions.SubmitAnyJobs) eqn:Hany;
    cbn [negb].
  2: { cbn [trace_of result_of fst snd returned_code code_of status_Errorf Status_Code].
       split; [|split; [|split]].
       - split; [by intros [q Hin%Hfirst]|by intros [_ ?]].
       - done.
       - by intros q Hin%Hfirst.
       - by intros [_ ?]. }
  cbv zeta.
  set (q0 := autoCreatedQueue server ctx (Req_Queue req)) in *.
  assert (Queue_Name q0 = Req_Queue req
          /\ Queue_Permissions q0
             = [NewPermissionsFromOwners [GetName (GetPrincipal ctx)]
                                         (GetGroupNames (GetPrincipal ctx))]
          /\ user_owners q0 = [GetName (GetPrincipal ctx)]) as Hq0.
  { split; [reflexivity|]. split; [reflexivity|apply user_owners_of_owners]. }
  assert (forall q (err : option foreign_error),
             QueueRepository_CreateQueue q
             ∈ calls [ {| entry_cmd := QueueRepository_GetQueue (Req_Queue req);
                          entry_resp := inr e |};
                       {| entry_cmd := QueueRepository_CreateQueue q0; entry_resp := err |} ] ->
             q = q0) as Honly.
  { intros q err Hin. cbn in Hin.
    apply elem_of_cons in Hin as [[=]|Hin].
    by apply list_elem_of_singleton in Hin as [= ->]. }
  assert (forall err : option foreign_error,
             QueueRepository_CreateQueue q0
             ∈ calls [ {| entry_cmd := QueueRepository_GetQueue (Req_Queue req);
                          entry_resp := inr e |};
                       {| entry_cmd := QueueRepository_CreateQueue q0; entry_resp := err |} ])
    as Hcreated.
  { intros err. cbn. apply elem_of_cons. right. by apply list_elem_of_singleton. }
  destruct (h (QueueRepository_CreateQueue q0) s1) as [[err|] s2]; cbn [fst snd].
  - cbn [trace_of snd].
    split; [|split; [|split]].
    + split; [done|]. intros _. exists q0. apply Hcreated.
    + by intros [].
    + intros q ->%Honly. exact Hq0.
    + reflexivity.
  - assert (SubmitJobs_refusal server ctx req q0 = None) as ->.
    { unfold SubmitJobs_refusal, checkPermission. by rewrite Hany. }
    pose proof (holds_run _ _ _ _ h s2 (SubmitJobs_authorized_holds server ctx req q0)) as [Ht _].
    destruct (run h (SubmitJobs_authorized server ctx req q0) s2) as [[b s3] t2].
    cbn [trace_of snd] in *.
    split; [|split; [|split]].
    + split; [done|]. intros _. exists q0.
      unfold calls. rewrite fmap_app. apply elem_of_app. left. apply Hcreated.
    + by intros [].
    + intros q Hin. unfold calls in Hin. rewrite fmap_app in Hin.
      apply elem_of_app in Hin as [Hin|Hin]; [|by apply Hlater in Hin].
      apply Honly in Hin as ->. exact Hq0.
    + by intros _ [? [=]].
Qed.

Lemma SubmitJobs_auto_creates_queue_witness :
  (exists q, QueueRepository_CreateQueue q
             ∈ calls (trace_of (run steady_handler (SubmitJobs example_server ctx_root example_request) tt)))
  /\ returned_code (result_of (run steady_handler
                                  (SubmitJobs server_with_memory_default ctx_root example_request) tt))
     = Some NotFound.
Proof.
  split.
  - destruct (SubmitJobs_auto_creates_queue steady_handler tt tt example_server ctx_root
                example_request (ErrQueueNotFound "q1")) as (Hiff & _);
      [reflexivity|by eexists|].
    apply Hiff. split; vm_compute; reflexivity.
  - destruct (SubmitJobs_auto_creates_queue steady_handler tt tt server_with_memory_default
                ctx_root example_request (ErrQueueNotFound "q1")) as (_ & Hnot & _);
      [reflexivity|by eexists|].
    apply Hnot. intros [Hauto _]. vm_compute in Hauto. discriminate.
Defined.

(** The submission of the example by [root]: the queue is created, with
    [root] as its sole user owner, and one job is stored. *)
Example example_submission_root :
  let out := run steady_handler (SubmitJobs example_server ctx_root example_request) tt in
  returned_code (result_of out) = Some OK
  /\ flat_map (fun c => match c with
                        | QueueRepository_CreateQueue q => [user_owners q]
                        | _ => []
                        end) (calls (trace_of out)) = [["root"]]
  /\ flat_map (fun c => match c with
                        | JobRepository_AddJobs jobs => [length jobs]
                        | _ => []
                        end) (calls (trace_of out)) = [1%nat].
Proof. vm_compute. repeat split. Qed.

(* ===================================================================== *)
(** * Properties: malformed items *)
(* ===================================================================== *)

Lemma resolving_harmless (ctx : Context) (queueName : string) (c : Cmd) :
  resolving ctx queueName c -> harmless c.
Proof. by destruct c. Qed.

Lemma creating_harmless (c : Cmd) : creating c -> harmless c.
Proof. by destruct c. Qed.

Lemma malformed_request_malformed : Exists malformed (Req_JobRequestItems malformed_request).
Proof.
  apply Exists_cons_tl, Exists_cons_hd. left. split; [by eexists|done].
Defined.

(** C5, as stated, fails: a request with a malformed item from a caller
    whom both tiers refuse returns [PermissionDenied], not
    [InvalidArgument]. *)
Lemma malformed_item_refused_first :
  Exists malformed (Req_JobRequestItems malformed_request)
  /\ returned_code (result_of (run stocked_handler
                                  (SubmitJobs example_server ctx_bob malformed_request) tt))
     = Some PermissionDenied.
Proof.
  split; [exact malformed_request_malformed|]. vm_compute. reflexivity.
Qed.

(** C5, amended. For a request with an item that gives both [pod_spec] and
    [pod_specs], or neither: [SubmitJobs] writes no job to the job store and
    appends no event to the event sink, and it returns without success; when
    the queue is resolved and the two-tier check lets the caller through, it
    returns with [InvalidArgument] and without a response. *)
Theorem SubmitJobs_malformed_item {S : Type} (h : Handler S) (s : S)
    (server : SubmitServer) (ctx : Context) (req : JobSubmitRequest) :
  Exists malformed (Req_JobRequestItems req) ->
  let out := run h (SubmitJobs server ctx req) s in
  Forall harmless (calls (trace_of out))
  /\ (exists st, result_of out = Some (None, Some st) /\ Status_Code st <> OK)
  /\ (forall q,
         result_of (run h (getQueueOrCreate server ctx (Req_Queue req)) s) = Some (inl q) ->
         SubmitJobs_refusal server ctx req q = None ->
         exists st, result_of out = Some (None, Some st) /\ Status_Code st = InvalidArgument).
Proof.
  intros Hbad out. subst out. rewrite SubmitJobs_run.
  pose proof (holds_run _ _ _ _ h s (getQueueOrCreate_holds server ctx (Req_Queue req)))
    as (Ht1 & Hr1 & Hn1).
  destruct (run h (getQueueOrCreate server ctx (Req_Queue req)) s) as [[r s1] t1].
  unfold result_of, trace_of in *. cbn [fst snd] in *.
  assert (Forall harmless (calls t1)) as Hharmless1.
  { eapply Forall_impl; [exact Ht1|]. apply resolving_harmless. }
  destruct r as [[q|err]|]; [| |by destruct Hn1].
  - destruct (SubmitJobs_refusal_denied server ctx req q) as [Hden Hnot].
    destruct (denied_dec server ctx q permissions.SubmitAnyJobs PermissionVerbSubmit) as [Hd|Hd].
    + destruct (Hden Hd) as (merged & -> & _). cbn [fst snd].
      split; [done|]. split; [by eexists|].
      intros q' [= <-] Hn. destruct (Hden Hd) as (merged' & Hst & _). congruence.
    + rewrite (Hnot Hd).
      pose proof (holds_run _ _ _ _ h s1 (SubmitJobs_authorized_malformed server ctx req q Hbad))
        as (Ht2 & Hr2 & Hn2).
      destruct (run h (SubmitJobs_authorized server ctx req q) s1) as [[b s2] t2].
      unfold result_of, trace_of in *. cbn [fst snd] in *.
      destruct b as [[resp err]|]; [|by destruct Hn2].
      destruct (Hr2 _ eq_refl) as [Hresp Hcode]. simpl in Hresp, Hcode. subst resp.
      destruct err as [st|]; [|done]. simpl in Hcode.
      split; [|split].
      * unfold calls. rewrite fmap_app. apply Forall_app. split; [done|].
        eapply Forall_impl; [exact Ht2|]. apply creating_harmless.
      * exists st. split; [done|]. by rewrite Hcode.
      * intros q' _ _. by exists st.
  - cbn [fst snd]. split; [done|]. split; [|done].
    exists err. split; [done|].
    specialize (Hr1 _ eq_refl). simpl in Hr1.
    intros Hcode. rewrite Hcode in Hr1.
    repeat (destruct Hr1 as [Hr1|Hr1]; [done|]). done.
Qed.

Lemma SubmitJobs_malformed_item_witness :
  exists st,
    result_of (run stocked_handler (SubmitJobs example_server ctx_alice malformed_request) tt)
    = Some (None, Some st)
    /\ Status_Code st = InvalidArgument.
Proof.
  destruct (SubmitJobs_malformed_item stocked_handler tt example_server ctx_alice
              malformed_request malformed_request_malformed) as (_ & _ & Hinvalid).
  apply (Hinvalid example_queue); [reflexivity|]. vm_compute. reflexivity.
Defined.

(* ===================================================================== *)
(** * Properties: ownership groups *)
(* ===================================================================== *)

Lemma ownershipGroups_granted_groups (q : Queue) (principal : Principal) :
  ownershipGroups q principal = granted_groups q principal.
Proof.
  unfold ownershipGroups, granted_groups, userSubject.
  destruct (HasPermission q _ PermissionVerbSubmit); [reflexivity|].
  cbn [negb]. unfold NewPermissionSubjectsFromOwners. cbn [map app].
  change (map ?f (GetGroupNames principal)) with (f <$> GetGroupNames principal).
  generalize (GetGroupNames principal) as groups.
  assert (forall (groups acc : list string),
             foldl (fun groups subject =>
                      if HasPermission q subject PermissionVerbSubmit
                      then groups ++ [Subject_Name subject]
                      else groups)
                   acc
                   ((fun name => {| Subject_Kind := PermissionSubjectKindGroup;
                                    Subject_Name := name |}) <$> groups)
             = acc ++ filter (fun group =>
                                HasPermission q (groupSubject group) PermissionVerbSubmit = true)
                             groups) as Hfold.
  { induction groups as [|g groups IH]; intros acc; [by rewrite app_nil_r|].
    cbn [fmap list_fmap foldl]. rewrite IH. rewrite filter_cons.
    destruct (decide (HasPermission q (groupSubject g) PermissionVerbSubmit = true)) as [Hg|Hg].
    - unfold groupSubject in Hg. rewrite Hg. cbn [Subject_Name]. by rewrite <- app_assoc.
    - apply not_true_is_false in Hg. unfold groupSubject in Hg. by rewrite Hg. }
  intros groups. by rewrite Hfold.
Qed.

(** C9. When the queue of the request is resolved to [q], the jobs that
    [SubmitJobs] hands to the job store are those created from the items of
    the request, and each carries as ownership groups the empty list when
    [q] grants the submit verb to the caller as a user, and otherwise
    exactly the groups of the caller that [q] grants the submit verb. *)
Theorem SubmitJobs_ownership_groups {S : Type} (h : Handler S) (s : S)
    (server : SubmitServer) (ctx : Context) (req : JobSubmitRequest) (q : Queue) :
  result_of (run h (getQueueOrCreate server ctx (Req_Queue req)) s) = Some (inl q) ->
  forall jobs,
    JobRepository_AddJobs jobs ∈ calls (trace_of (run h (SubmitJobs server ctx req) s)) ->
    length jobs = length (Req_JobRequestItems req)
    /\ Forall (fun job =>
                 Job_QueueOwnershipUserGroups job = granted_groups q (GetPrincipal ctx))
              jobs.
Proof.
  intros Hq jobs. rewrite SubmitJobs_run.
  pose proof (holds_run _ _ _ _ h s (getQueueOrCreate_holds server ctx (Req_Queue req)))
    as (Ht1 & _ & _).
  destruct (run h (getQueueOrCreate server ctx (Req_Queue req)) s) as [[r s1] t1].
  unfold result_of, trace_of in *. cbn [fst snd] in *. subst r.
  assert (JobRepository_AddJobs jobs ∉ calls t1) as Hfirst.
  { intros Hin. rewrite Forall_forall in Ht1. exact (Ht1 _ Hin). }
  destruct (SubmitJobs_refusal server ctx req q); [done|].
  pose proof (holds_run _ _ _ _ h s1 (SubmitJobs_authorized_holds server ctx req q))
    as (Ht2 & _ & _).
  destruct (run h (SubmitJobs_authorized server ctx req q) s1) as [[b s2] t2].
  cbn [fst snd] in *.
  unfold calls. rewrite fmap_app. intros [Hin|Hin]%elem_of_app; [done|].
  rewrite Forall_forall in Ht2. specialize (Ht2 _ Hin). cbn in Ht2.
  split.
  - symmetry. by eapply Forall2_length.
  - rewrite <- ownershipGroups_granted_groups.
    apply Forall2_Forall_r with (P := created_from req (GetName (GetPrincipal ctx))
                                        (ownershipGroups q (GetPrincipal ctx)))
                                (l := Req_JobRequestItems req); [exact Ht2|].
    apply Forall_forall. intros item _ job Hc. apply Hc.
Qed.

Lemma submitted_jobs_elem (t : list Entry) (jobs : list Job) :
  jobs ∈ submitted_jobs t -> JobRepository_AddJobs jobs ∈ calls t.
Proof.
  unfold submitted_jobs. intros Hin%list_elem_of_In%in_flat_map.
  destruct Hin as (c & Hc & Hin). apply list_elem_of_In in Hc.
  destruct c; try done. destruct Hin as [->|[]]. exact Hc.
Defined.

Lemma SubmitJobs_ownership_groups_witness :
  let t := trace_of (run stocked_handler (SubmitJobs example_server ctx_alice example_request) tt) in
  submitted_jobs t <> []
  /\ Forall (fun jobs =>
               length jobs = 1%nat
               /\ Forall (fun job => Job_QueueOwnershipUserGroups job = ["team-a"]) jobs)
            (submitted_jobs t).
Proof.
  split; [vm_compute; discriminate|].
  apply Forall_forall. intros jobs Hin. apply submitted_jobs_elem in Hin.
  exact (SubmitJobs_ownership_groups stocked_handler tt example_server ctx_alice
           example_request example_queue eq_refl jobs Hin).
Defined.

(* ===================================================================== *)
(** * Properties: deleting a queue *)
(* ===================================================================== *)

(** C8, as stated, fails: for an authorized caller and a queue without
    active job sets, [DeleteQueue] does not succeed when the registry fails
    to delete the queue. *)
Lemma DeleteQueue_empty_not_always_deleted :
  let request := {| QueueDelete_Name := "q1" |} in
  checkPermission (server_permissions example_server) ctx_root permissions.DeleteQueue = None
  /\ (failing_delete_handler (JobRepository_GetQueueActiveJobSets "q1") tt).1 = inl []
  /\ returned_code (result_of (run failing_delete_handler
                                   (DeleteQueue example_server ctx_root request) tt))
     = Some InvalidArgument.
Proof. vm_compute. repeat split. Qed.

(** C8, amended. For a caller who passes the permission check, when the
    job store answers with the list of the active job sets of the queue: [DeleteQueue] succeeds if
    and only if the list is empty and the registry then deletes the queue
    without error; when the list is not empty, it returns with
    [FailedPrecondition] and never calls the delete operation of the
    registry; when the list is empty, it calls it, for this queue. *)
Theorem DeleteQueue_active_job_sets {S : Type} (h : Handler S) (s s1 : S)
    (server : SubmitServer) (ctx : Context) (request : QueueDeleteRequest)
    (active : list JobSetInfo) :
  checkPermission (server_permissions server) ctx permissions.DeleteQueue = None ->
  h (JobRepository_GetQueueActiveJobSets (QueueDelete_Name request)) s = (inl active, s1) ->
  let out := run h (DeleteQueue server ctx request) s in
  (returned_code (result_of out) = Some OK
   <-> active = [] /\ (h (QueueRepository_DeleteQueue (QueueDelete_Name request)) s1).1 = None)
  /\ (active <> [] ->
      returned_code (result_of out) = Some FailedPrecondition
      /\ forall name, QueueRepository_DeleteQueue name ∉ calls (trace_of out))
  /\ (active = [] ->
      QueueRepository_DeleteQueue (QueueDelete_Name request) ∈ calls (trace_of out)).
Proof.
  intros Hperm Hactive out. subst out.
  unfold DeleteQueue. rewrite Hperm.
  change (run h (mbind ?f (call ?c)) s) with (run h (Call c f) s).
  cbn [run]. rewrite Hactive. cbn beta iota.
  destruct active as [|jobSet active].
  - cbn [length bool_decide].
    change (bool_decide (0 < 0)%nat) with false. cbn iota.
    change (run h (mbind ?f (call ?c)) s1) with (run h (Call c f) s1).
    cbn [run].
    destruct (h (QueueRepository_DeleteQueue (QueueDelete_Name request)) s1) as [[err|] s2];
      cbn; (split; [|split]); try done.
    + split; [done|]. by intros [_ ?].
    + intros _. apply elem_of_cons. right. apply list_elem_of_here.
    + intros _. apply elem_of_cons. right. apply list_elem_of_here.
  - assert (bool_decide (0 < length (jobSet :: active))%nat = true) as ->.
    { apply bool_decide_eq_true. simpl. lia. }
    cbn. split; [|split]; try done.
    + split; [done|]. by intros [? _].
    + intros _. split; [done|].
      intros name Hin. by apply list_elem_of_singleton in Hin.
Qed.

Lemma DeleteQueue_active_job_sets_witness :
  returned_code (result_of (run steady_handler
                               (DeleteQueue example_server ctx_root {| QueueDelete_Name := "q1" |}) tt))
  = Some OK.
Proof.
  destruct (DeleteQueue_active_job_sets steady_handler tt tt example_server ctx_root
              {| QueueDelete_Name := "q1" |} []) as (Hiff & _ & _).
  - vm_compute. reflexivity.
  - reflexivity.
  - apply Hiff. split; reflexivity.
Defined.

(* ===================================================================== *)
(** * Properties: the two paths of CancelJobs *)
(* ===================================================================== *)

Lemma checkCancelPerms_holds (server : SubmitServer) (ctx : Context) (jobs : list Job) :
  holds no_panic cancelling_by_id (fun _ => True) (checkCancelPerms server ctx jobs).
Proof.
  unfold checkCancelPerms.
  induction (elements (queueNamesOf jobs)) as [|queueName rest IH]; [exact I|].
  cbn [checkCancelPerms_queues]. repeat holds_step; try exact I. exact IH.
Qed.

Lemma cancelJobs_holds (server : SubmitServer) (ctx : Context) (jobs : list Job) :
  holds no_panic cancelling_by_id (fun _ => True) (cancelJobs server ctx jobs).
Proof.
  unfold cancelJobs.
  eapply holds_bind; [apply checkCancelPerms_holds|].
  intros [err|] _; [exact I|].
  eapply holds_weaken; [| |intros a _; exact I|apply cancelJobs_permitted_holds]; [done|].
  intros c. by destruct c.
Qed.

Lemma cancelJobsById_holds (server : SubmitServer) (ctx : Context) (jobId : string) :
  holds no_panic cancelling_by_id (fun _ => True) (cancelJobsById server ctx jobId).
Proof.
  unfold cancelJobsById. repeat holds_step; try exact I.
  eapply holds_bind; [apply cancelJobs_holds|].
  intros a _. by repeat holds_step.
Qed.

(** C10. A request with a job id takes the path by job id, whatever its
    queue and job set id: these fields are not read, and the active job ids
    of no job set are listed. A request without a job id, and without a
    queue or without a job set id, returns with [InvalidArgument] without
    any call to a collaborator. *)
Theorem CancelJobs_dispatch {S : Type} (h : Handler S) (s : S)
    (server : SubmitServer) (ctx : Context) (request : JobCancelRequest) :
  (Cancel_JobId request <> EmptyString ->
   CancelJobs server ctx request = cancelJobsById server ctx (Cancel_JobId request)
   /\ (forall request',
          Cancel_JobId request' = Cancel_JobId request ->
          CancelJobs server ctx request' = CancelJobs server ctx request)
   /\ (forall queue jobSetId,
          JobRepository_GetActiveJobIds queue jobSetId
          ∉ calls (trace_of (run h (CancelJobs server ctx request) s))))
  /\ (Cancel_JobId request = EmptyString ->
      Cancel_Queue request = EmptyString \/ Cancel_JobSetId request = EmptyString ->
      run h (CancelJobs server ctx request) s
      = (Some (None,
               Some (status_Errorf InvalidArgument
                       "[CancelJobs] specify either job ID or both queue name and job set ID" [])),
         s, [])).
Proof.
  split.
  - intros Hid.
    assert (forall r, Cancel_JobId r <> EmptyString ->
                      CancelJobs server ctx r = cancelJobsById server ctx (Cancel_JobId r)) as Hby.
    { intros r Hr. unfold CancelJobs. by rewrite bool_decide_eq_false_2. }
    split; [by apply Hby|]. split.
    + intros request' Heq. rewrite !Hby by congruence. by rewrite Heq.
    + intros queue jobSetId Hin. rewrite Hby in Hin by done.
      pose proof (holds_run _ _ _ _ h s (cancelJobsById_holds server ctx (Cancel_JobId request)))
        as (Ht & _ & _).
      rewrite Forall_forall in Ht. exact (Ht _ Hin).
  - intros Hid Hother. unfold CancelJobs.
    rewrite bool_decide_eq_true_2 by done. cbn [negb].
    destruct Hother as [Hqueue|Hset].
    + rewrite (bool_decide_eq_true_2 (Cancel_Queue request = EmptyString)) by done.
      by rewrite andb_false_r.
    + by rewrite (bool_decide_eq_true_2 (Cancel_JobSetId request = EmptyString)).
Qed.

Lemma CancelJobs_dispatch_witness :
  CancelJobs example_server ctx_root
             {| Cancel_JobId := "j1"; Cancel_JobSetId := "js1"; Cancel_Queue := "q1" |}
  = cancelJobsById example_server ctx_root "j1"
  /\ returned_code (result_of (run stocked_handler
                                  (CancelJobs example_server ctx_root
                                     {| Cancel_JobId := EmptyString; Cancel_JobSetId := "js1";
                                        Cancel_Queue := EmptyString |}) tt))
     = Some InvalidArgument.
Proof.
  split.
  - destruct (CancelJobs_dispatch stocked_handler tt example_server ctx_root
                {| Cancel_JobId := "j1"; Cancel_JobSetId := "js1"; Cancel_Queue := "q1" |})
      as [Hby _].
    destruct Hby as [Heq _]; [done|exact Heq].
  - destruct (CancelJobs_dispatch stocked_handler tt example_server ctx_root
                {| Cancel_JobId := EmptyString; Cancel_JobSetId := "js1";
                   Cancel_Queue := EmptyString |}) as [_ Hnone].
    rewrite Hnone; [reflexivity|reflexivity|by left].
Defined.

(* ===================================================================== *)
(** * Properties: cancelling a job set in batches *)
(* ===================================================================== *)

(** ** Batches *)



Lemma chunks_concat (fuel size : nat) (elements : list string) :
  (0 < size)%nat ->
  (length elements <= fuel)%nat ->
  concat (chunks fuel size elements) = elements.
Proof.
  intros Hsize. revert elements.
  induction fuel as [|fuel IH]; intros elements Hfuel.
  - destruct elements; [done|simpl in Hfuel; lia].
  - destruct elements as [|x elements]; [done|].
    cbn [chunks concat]. rewrite IH by (rewrite length_drop; simpl in *; lia).
    apply take_drop.
Qed.

Lemma Batch_concat (elements : list string) (batchSize : Z) :
  0 < batchSize -> concat (Batch elements batchSize) = elements.
Proof.
  intros Hsize. unfold Batch. rewrite bool_decide_eq_true_2 by done.
  apply chunks_concat; lia.
Qed.

(** ** What a trace tells of a cancellation *)

(** The loop of [cancelJobs] over the deletion result keeps the jobs that
    were deleted without error, in order, and their ids. *)
Lemma cancelledOf_deleted (deletionResult : list (Job * option foreign_error)) :
  cancelledOf deletionResult
  = (deleted_without_error deletionResult, map Job_Id (deleted_without_error deletionResult)).
Proof.
  unfold cancelledOf, deleted_without_error.
  assert (forall (acc : list Job),
             foldl (fun (acc : list Job * list string) (entry : Job * option foreign_error) =>
                      let '(cancelled, cancelledIds) := acc in
                      let '(job, err) := entry in
                      match err with
                      | Some _ => (cancelled, cancelledIds)
                      | None => (cancelled ++ [job], cancelledIds ++ [Job_Id job])
                      end)
                   (acc, map Job_Id acc) deletionResult
             = (acc ++ (filter (fun entry => entry.2 = None) deletionResult).*1,
                map Job_Id (acc ++ (filter (fun entry => entry.2 = None) deletionResult).*1)))
    as Hfold.
  { induction deletionResult as [|[job [err|]] rest IH]; intros acc.
    - cbn. by rewrite app_nil_r.
    - cbn [foldl]. rewrite IH. by rewrite filter_cons_False by (cbn; congruence).
    - cbn [foldl].
      replace (map Job_Id acc ++ [Job_Id job]) with (map Job_Id (acc ++ [job]))
        by (by rewrite map_app).
      rewrite IH. rewrite filter_cons_True by done. cbn. by rewrite <- !app_assoc. }
  exact (Hfold []).
Qed.

Lemma fetched_app (t1 t2 : list Entry) : fetched (t1 ++ t2) = fetched t1 ++ fetched t2.
Proof. apply flat_map_app. Qed.


Lemma clock_readings_app (t1 t2 : list Entry) :
  clock_readings (t1 ++ t2) = clock_readings t1 ++ clock_readings t2.
Proof. apply flat_map_app. Qed.


Lemma fetched_cons (c : Cmd) (r : Resp c) (t : list Entry) :
  fetched ({| entry_cmd := c; entry_resp := r |} :: t)
  = match c with
    | JobRepository_GetExistingJobsByIds ids => [ids]
    | _ => []
    end ++ fetched t.
Proof. reflexivity. Qed.





Lemma checkCancelPerms_looking_up (server : SubmitServer) (ctx : Context) (jobs : list Job) :
  holds no_panic looking_up (fun _ => True) (checkCancelPerms server ctx jobs).
Proof.
  unfold checkCancelPerms.
  induction (elements (queueNamesOf jobs)) as [|queueName rest IH]; [exact I|].
  cbn [checkCancelPerms_queues]. repeat holds_step; try exact I. exact IH.
Qed.


Section batches.

Context {S : Type} (h : Handler S) (server : SubmitServer) (ctx : Context).






End batches.



(** The example at work: the second batch ends 600 milliseconds after the
    start, less than a second before the deadline; the call returns with
    [DeadlineExceeded] and the ids of the first two batches. *)
Example cancel_in_a_hurry :
  let out := run ticking (cancelJobsByQueueAndSet example_server ctx_root_in_a_hurry "q1" "js1") 0 in
  returned_code (result_of out) = Some DeadlineExceeded
  /\ (fst <$> result_of out) = Some (Some {| CancelledIds := ["a"; "b"; "c"; "d"] |})
  /\ fetched (trace_of out) = [["a"; "b"]; ["c"; "d"]]
  /\ clock_readings (trace_of out) = [300000000; 600000000].
Proof. vm_compute. repeat split. Qed.

(* ===================================================================== *)
(** * Properties: the principal permission checker *)
(* ===================================================================== *)

Lemma hasPermission_true (perm : Permission) (permMap : gmap Permission (list string))
    (assert : string -> bool) :
  hasPermission perm permMap assert = true
  <-> exists value allowedValues,
      permMap !! perm = Some allowedValues /\ value ∈ allowedValues /\ assert value = true.
Proof.
  unfold hasPermission. destruct (permMap !! perm) as [allowedValues|].
  - rewrite existsb_exists. split.
    + intros (value & Hin & Ha). exists value, allowedValues.
      by rewrite list_elem_of_In.
    + intros (value & ? & [= <-] & Hin & Ha). exists value.
      by rewrite <- list_elem_of_In.
  - split; [done|]. by intros (? & ? & [=] & _).
Qed.

(** X1. The checker built by [NewPrincipalPermissionChecker] gives a
    permission to the principal of the context exactly when one of the
    scopes, of the groups or of the claims of the principal is among the
    values that the scope map, the group map or the claim map allows for
    the permission; a permission that none of the maps lists is given to
    nobody. *)
Theorem UserHasPermission_characterised
    (groupMap scopeMap claimMap : gmap Permission (list string)) (ctx : Context)
    (perm : Permission) :
  let principal := GetPrincipal ctx in
  let fits (permMap : gmap Permission (list string)) (held : list string) :=
    exists value allowedValues,
      permMap !! perm = Some allowedValues /\ value ∈ allowedValues /\ value ∈ held in
  (UserHasPermission (NewPrincipalPermissionChecker groupMap scopeMap claimMap) ctx perm = true
   <-> fits scopeMap (Principal_Scopes principal)
       \/ fits groupMap (GetGroupNames principal)
       \/ fits claimMap (Principal_Claims principal))
  /\ (scopeMap !! perm = None -> groupMap !! perm = None -> claimMap !! perm = None ->
      UserHasPermission (NewPrincipalPermissionChecker groupMap scopeMap claimMap) ctx perm = false).
Proof.
  intros principal fits.
  assert (UserHasPermission (NewPrincipalPermissionChecker groupMap scopeMap claimMap) ctx perm = true
          <-> fits scopeMap (Principal_Scopes principal)
              \/ fits groupMap (GetGroupNames principal)
              \/ fits claimMap (Principal_Claims principal)) as Hiff.
  { cbn [UserHasPermission NewPrincipalPermissionChecker].
    unfold PrincipalPermissionChecker_UserHasPermission.
    cbn [permissionScopeMap permissionGroupMap permissionClaimMap].
    rewrite !orb_true_iff, !hasPermission_true.
    unfold fits, HasScope, IsInGroup, HasClaim, GetGroupNames.
    fold principal.
    setoid_rewrite bool_decide_eq_true. tauto. }
  split; [exact Hiff|].
  intros Hs Hg Hc.
  apply not_true_is_false. rewrite Hiff. unfold fits.
  intros [H|[H|H]]; destruct H as (? & ? & Hl & _); congruence.
Qed.

(** X2. [UserOwns] finds the object owned exactly when the principal is one
    of its user owners or belongs to one of its group owners. The groups
    returned are the group owners to which the principal belongs, in the
    order of the object, but none when the principal is a user owner, even
    one who belongs to a group owner. *)
Theorem UserOwns_characterised
    (groupMap scopeMap claimMap : gmap Permission (list string)) (ctx : Context) (obj : Owned) :
  let principal := GetPrincipal ctx in
  let result := UserOwns (NewPrincipalPermissionChecker groupMap scopeMap claimMap) ctx obj in
  (result.1 = true
   <-> GetName principal ∈ GetUserOwners obj
       \/ exists group, group ∈ GetGroupOwners obj /\ group ∈ GetGroupNames principal)
  /\ result.2
     = (if decide (GetName principal ∈ GetUserOwners obj)
        then []
        else filter (fun group => group ∈ GetGroupNames principal) (GetGroupOwners obj)).
Proof.
  intros principal result. subst result.
  cbn [UserOwns NewPrincipalPermissionChecker].
  unfold PrincipalPermissionChecker_UserOwns. fold principal.
  assert (existsb (fun userName => bool_decide (userName = GetName principal)) (GetUserOwners obj) = true
          <-> GetName principal ∈ GetUserOwners obj) as Huser.
  { rewrite existsb_exists. split.
    - intros (userName & Hin & Heq). apply bool_decide_eq_true in Heq as ->.
      by apply list_elem_of_In.
    - intros Hin. exists (GetName principal). split; [by apply list_elem_of_In|].
      by apply bool_decide_eq_true. }
  assert (filter (fun group => IsInGroup principal group = true) (GetGroupOwners obj)
          = filter (fun group => group ∈ GetGroupNames principal) (GetGroupOwners obj)) as Hgroups.
  { apply list_filter_iff. intros group. unfold IsInGroup, GetGroupNames.
    by rewrite bool_decide_eq_true. }
  rewrite Hgroups. clear Hgroups.
  destruct (decide (GetName principal ∈ GetUserOwners obj)) as [Hin|Hnot].
  - rewrite (proj2 Huser Hin). cbn [fst snd]. by split; [split; [left|]|].
  - assert (existsb (fun userName => bool_decide (userName = GetName principal))
                    (GetUserOwners obj) = false) as ->.
    { apply not_true_is_false. by rewrite Huser. }
    cbn [fst snd]. split; [|done].
    rewrite bool_decide_eq_true. split.
    + intros Hlen. right.
      destruct (filter _ (GetGroupOwners obj)) as [|group rest] eqn:Hf; [simpl in Hlen; lia|].
      assert (group ∈ filter (fun group => group ∈ GetGroupNames principal) (GetGroupOwners obj))
        as Hin by (rewrite Hf; left).
      apply list_elem_of_filter in Hin as [Hg Hin]. by exists group.
    + intros [Hin|(group & Hin & Hg)]; [done|].
      assert (group ∈ filter (fun group => group ∈ GetGroupNames principal) (GetGroupOwners obj))
        as Hf by (by apply list_elem_of_filter).
      destruct (filter _ (GetGroupOwners obj)); [by apply elem_of_nil in Hf|simpl; lia].
Qed.

(* ===================================================================== *)
(** * Properties: validation of the ingress configurations *)
(* ===================================================================== *)

(** The inner loop accepts the ports of a configuration exactly when they
    are distinct and new to the port set, and records them then. *)
Lemma validateIngressPorts_accepts (ports : list Z) (index : Z) (existingPortSet : gmap Z Z) :
  match validateIngressPorts ports index existingPortSet with
  | inl portSet =>
      NoDup ports
      /\ (forall port, port ∈ ports -> existingPortSet !! port = None)
      /\ (forall port,
             portSet !! port = None <-> (port ∉ ports) /\ existingPortSet !! port = None)
  | inr _ => ~ (NoDup ports /\ forall port, port ∈ ports -> existingPortSet !! port = None)
  end.
Proof.
  revert existingPortSet. induction ports as [|port rest IH]; intros existingPortSet.
  - cbn [validateIngressPorts]. split; [constructor|]. split.
    + intros port Hin. by apply elem_of_nil in Hin.
    + intros port. split; [intros H; split; [apply not_elem_of_nil|exact H]|by intros [_ H]].
  - cbn [validateIngressPorts].
    destruct (existingPortSet !! port) as [existingIndex|] eqn:Hport.
    + intros [_ Hnew]. specialize (Hnew port (list_elem_of_here _ _)). congruence.
    + specialize (IH (<[port := index]> existingPortSet)).
      destruct (validateIngressPorts rest index (<[port := index]> existingPortSet))
        as [portSet|err].
      * destruct IH as (Hnodup & Hnew & Hset).
        assert (port ∉ rest) as Hnotin.
        { intros Hin. specialize (Hnew port Hin). by rewrite lookup_insert_eq in Hnew. }
        split; [by constructor|]. split.
        -- intros p [->|Hin]%elem_of_cons; [exact Hport|].
           specialize (Hnew p Hin).
           destruct (decide (p = port)) as [->|Hne]; [done|].
           by rewrite lookup_insert_ne in Hnew.
        -- intros p. rewrite Hset, not_elem_of_cons.
           destruct (decide (p = port)) as [->|Hne].
           ++ rewrite lookup_insert_eq. split; [by intros [_ ?]|by intros [[? _] _]].
           ++ rewrite lookup_insert_ne by done. tauto.
      * intros [Hnodup Hnew]. apply IH.
        apply NoDup_cons in Hnodup as [Hnotin Hnodup]. split; [exact Hnodup|].
        intros p Hin. rewrite lookup_insert_ne by (intros ->; done).
        apply Hnew. by right.
Qed.

Lemma validateIngressConfigs_from_accepts (configs : list IngressConfig) (index : Z)
    (existingPortSet : gmap Z Z) :
  validateIngressConfigs_from configs index existingPortSet = None
  <-> Forall (fun config => Ingress_Ports config <> []) configs
      /\ NoDup (concat (map Ingress_Ports configs))
      /\ forall port, port ∈ concat (map Ingress_Ports configs) -> existingPortSet !! port = None.
Proof.
  revert index existingPortSet.
  induction configs as [|config rest IH]; intros index existingPortSet.
  - cbn. split; [|done]. intros _. split; [constructor|]. split; [constructor|].
    intros port Hin. by apply elem_of_nil in Hin.
  - cbn [validateIngressConfigs_from map concat].
    destruct (Ingress_Ports config) as [|port ports] eqn:Hports.
    { split; [done|]. intros [Hne _]. by apply Forall_cons in Hne as [? _]. }
    rewrite <- Hports.
    pose proof (validateIngressPorts_accepts (Ingress_Ports config) index existingPortSet) as Hp.
    destruct (validateIngressPorts (Ingress_Ports config) index existingPortSet)
      as [portSet|err].
    + destruct Hp as (Hnodup & Hnew & Hset).
      rewrite IH, Forall_cons, NoDup_app. split.
      * intros (Hne & Hnd & Hrest). split; [split; [by rewrite Hports|exact Hne]|].
        split; [split; [exact Hnodup|]; split; [|exact Hnd]|].
        -- intros p Hin Hin'. apply Hrest, Hset in Hin'. tauto.
        -- intros p [Hin|Hin]%elem_of_app; [by apply Hnew|].
           by apply Hrest, Hset in Hin as [_ ?].
      * intros ([_ Hne] & (_ & Hdisj & Hnd) & Hall). split; [exact Hne|]. split; [exact Hnd|].
        intros p Hin. apply Hset. split.
        -- intros Hin'. by apply (Hdisj p).
        -- apply Hall, elem_of_app. by right.
    + split; [done|]. intros (_ & Hnd & Hall). exfalso. apply Hp.
      apply NoDup_app in Hnd as (Hnodup & _ & _). split; [exact Hnodup|].
      intros p Hin. apply Hall, elem_of_app. by left.
Qed.

(** X3. [validateIngressConfigs] accepts an item exactly when every one of
    its ingress configurations lists at least one port and no port is
    listed twice, be it by two configurations or by one. *)
Theorem validateIngressConfigs_accepts (item : JobSubmitRequestItem) :
  validateIngressConfigs item = None
  <-> Forall (fun config => Ingress_Ports config <> []) (Item_Ingress item)
      /\ NoDup (concat (map Ingress_Ports (Item_Ingress item))).
Proof.
  unfold validateIngressConfigs. rewrite validateIngressConfigs_from_accepts.
  split.
  - by intros (Hne & Hnd & _).
  - intros [Hne Hnd]. split; [exact Hne|]. split; [exact Hnd|].
    intros port _. apply lookup_empty.
Qed.

(** The inner loop keeps the port set an index of the ports seen, and an
    error of it names a port of the configuration at hand and the index
    under which the port was recorded. *)
Lemma validateIngressPorts_indexes (configs : list IngressConfig) (config : IngressConfig)
    (seen ports : list Z) (index : Z) (existingPortSet : gmap Z Z) :
  0 <= index ->
  configs !! Z.to_nat index = Some config ->
  Ingress_Ports config = seen ++ ports ->
  indexes_ports configs index seen existingPortSet ->
  match validateIngressPorts ports index existingPortSet with
  | inl portSet => indexes_ports configs index (Ingress_Ports config) portSet
  | inr err =>
      exists format port existingIndex,
        err = Errorf format [FormatInt port; FormatInt existingIndex; FormatInt index] None
        /\ 0 <= existingIndex <= index
        /\ port ∈ Ingress_Ports config
        /\ (exists existing,
              configs !! Z.to_nat existingIndex = Some existing /\ port ∈ Ingress_Ports existing)
        /\ (existingIndex = index -> listed_twice port (Ingress_Ports config))
  end.
Proof.
  intros Hindex Hconfig. revert seen existingPortSet.
  induction ports as [|port rest IH]; intros seen existingPortSet Hports Hinv.
  - cbn. rewrite Hports, app_nil_r. exact Hinv.
  - cbn [validateIngressPorts].
    assert (port ∈ Ingress_Ports config) as Hlisted.
    { rewrite Hports. apply elem_of_app. right. left. }
    destruct (existingPortSet !! port) as [existingIndex|] eqn:Hport.
    + destruct (Hinv port existingIndex Hport) as (Hrange & Hexisting & Hseen).
      eexists _, port, existingIndex. split; [reflexivity|]. split; [exact Hrange|].
      split; [exact Hlisted|]. split; [exact Hexisting|].
      intros Heq. apply Hseen, list_elem_of_split in Heq as (before & between & ->).
      exists before, between, rest. by rewrite Hports, <- !app_assoc.
    + apply (IH (seen ++ [port])).
      * by rewrite <- app_assoc.
      * intros p k. destruct (decide (p = port)) as [->|Hne].
        -- rewrite lookup_insert_eq. intros [= <-]. split; [lia|].
           split; [by exists config|]. intros _. apply elem_of_app. right. left.
        -- rewrite lookup_insert_ne by done. intros Hp.
           destruct (Hinv p k Hp) as (Hrange & Hexisting & Hseen).
           split; [exact Hrange|]. split; [exact Hexisting|].
           intros Heq. apply elem_of_app. left. by apply Hseen.
Qed.

Lemma validateIngressConfigs_from_indexes (configs rest : list IngressConfig) (n : nat)
    (existingPortSet : gmap Z Z) :
  drop n configs = rest ->
  indexes_ports configs (Z.of_nat n) [] existingPortSet ->
  forall format port existingIndex index wrapped,
    validateIngressConfigs_from rest (Z.of_nat n) existingPortSet
    = Some (Errorf format [FormatInt port; FormatInt existingIndex; FormatInt index] wrapped) ->
    0 <= existingIndex <= index
    /\ exists existing config,
        configs !! Z.to_nat existingIndex = Some existing
        /\ configs !! Z.to_nat index = Some config
        /\ port ∈ Ingress_Ports existing
        /\ port ∈ Ingress_Ports config
        /\ (existingIndex = index -> listed_twice port (Ingress_Ports config)).
Proof.
  revert n existingPortSet.
  induction rest as [|config rest IH]; intros n existingPortSet Hdrop Hinv
    format port existingIndex index wrapped; [done|].
  cbn [validateIngressConfigs_from].
  assert (configs !! n = Some config) as Hconfig.
  { rewrite <- (Nat.add_0_r n), <- lookup_drop, Hdrop. reflexivity. }
  assert (drop (S n) configs = rest) as Hdrop'.
  { rewrite (drop_S _ _ _ Hconfig) in Hdrop. congruence. }
  destruct (Ingress_Ports config) as [|p ports] eqn:Hports; [done|].
  rewrite <- Hports.
  pose proof (validateIngressPorts_indexes configs config [] (Ingress_Ports config)
                (Z.of_nat n) existingPortSet) as Hp.
  rewrite Nat2Z.id in Hp.
  specialize (Hp (Zle_0_nat n) Hconfig eq_refl Hinv).
  destruct (validateIngressPorts (Ingress_Ports config) (Z.of_nat n) existingPortSet)
    as [portSet|err].
  - replace (Z.of_nat n + 1) with (Z.of_nat (S n)) by lia.
    apply IH; [exact Hdrop'|].
    intros q k Hq. destruct (Hp q k Hq) as (Hrange & Hex & _).
    split; [lia|]. split; [exact Hex|]. lia.
  - destruct Hp as (format' & port' & existingIndex' & -> & Hrange & Hin & (existing & Hex & Hin')
                    & Htwice).
    intros [= <- <- <- <- <-].
    split; [exact Hrange|]. exists existing, config.
    by rewrite Nat2Z.id.
Qed.

(** X4. When [validateIngressConfigs] refuses an item for a port with two
    ingress configurations, the two indexes of the error are indexes of
    ingress configurations of the item that list the port, the first not
    above the second; when the two indexes are equal, that configuration
    lists the port twice. *)
Theorem validateIngressConfigs_names_the_configurations (item : JobSubmitRequestItem)
    (format : string) (port existingIndex index : Z) (wrapped : option error) :
  validateIngressConfigs item
  = Some (Errorf format [FormatInt port; FormatInt existingIndex; FormatInt index] wrapped) ->
  0 <= existingIndex <= index
  /\ exists existing config,
      Item_Ingress item !! Z.to_nat existingIndex = Some existing
      /\ Item_Ingress item !! Z.to_nat index = Some config
      /\ port ∈ Ingress_Ports existing
      /\ port ∈ Ingress_Ports config
      /\ (existingIndex = index -> listed_twice port (Ingress_Ports config)).
Proof.
  unfold validateIngressConfigs. intros Herr.
  apply (validateIngressConfigs_from_indexes (Item_Ingress item) (Item_Ingress item) 0 ∅
           eq_refl) with (format := format) (wrapped := wrapped); [|exact Herr].
  intros p k Hp. by rewrite lookup_empty in Hp.
Qed.

Lemma validateIngressConfigs_names_the_configurations_witness :
  (0 <= 0 <= 1
   /\ exists existing config,
       Item_Ingress (example_item_with_ingress [ingress_on [80; 443]; ingress_on [8080; 80]])
       !! Z.to_nat 0 = Some existing
       /\ Item_Ingress (example_item_with_ingress [ingress_on [80; 443]; ingress_on [8080; 80]])
          !! Z.to_nat 1 = Some config
       /\ 80 ∈ Ingress_Ports existing
       /\ 80 ∈ Ingress_Ports config
       /\ (0 = 1 -> listed_twice 80 (Ingress_Ports config)))
  /\ (0 <= 0 <= 0
      /\ exists existing config,
          Item_Ingress (example_item_with_ingress [ingress_on [80; 80]]) !! Z.to_nat 0
          = Some existing
          /\ Item_Ingress (example_item_with_ingress [ingress_on [80; 80]]) !! Z.to_nat 0
             = Some config
          /\ 80 ∈ Ingress_Ports existing
          /\ 80 ∈ Ingress_Ports config
          /\ (0 = 0 -> listed_twice 80 (Ingress_Ports config)))
  /\ (0 <= 0 <= 1
      /\ exists existing config,
          Item_Ingress (example_item_with_ingress [ingress_on [80]; ingress_on [80; 80]])
          !! Z.to_nat 0 = Some existing
          /\ Item_Ingress (example_item_with_ingress [ingress_on [80]; ingress_on [80; 80]])
             !! Z.to_nat 1 = Some config
          /\ 80 ∈ Ingress_Ports existing
          /\ 80 ∈ Ingress_Ports config
          /\ (0 = 1 -> listed_twice 80 (Ingress_Ports config))).
Proof.
  split; [|split].
  - eapply (validateIngressConfigs_names_the_configurations
              (example_item_with_ingress [ingress_on [80; 443]; ingress_on [8080; 80]])).
    vm_compute. reflexivity.
  - eapply (validateIngressConfigs_names_the_configurations
              (example_item_with_ingress [ingress_on [80; 80]])).
    vm_compute. reflexivity.
  - eapply (validateIngressConfigs_names_the_configurations
              (example_item_with_ingress [ingress_on [80]; ingress_on [80; 80]])).
    vm_compute. reflexivity.
Defined.

(* ===================================================================== *)
(** * Properties: the validators of request items *)
(* ===================================================================== *)

(** The two shape tests of the validators and of [createJobsObjects] pass
    exactly on the items that are not malformed. *)
Lemma shape_tests_malformed (item : JobSubmitRequestItem) :
  bool_decide (is_Some (Item_PodSpec item)) && bool_decide (0 < length (Item_PodSpecs item))%nat
  = false
  /\ bool_decide (length (GetAllPodSpecs item) = 0%nat) = false
  <-> ~ malformed item.
Proof.
  unfold malformed, GetAllPodSpecs.
  destruct (Item_PodSpec item) as [spec|], (Item_PodSpecs item) as [|first rest]; cbn.
  - split; [intros _ [[_ ?]|[? _]]; done|done].
  - split; [by intros [? _]|]. intros H. exfalso. apply H. left. by split; [eexists|].
  - split; [by intros [_ ?]|]. intros H. exfalso. apply H. by right.
  - split; [intros _ [[[? ?] _]|[_ ?]]; done|done].
Qed.

(** Updating the pod specifications of an item in place keeps the shape of
    the item, and the item then gives the updated pod specifications. *)
Lemma GetAllPodSpecs_withPodSpecs (item : JobSubmitRequestItem) (update : PodSpec -> PodSpec) :
  GetAllPodSpecs (withPodSpecs item (map update (GetAllPodSpecs item)))
  = map update (GetAllPodSpecs item)
  /\ (malformed (withPodSpecs item (map update (GetAllPodSpecs item))) <-> malformed item).
Proof.
  unfold malformed, GetAllPodSpecs, withPodSpecs, updatedPodSpec, updatedPodSpecs.
  cbn [Item_PodSpec Item_PodSpecs].
  destruct (Item_PodSpecs item) as [|first rest], (Item_PodSpec item) as [spec|]; cbn.
  - split; [done|]. split; (intros [[_ ?]|[? _]]; done).
  - split; [done|]. split; (intros _; by right).
  - split; [done|]. split; (intros _; left; by split; [eexists|]).
  - split; [done|]. split; (intros [[[? ?] _]|[_ ?]]; done).
Qed.

Section item_validation_properties.

Variable ValidatePodSpec : PodSpec -> N -> option foreign_error.

(** The loop over the pod specifications stops at the first one that
    [ValidatePodSpec] refuses, and names it by its index. *)
Lemma validatePodSpecs_first_fault (maxPodSize : N) (j : nat) (podSpecs : list PodSpec) :
  match validatePodSpecs ValidatePodSpec maxPodSize j podSpecs with
  | None => Forall (fun podSpec => ValidatePodSpec podSpec maxPodSize = None) podSpecs
  | Some fault =>
      exists (k : nat) podSpec err,
        fault = FaultPodSpec (j + k) podSpec err
        /\ podSpecs !! k = Some podSpec
        /\ ValidatePodSpec podSpec maxPodSize = Some err
        /\ Forall (fun podSpec => ValidatePodSpec podSpec maxPodSize = None) (take k podSpecs)
  end.
Proof.
  revert j. induction podSpecs as [|podSpec rest IH]; intros j; [constructor|].
  cbn [validatePodSpecs].
  destruct (ValidatePodSpec podSpec maxPodSize) as [err|] eqn:Hv.
  - exists 0%nat, podSpec, err. rewrite Nat.add_0_r. repeat split; [done|constructor].
  - specialize (IH (S j)).
    destruct (validatePodSpecs ValidatePodSpec maxPodSize (S j) rest) as [fault|].
    + destruct IH as (k & podSpec' & err & -> & Hk & Herr & Hbefore).
      exists (S k), podSpec', err.
      replace (j + S k)%nat with (S j + k)%nat by lia.
      repeat split; [done|done|by constructor].
    + by constructor.
Qed.

(** X5. The validator of [validation.JobSubmitRequestItem] leaves the item
    as it is, and accepts it exactly when the item gives either [pod_spec]
    or [pod_specs], [ValidatePodSpec] accepts each of its pod
    specifications, and [validateIngressConfigs] accepts its ingress
    configurations. An error about a pod specification names the first
    one that [ValidatePodSpec] refuses, by its index. *)
Theorem validation_JobSubmitRequestItem_accepts (maxPodSize : N) (item : JobSubmitRequestItem) :
  let result := validation_JobSubmitRequestItem ValidatePodSpec maxPodSize item in
  let valid := fun podSpec => ValidatePodSpec podSpec maxPodSize = None in
  result.1 = item
  /\ (result.2 = None
      <-> ~ malformed item
          /\ Forall valid (GetAllPodSpecs item)
          /\ validateIngressConfigs item = None)
  /\ (forall j podSpec err,
        result.2 = Some (FaultPodSpec j podSpec err) ->
        GetAllPodSpecs item !! j = Some podSpec
        /\ ValidatePodSpec podSpec maxPodSize = Some err
        /\ Forall valid (take j (GetAllPodSpecs item))).
Proof.
  intros result valid. subst result valid.
  unfold validation_JobSubmitRequestItem. cbn [fst snd].
  split; [reflexivity|].
  pose proof (shape_tests_malformed item) as Hshape.
  pose proof (validatePodSpecs_first_fault maxPodSize 0 (GetAllPodSpecs item)) as Hspecs.
  destruct (bool_decide (is_Some (Item_PodSpec item))
            && bool_decide (0 < length (Item_PodSpecs item))%nat).
  { split; [|done]. split; [done|]. intros [Hwell _]. apply Hshape in Hwell as [? _]. done. }
  destruct (bool_decide (length (GetAllPodSpecs item) = 0%nat)).
  { split; [|done]. split; [done|]. intros [Hwell _]. apply Hshape in Hwell as [_ ?]. done. }
  assert (~ malformed item) as Hwell by (by apply Hshape).
  destruct (validatePodSpecs ValidatePodSpec maxPodSize 0 (GetAllPodSpecs item)) as [fault|].
  - destruct Hspecs as (k & podSpec & err & -> & Hk & Herr & Hbefore). split.
    + split; [done|]. intros (_ & Hall & _).
      rewrite Forall_lookup in Hall. specialize (Hall k podSpec Hk). congruence.
    + by intros j podSpec' err' [= <- <- <-].
  - split.
    + destruct (validateIngressConfigs item); cbn; [|done].
      split; [done|]. by intros (_ & _ & ?).
    + by destruct (validateIngressConfigs item).
Qed.

(** X6. The validator of [ApplyDefaultPodSpec] validates the item after the
    update of its pod specifications: the item it leaves gives the updated
    pod specifications, in the field in which the item gave them, and it
    is accepted exactly when the item gives either [pod_spec] or
    [pod_specs], [ValidatePodSpec] accepts each pod specification as
    updated, and the ingress configurations are valid. *)
Theorem ApplyDefaultPodSpec_validates_updated (maxPodSize : N) (update : PodSpec -> PodSpec)
    (item : JobSubmitRequestItem) :
  let result :=
    ApplyDefaultPodSpec (validation_JobSubmitRequestItem ValidatePodSpec maxPodSize) update item in
  GetAllPodSpecs result.1 = map update (GetAllPodSpecs item)
  /\ (Item_PodSpecs item = [] <-> Item_PodSpecs result.1 = [])
  /\ (result.2 = None
      <-> ~ malformed item
          /\ Forall (fun podSpec => ValidatePodSpec (update podSpec) maxPodSize = None)
                    (GetAllPodSpecs item)
          /\ validateIngressConfigs item = None).
Proof.
  intros result. subst result. unfold ApplyDefaultPodSpec.
  destruct (validation_JobSubmitRequestItem_accepts maxPodSize
              (withPodSpecs item (map update (GetAllPodSpecs item)))) as (Hitem & Hiff & _).
  destruct (GetAllPodSpecs_withPodSpecs item update) as [Hspecs Hshape].
  rewrite Hitem. split; [exact Hspecs|]. split.
  - unfold withPodSpecs, updatedPodSpecs, GetAllPodSpecs. cbn [Item_PodSpecs].
    by destruct (Item_PodSpecs item).
  - rewrite Hiff, Hspecs, Hshape, Forall_fmap. reflexivity.
Qed.

End item_validation_properties.

(* ===================================================================== *)
(** * Properties: the creation of a queue *)
(* ===================================================================== *)

Section queue_management_properties.

Variable NewQueue : api_Queue -> Queue + foreign_error.
Context {S : Type} (h : Handler S).

(** X7. [CreateQueue] contacts the registry only for a caller that has the
    permission [create_queue], and only to create the queue that
    [NewQueue] makes of the request, in which a request that names no user
    owner has got the caller as its user owner. A caller without the
    permission is refused with [PermissionDenied]; the operation succeeds
    exactly when the registry accepts the queue, and returns
    [AlreadyExists] exactly when the error of the registry is, or wraps, an
    error that the queue already exists. *)
Theorem CreateQueue_outcome (s : S) (server : SubmitServer) (ctx : Context) (request : api_Queue) :
  let out := run h (CreateQueue NewQueue server ctx request) s in
  let permitted := UserHasPermission (server_permissions server) ctx permissions.CreateQueue in
  let validated := NewQueue (withDefaultOwner ctx request) in
  let answer queue := (h (QueueRepository_CreateQueue queue) s).1 in
  api_Queue_UserOwners (withDefaultOwner ctx request)
  = (if api_Queue_UserOwners request is [] then [GetName (GetPrincipal ctx)]
     else api_Queue_UserOwners request)
  /\ (permitted = false ->
      calls (trace_of out) = [] /\ returned_code (result_of out) = Some PermissionDenied)
  /\ (forall queue,
        QueueRepository_CreateQueue queue ∈ calls (trace_of out) ->
        permitted = true /\ validated = inl queue)
  /\ (returned_code (result_of out) = Some OK
      <-> permitted = true /\ exists queue, validated = inl queue /\ answer queue = None)
  /\ (returned_code (result_of out) = Some AlreadyExists
      <-> permitted = true
          /\ exists queue err,
              validated = inl queue /\ answer queue = Some err
              /\ is_Some (errors_As_ErrQueueAlreadyExists err)).
Proof.
  intros out permitted validated answer. subst out permitted validated answer.
  split.
  { unfold withDefaultOwner. destruct (api_Queue_UserOwners request) eqn:Hown; cbn; [reflexivity|exact Hown]. }
  unfold CreateQueue, checkPermission.
  destruct (UserHasPermission (server_permissions server) ctx permissions.CreateQueue).
  2: { cbn. split; [done|]. split; [by intros queue Hin%elem_of_nil|].
       split; (split; [done|by intros [? _]]). }
  destruct (NewQueue (withDefaultOwner ctx request)) as [queue|err].
  2: { cbn. split; [done|]. split; [by intros queue Hin%elem_of_nil|].
       split; (split; [done|]).
       - by intros (_ & queue & [=] & _).
       - by intros (_ & queue & err' & [=] & _). }
  change (run h (mbind ?f (call ?c)) s) with (run h (Call c f) s).
  cbn [run].
  destruct (h (QueueRepository_CreateQueue queue) s) as [[err|] s1] eqn:Hanswer.
  - destruct (errors_As_ErrQueueAlreadyExists err) as [name|] eqn:Has; cbn.
    + split; [done|]. split.
      { intros queue' Hin. apply list_elem_of_singleton in Hin as [= ->]. done. }
      split; (split; [try done|]).
      * intros (_ & queue' & [= <-] & Hnone). rewrite Hanswer in Hnone. done.
      * intros _. split; [done|]. exists queue, err. rewrite Hanswer.
        split; [done|]. split; [done|]. rewrite Has. by eexists.
      * done.
    + split; [done|]. split.
      { intros queue' Hin. apply list_elem_of_singleton in Hin as [= ->]. done. }
      split; (split; [try done|]).
      * intros (_ & queue' & [= <-] & Hnone). rewrite Hanswer in Hnone. done.
      * intros (_ & queue' & err' & [= <-] & Hsome & Hexists).
        rewrite Hanswer in Hsome. cbn in Hsome. injection Hsome as <-.
        rewrite Has in Hexists. by apply is_Some_None in Hexists.
  - cbn. split; [done|]. split.
    { intros queue' Hin. apply list_elem_of_singleton in Hin as [= ->]. done. }
    split; (split; [try done|]).
    + intros _. split; [done|]. exists queue. by rewrite Hanswer.
    + done.
    + intros (_ & queue' & err' & [= <-] & Hsome & _). rewrite Hanswer in Hsome. done.
Qed.

End queue_management_properties.

(* ===================================================================== *)
(** * Reasoning about traces with their answers *)
(* ===================================================================== *)

Lemma traced_run {S A : Type} (R : list Entry -> option A -> Prop) (p : Prog A)
    (h : Handler S) (s : S) :
  traced R p -> R (trace_of (run h p s)) (result_of (run h p s)).
Proof.
  revert R s. induction p as [a| |c k IH]; intros R s Hp.
  - exact Hp.
  - exact Hp.
  - cbn [run]. destruct (h c s) as [r s1].
    specialize (IH r _ s1 (Hp r)).
    destruct (run h (k r) s1) as [[a s2] t]. exact IH.
Qed.

Lemma traced_weaken {A : Type} (R R' : list Entry -> option A -> Prop) (p : Prog A) :
  (forall t a, R t a -> R' t a) -> traced R p -> traced R' p.
Proof.
  revert R R'. induction p as [a| |c k IH]; intros R R' HR Hp.
  - by apply HR.
  - by apply HR.
  - intros r. eapply IH; [|apply Hp]. intros t a. apply HR.
Qed.

Lemma traced_bind {A B : Type} (R1 : list Entry -> option A -> Prop)
    (R : list Entry -> option B -> Prop) (p : Prog A) (f : A -> Prog B) :
  traced R1 p ->
  (forall t1 a, R1 t1 (Some a) -> traced (fun t2 b => R (t1 ++ t2) b) (f a)) ->
  (forall t1, R1 t1 None -> R t1 None) ->
  traced R (p ≫= f).
Proof.
  revert R1 R. induction p as [a| |c k IH]; intros R1 R Hp Hf Hpanic.
  - exact (Hf [] a Hp).
  - exact (Hpanic [] Hp).
  - intros r. apply (IH r (fun t a => R1 (answered c r :: t) a)).
    + apply Hp.
    + intros t1 a H1. exact (Hf _ a H1).
    + intros t1 H1. exact (Hpanic _ H1).
Qed.

(** What [holds] tells of a program, told of its traces. *)
Lemma holds_traced {A : Type} (panics : Prop) (P : Cmd -> Prop) (Q : A -> Prop) (p : Prog A) :
  holds panics P Q p ->
  traced (fun t a => Forall P (calls t)
                     /\ match a with
                        | Some a => Q a
                        | None => panics
                        end) p.
Proof.
  induction p as [a| |c k IH]; intros Hp.
  - split; [constructor|exact Hp].
  - split; [constructor|exact Hp].
  - destruct Hp as [Hc Hk]. intros r.
    eapply traced_weaken; [|apply IH, Hk].
    intros t a [Ht Ha]. split; [by constructor|exact Ha].
Qed.

Ltac traced_step :=
  match goal with
  | |- traced _ (Ret _) => cbn [traced]
  | |- traced _ Panic => cbn [traced]
  | |- traced _ (Call _ _) => cbn [traced]; intros ?
  | |- traced _ (mret _) => change (@mret Prog _ ?A ?a) with (@Ret A a); cbn [traced]
  | |- traced _ (mbind ?f (call ?c)) =>
      change (mbind f (call c)) with (Call c (fun r => f r)); cbn beta
  | |- traced _ (match ?x with _ => _ end) => destruct x eqn:?
  end.

Lemma minted_app (t1 t2 : list Entry) : minted (t1 ++ t2) = minted t1 ++ minted t2.
Proof. apply flat_map_app. Qed.

(** The validations of pod specifications mint no id and do not read the
    clock. *)
Lemma validating_silent (t : list Entry) :
  Forall validating (calls t) -> minted t = [] /\ clock_readings t = [].
Proof.
  induction t as [|[c r] t IH]; [done|].
  intros [Hc Ht]%Forall_cons. destruct (IH Ht) as [Hm Hr].
  by destruct c.
Qed.

(* ===================================================================== *)
(** * Properties: the creation of the job objects *)
(* ===================================================================== *)

Lemma createJobsObjects_podSpecs_validating (server : SubmitServer) (request : JobSubmitRequest)
    (item : JobSubmitRequestItem) (i j : Z) (podSpecs : list PodSpec) :
  holds no_panic validating (fun _ => True)
        (createJobsObjects_podSpecs server request item i j podSpecs).
Proof.
  revert j. induction podSpecs as [|podSpec rest IH]; intros j.
  - exact I.
  - cbn [createJobsObjects_podSpecs].
    repeat holds_step; try exact I.
    eapply holds_bind; [apply IH|].
    intros a _. by repeat holds_step.
Qed.

Lemma createJobsObjects_items_traced (server : SubmitServer) (request : JobSubmitRequest)
    (owner : string) (groups : list string) (i : Z) (items : list JobSubmitRequestItem) :
  traced (fun t r =>
            match r with
            | Some (inl jobs) =>
                Forall2 copied_from items jobs
                /\ map Job_Id jobs = minted t
                /\ map Job_Created jobs = clock_readings t
            | Some (inr _) => True
            | None => False
            end)
         (createJobsObjects_items server request owner groups i items).
Proof.
  revert i. induction items as [|item rest IH]; intros i.
  - cbn. by split; [constructor|].
  - cbn [createJobsObjects_items].
    destruct (bool_decide (is_Some (Item_PodSpec item))
              && bool_decide (0 < length (Item_PodSpecs item))%nat); [exact I|].
    destruct (bool_decide (length (GetAllPodSpecs item) = 0%nat)); [exact I|].
    destruct (ValidateJobSubmitRequestItem item); [exact I|].
    eapply traced_bind.
    { apply holds_traced, createJobsObjects_podSpecs_validating. }
    2: { by intros t1 [_ ?]. }
    intros t1 [podSpecs|err] [Ht1 _]; [|exact I].
    destruct (validating_silent t1 Ht1) as [Hm1 Hr1].
    traced_step. traced_step. traced_step. traced_step.
    eapply traced_bind; [apply IH| |].
    2: { intros t2 []. }
    intros t2 [jobs|err] Hjobs; [|exact I].
    destruct Hjobs as (Hcopied & Hids & Hcreated).
    traced_step.
    rewrite minted_app, clock_readings_app, Hm1, Hr1.
    cbn [app]. rewrite app_nil_r.
    split; [|split].
    + constructor; [|exact Hcopied]. by repeat split.
    + cbn. by rewrite Hids.
    + cbn. by rewrite Hcreated.
Qed.

(** X8. [createJobs] refuses a request without a job set id or without a
    queue before it makes any call. When it succeeds, it has created one job
    for each item of the request, in the order of the items; the job has
    the client id, the priority, the required node labels, the ingress and
    service configurations of its item and its namespace, or the namespace
    [default] when the item names none; the ids of the jobs are the ids that
    the id generator gave, in that order, one for each job, and the times of
    creation are the readings of the clock. *)
Theorem createJobs_one_job_per_item {S : Type} (h : Handler S) (s : S) (server : SubmitServer)
    (request : JobSubmitRequest) (owner : string) (groups : list string) :
  let out := run h (createJobs server request owner groups) s in
  (Req_JobSetId request = EmptyString \/ Req_Queue request = EmptyString ->
   trace_of out = [] /\ exists err, result_of out = Some (inr err))
  /\ (forall jobs,
        result_of out = Some (inl jobs) ->
        Forall2 copied_from (Req_JobRequestItems request) jobs
        /\ map Job_Id jobs = minted (trace_of out)
        /\ map Job_Created jobs = clock_readings (trace_of out)).
Proof.
  intros out. subst out. unfold createJobs, createJobsObjects. split.
  - intros [Hempty|Hempty].
    + rewrite bool_decide_eq_true_2 by exact Hempty. cbn. by eauto.
    + rewrite (bool_decide_eq_true_2 (Req_Queue request = EmptyString)) by exact Hempty.
      destruct (bool_decide (Req_JobSetId request = EmptyString)); cbn; by eauto.
  - intros jobs Hjobs.
    destruct (bool_decide (Req_JobSetId request = EmptyString)); [done|].
    destruct (bool_decide (Req_Queue request = EmptyString)); [done|].
    pose proof (traced_run _ _ h s
                  (createJobsObjects_items_traced server request owner groups 0
                     (Req_JobRequestItems request))) as Hrun.
    cbv beta in Hrun. by rewrite Hjobs in Hrun.
Qed.

Lemma createJobs_one_job_per_item_witness :
  Forall2 copied_from (Req_JobRequestItems example_request) example_jobs
  /\ map Job_Id example_jobs
     = minted (trace_of (run steady_handler
                           (createJobs example_server example_request "alice" ["admins"]) tt))
  /\ map Job_Created example_jobs
     = clock_readings (trace_of (run steady_handler
                                   (createJobs example_server example_request "alice" ["admins"])
                                   tt)).
Proof.
  destruct (createJobs_one_job_per_item steady_handler tt example_server example_request
              "alice" ["admins"]) as [_ Hjobs].
  apply Hjobs. vm_compute. reflexivity.
Defined.

(* ===================================================================== *)
(** * Properties: the course of a submission after the jobs are created *)
(* ===================================================================== *)

Lemma drop_lookup_case {A : Type} (l : list A) (i : nat) :
  drop i l = match l !! i with
             | Some x => x :: drop (S i) l
             | None => []
             end
  /\ (l !! i = None -> drop (S i) l = []).
Proof.
  destruct (l !! i) as [x|] eqn:Hi.
  - split; [by apply drop_S|done].
  - apply lookup_ge_None in Hi. split; [|intros _]; apply drop_ge; lia.
Qed.

(** The loop of [SubmitJobs] over the results of the job store panics on
    a result beyond the last job, unless the result is a duplicate without
    error. *)
Lemma partitionResults_out_of_range (jobs : list Job) (submissionResults : list SubmitJobResult)
    (i : nat) (acc : SubmissionOutcome) (k : nat) (submissionResult : SubmitJobResult) :
  submissionResults !! k = Some submissionResult ->
  (length jobs <= i + k)%nat ->
  ~ duplicate_result submissionResult ->
  partitionResults jobs i submissionResults acc = None.
Proof.
  revert i acc k. induction submissionResults as [|r rest IH]; intros i acc k Hk Hrange Hr;
    [done|].
  cbn [partitionResults]. destruct k as [|k].
  - injection Hk as ->. rewrite Nat.add_0_r in Hrange.
    rewrite (lookup_ge_None_2 jobs i Hrange).
    destruct (SubmitJobResult_Error submissionResult) eqn:Herr; [done|].
    destruct (SubmitJobResult_DuplicateDetected submissionResult) eqn:Hdup; [|done].
    by destruct Hr.
  - cbn in Hk.
    assert (forall acc', partitionResults jobs (S i) rest acc' = None) as Hrest.
    { intros acc'. apply (IH (S i) acc' k Hk); [lia|exact Hr]. }
    destruct (SubmitJobResult_Error r); [by destruct (jobs !! i)|].
    destruct (SubmitJobResult_DuplicateDetected r); [done|by destruct (jobs !! i)].
Qed.

(** The loop of [SubmitJobs] over the results of the job store answers
    every result in order, and sorts the results into three classes; it
    panics only when the job store gave more results than there are jobs. *)
Lemma partitionResults_classes (jobs : list Job) (i : nat)
    (submissionResults : list SubmitJobResult) (acc : SubmissionOutcome) :
  match partitionResults jobs i submissionResults acc with
  | Some out =>
      outcome_responses out = outcome_responses acc ++ map response_of submissionResults
      /\ outcome_doubleSubmits out
         = outcome_doubleSubmits acc ++ filter duplicate_result submissionResults
      /\ outcome_createdJobs out
         = outcome_createdJobs acc
           ++ (filter (fun p => created_result p.2) (zip (drop i jobs) submissionResults)).*1
      /\ map jobFailure_job (outcome_jobFailures out)
         = map jobFailure_job (outcome_jobFailures acc)
           ++ (filter (fun p => failed_result p.2) (zip (drop i jobs) submissionResults)).*1
      /\ (outcome_jobFailures out = []
          <-> outcome_jobFailures acc = [] /\ Forall (fun r => ~ failed_result r) submissionResults)
  | None => (length jobs < i + length submissionResults)%nat
  end.
Proof.
  revert i acc. induction submissionResults as [|r rest IH]; intros i acc.
  - cbn [partitionResults map filter]. rewrite !app_nil_r.
    rewrite zip_with_nil_r. cbn. rewrite !app_nil_r.
    do 4 (split; [done|]). split; [done|by intros [? _]].
  - cbn [partitionResults].
    destruct (drop_lookup_case jobs i) as [Hdrop Hrest].
    destruct (SubmitJobResult_Error r) as [err|] eqn:Herr.
    + destruct (jobs !! i) as [job|] eqn:Hi.
      2: { apply lookup_ge_None in Hi. cbn. lia. }
      specialize (IH (S i)). rewrite Hdrop.
      match goal with |- match partitionResults _ _ _ ?a with _ => _ end => specialize (IH a) end.
      destruct (partitionResults jobs (S i) rest _) as [out|]; [|cbn in *; lia].
      destruct IH as (Hresp & Hdup & Hcreated & Hfail & Hnone).
      cbn [outcome_responses outcome_doubleSubmits outcome_createdJobs outcome_jobFailures] in *.
      assert (failed_result r) as Hf by (unfold failed_result; rewrite Herr; by eexists).
      assert (~ duplicate_result r) as Hnd by (intros [? _]; congruence).
      assert (~ created_result r) as Hnc by (intros [? _]; congruence).
      rewrite Hresp, Hdup, Hcreated, Hfail.
      cbn [map zip_with fmap list_fmap].
      rewrite (filter_cons_False duplicate_result) by done.
      rewrite (filter_cons_False (fun p => created_result p.2)) by done.
      rewrite (filter_cons_True (fun p => failed_result p.2)) by done.
      rewrite map_app, <- !app_assoc. cbn.
      unfold response_of at 2. rewrite Herr. cbn.
      do 4 (split; [done|]). split.
      * intros Hempty. apply Hnone in Hempty as [Hacc _]. by destruct (outcome_jobFailures acc).
      * intros [_ Hall]. apply Forall_cons in Hall as [? _]. done.
    + assert (~ failed_result r) as Hnf.
      { unfold failed_result. rewrite Herr. by intros []. }
      destruct (SubmitJobResult_DuplicateDetected r) eqn:Hdup.
      * assert (duplicate_result r) as Hd by done.
        assert (~ created_result r) as Hnc by (intros [_ ?]; congruence).
        specialize (IH (S i)).
        match goal with |- match partitionResults _ _ _ ?a with _ => _ end => specialize (IH a) end.
        destruct (partitionResults jobs (S i) rest _) as [out|]; [|cbn in *; lia].
        destruct IH as (Hresp & Hdups & Hcreated & Hfail & Hnone).
        cbn [outcome_responses outcome_doubleSubmits outcome_createdJobs outcome_jobFailures] in *.
        rewrite Hresp, Hdups, Hcreated, Hfail.
        rewrite (filter_cons_True duplicate_result) by done.
        assert (forall P `{forall p, Decision (P p)},
                   (forall job, ~ P (job, r)) ->
                   filter P (zip (drop i jobs) (r :: rest)) = filter P (zip (drop (S i) jobs) rest))
          as Hskip.
        { intros P HP Hr. rewrite Hdrop. destruct (jobs !! i) as [job|].
          - cbn [zip_with]. by rewrite filter_cons_False by apply Hr.
          - by rewrite Hrest. }
        rewrite !Hskip by done.
        rewrite <- !app_assoc. cbn.
        unfold response_of at 2. rewrite Herr. cbn.
        do 4 (split; [done|]). split.
        -- intros Hempty. apply Hnone in Hempty as [Hacc Hall]. split; [done|by constructor].
        -- intros [Hacc Hall]. apply Forall_cons in Hall as [_ Hall]. by apply Hnone.
      * assert (created_result r) as Hc by done.
        assert (~ duplicate_result r) as Hnd by (intros [_ ?]; congruence).
        destruct (jobs !! i) as [job|] eqn:Hi.
        2: { apply lookup_ge_None in Hi. cbn. lia. }
        specialize (IH (S i)). rewrite Hdrop.
        match goal with |- match partitionResults _ _ _ ?a with _ => _ end => specialize (IH a) end.
        destruct (partitionResults jobs (S i) rest _) as [out|]; [|cbn in *; lia].
        destruct IH as (Hresp & Hdups & Hcreated & Hfail & Hnone).
        cbn [outcome_responses outcome_doubleSubmits outcome_createdJobs outcome_jobFailures] in *.
        rewrite Hresp, Hdups, Hcreated, Hfail.
        cbn [map zip_with fmap list_fmap].
        rewrite (filter_cons_False duplicate_result) by done.
        rewrite (filter_cons_True (fun p => created_result p.2)) by done.
        rewrite (filter_cons_False (fun p => failed_result p.2)) by done.
        rewrite <- !app_assoc. cbn.
        unfold response_of at 2. rewrite Herr. cbn.
        do 4 (split; [done|]). split.
        -- intros Hempty. apply Hnone in Hempty as [Hacc Hall]. split; [done|by constructor].
        -- intros [Hacc Hall]. apply Forall_cons in Hall as [_ Hall]. by apply Hnone.
Qed.

Lemma createJobFailuresWithReason_jobs (jobs : list Job) (reason : string * option error) :
  map jobFailure_job (createJobFailuresWithReason jobs reason) = jobs.
Proof.
  unfold createJobFailuresWithReason. rewrite map_map. cbn. apply map_id.
Qed.

Lemma store_answers_app (t1 t2 : list Entry) :
  store_answers (t1 ++ t2) = store_answers t1 ++ store_answers t2.
Proof. apply flat_map_app. Qed.

(** The preparation of a submission does not write to the job store. *)
Lemma preparing_stores_nothing (t : list Entry) :
  Forall preparing (calls t) ->
  store_answers t = [] /\ forall c, c ∈ calls t -> preparing c.
Proof.
  intros Ht. split.
  - induction t as [|[c r] t IH]; [done|].
    apply Forall_cons in Ht as [Hc Ht].
    unfold store_answers in *. cbn [flat_map entry_cmd entry_resp].
    rewrite (IH Ht). by destruct c.
  - by apply Forall_forall.
Qed.

Ltac submission_leaf t1 :=
  cbv beta; eexists t1, _; split; [reflexivity|]; split; [assumption|].

(** Once the caller is authorized, [SubmitJobs] creates the jobs and then
    takes one of the courses of [submission]. *)
Lemma SubmitJobs_authorized_submission (server : SubmitServer) (ctx : Context)
    (req : JobSubmitRequest) (q : Queue) :
  traced (fun t r =>
            exists t0 t1,
              t = t0 ++ t1
              /\ Forall creating (calls t0)
              /\ ((t1 = [] /\ exists st, r = Some (None, Some st)
                              /\ Status_Code st = InvalidArgument)
                  \/ exists jobs,
                      length jobs = length (Req_JobRequestItems req)
                      /\ submission jobs t1 r))
         (SubmitJobs_authorized server ctx req q).
Proof.
  unfold SubmitJobs_authorized.
  eapply traced_bind.
  { apply holds_traced, createJobs_holds. }
  2: { by intros t1 [_ ?]. }
  intros t1 [jobs|e] [Ht1 Hjobs].
  2: { traced_step. submission_leaf t1. left. split; [reflexivity|]. by eexists. }
  destruct Hjobs as [Hjobs _]. apply Forall2_length in Hjobs. symmetry in Hjobs.
  traced_step. traced_step. traced_step.
  2: { traced_step. submission_leaf t1. right. exists jobs. split; [exact Hjobs|].
       by constructor. }
  traced_step. traced_step. traced_step.
  { traced_step. submission_leaf t1. right. exists jobs. split; [exact Hjobs|].
    by constructor. }
  traced_step. traced_step. traced_step.
  { traced_step. submission_leaf t1. right. exists jobs. split; [exact Hjobs|].
    by constructor. }
  traced_step. traced_step. traced_step.
  2: { traced_step. traced_step. traced_step;
         (traced_step; submission_leaf t1; right; exists jobs; split; [exact Hjobs|];
          apply submission_refused; [apply createJobFailuresWithReason_jobs|reflexivity]). }
  traced_step.
  2: { traced_step. submission_leaf t1. right. exists jobs. split; [exact Hjobs|].
       by apply submission_panics. }
  assert (forall t err,
             reports s t err ->
             exists t0 t2,
               t1 ++ stored_as jobs g l ++ t = t0 ++ t2
               /\ Forall creating (calls t0)
               /\ ((t2 = [] /\ exists st,
                       Some (Some {| JobResponseItems := outcome_responses s |}, err)
                       = Some (None, Some st) /\ Status_Code st = InvalidArgument)
                   \/ exists jobs',
                       length jobs' = length (Req_JobRequestItems req)
                       /\ submission jobs' t2
                            (Some (Some {| JobResponseItems := outcome_responses s |}, err))))
    as Hstored.
  { intros t err Hreports. exists t1, (stored_as jobs g l ++ t).
    split; [reflexivity|]. split; [exact Ht1|]. right. exists jobs. split; [exact Hjobs|].
    by apply submission_stored. }
  traced_step. traced_step. traced_step.
  { traced_step. cbv beta. apply (Hstored [_]). by constructor. }
  traced_step. traced_step. traced_step.
  { traced_step. cbv beta. apply (Hstored [_; _]). by constructor. }
  traced_step. traced_step. traced_step.
  { traced_step. cbv beta. apply (Hstored [_; _; _]). by constructor. }
  traced_step.
  - traced_step. cbv beta. apply (Hstored [_; _; _]).
    apply reports_some_failed; [reflexivity|].
    apply bool_decide_eq_true in Heqb. intros Hnil. rewrite Hnil in Heqb. cbn in Heqb. lia.
  - traced_step. cbv beta. apply (Hstored [_; _; _]).
    apply reports_done.
    apply bool_decide_eq_false in Heqb.
    destruct (outcome_jobFailures s); [done|]. cbn in Heqb. lia.
Qed.

(** [SubmitJobs] prepares the submission, and then either returns an error
    without a further call or takes one of the courses of [submission]. *)
Lemma SubmitJobs_submission (server : SubmitServer) (ctx : Context) (req : JobSubmitRequest) :
  traced (fun t r =>
            exists t0 t1,
              t = t0 ++ t1
              /\ Forall preparing (calls t0)
              /\ ((t1 = [] /\ exists st, r = Some (None, Some st))
                  \/ exists jobs,
                      length jobs = length (Req_JobRequestItems req)
                      /\ submission jobs t1 r))
         (SubmitJobs server ctx req).
Proof.
  unfold SubmitJobs.
  eapply traced_bind.
  { apply holds_traced, getQueueOrCreate_holds. }
  2: { by intros t1 [_ ?]. }
  intros t1 [q|err] [Ht1 _].
  2: { traced_step. cbv beta. exists t1, []. split; [reflexivity|]. split.
       - eapply Forall_impl; [exact Ht1|]. by intros [].
       - left. split; [reflexivity|]. by eexists. }
  assert (Forall preparing (calls t1)) as Hprep.
  { eapply Forall_impl; [exact Ht1|]. by intros []. }
  destruct (SubmitJobs_refusal server ctx req q) as [st|].
  { traced_step. cbv beta. exists t1, []. split; [reflexivity|]. split; [exact Hprep|].
    left. split; [reflexivity|]. by eexists. }
  eapply traced_weaken; [|apply SubmitJobs_authorized_submission].
  intros t r (t0 & t2 & -> & Ht0 & Hcourse). cbv beta.
  exists (t1 ++ t0), t2. split; [by rewrite app_assoc|]. split.
  - unfold calls. rewrite map_app. apply Forall_app. split; [exact Hprep|].
    eapply Forall_impl; [exact Ht0|]. by intros [].
  - destruct Hcourse as [(-> & st & -> & _)|Hcourse]; [|by right].
    left. split; [reflexivity|]. by eexists.
Qed.

Section submissions.

Context {S : Type} (h : Handler S) (s : S).
Context (server : SubmitServer) (ctx : Context) (req : JobSubmitRequest).

(** X9. [SubmitJobs] first resolves the queue and creates the job objects,
    and then calls its collaborators in a fixed order, each at most once:
    the scheduling information, the check that the jobs can be scheduled,
    the submitted events, the write to the job store, and the failed, the
    duplicate and the queued events. It writes jobs to the job store only
    after the check that these jobs can be scheduled has passed and their
    submitted events have been reported without error. *)
Theorem SubmitJobs_stages :
  let t := trace_of (run h (SubmitJobs server ctx req) s) in
  (exists t0 t1 jobs info failures duplicates created,
      t = t0 ++ t1
      /\ Forall preparing (calls t0)
      /\ calls t1 `prefix_of` stages jobs info failures duplicates created)
  /\ (forall jobs,
        JobRepository_AddJobs jobs ∈ calls t ->
        answered (reportSubmitted jobs) None ∈ t
        /\ exists info, answered (validateJobsCanBeScheduled jobs info) None ∈ t).
Proof.
  intros t. subst t.
  destruct (traced_run _ _ h s (SubmitJobs_submission server ctx req))
    as (t0 & t1 & -> & Ht0 & Hcourse).
  assert (forall jobs, JobRepository_AddJobs jobs ∉ calls t0) as Hnot.
  { intros jobs Hin. rewrite Forall_forall in Ht0. exact (Ht0 _ Hin). }
  assert (forall jobs, JobRepository_AddJobs jobs ∈ calls (t0 ++ t1) ->
                       JobRepository_AddJobs jobs ∈ calls t1) as Hlate.
  { intros jobs Hin. unfold calls in Hin. rewrite map_app in Hin.
    apply elem_of_app in Hin as [Hin|Hin]; [by apply Hnot in Hin|exact Hin]. }
  destruct Hcourse as [[-> _]|(jobs & _ & Hcourse)].
  { split.
    - exists t0, [], [], ∅, [], [], []. split; [reflexivity|]. split; [exact Ht0|].
      apply prefix_nil.
    - intros jobs Hin%Hlate. by apply elem_of_nil in Hin. }
  assert (forall info results tail,
             Forall reporting (calls tail) ->
             forall jobs',
               JobRepository_AddJobs jobs' ∈ calls (t0 ++ stored_as jobs info results ++ tail) ->
               answered (reportSubmitted jobs') None ∈ t0 ++ stored_as jobs info results ++ tail
               /\ exists info',
                   answered (validateJobsCanBeScheduled jobs' info') None
                   ∈ t0 ++ stored_as jobs info results ++ tail) as Hstored.
  { intros info results tail Htail jobs' Hin.
    unfold calls in Hin. rewrite !map_app in Hin.
    apply elem_of_app in Hin as [Hin|Hin]; [by apply Hnot in Hin|].
    apply elem_of_app in Hin as [Hin|Hin].
    - cbn in Hin.
      repeat (apply elem_of_cons in Hin as [Hin|Hin]; [try discriminate Hin|]);
        [|by apply elem_of_nil in Hin].
      injection Hin as ->. split; [|exists info].
      + apply elem_of_app. right. apply elem_of_app. left. unfold stored_as.
        do 2 right. left.
      + apply elem_of_app. right. apply elem_of_app. left. unfold stored_as.
        right. left.
    - rewrite Forall_forall in Htail. by apply Htail in Hin. }
  inversion Hcourse as [err st Hst|info err st Hst|info err st Hst
                        |info err failures reported st Hfailures Hst
                        |info results Hpanic|info results out tail err Hout Hreports];
    subst.
  - split.
    + eexists t0, _, jobs, ∅, [], [], []. split; [reflexivity|]. split; [exact Ht0|].
      by eexists.
    + intros jobs' Hin%Hlate. cbn in Hin.
      repeat (apply elem_of_cons in Hin as [Hin|Hin]; [discriminate Hin|]).
      by apply elem_of_nil in Hin.
  - split.
    + eexists t0, _, jobs, info, [], [], []. split; [reflexivity|]. split; [exact Ht0|].
      by eexists.
    + intros jobs' Hin%Hlate. cbn in Hin.
      repeat (apply elem_of_cons in Hin as [Hin|Hin]; [discriminate Hin|]).
      by apply elem_of_nil in Hin.
  - split.
    + eexists t0, _, jobs, info, [], [], []. split; [reflexivity|]. split; [exact Ht0|].
      by eexists.
    + intros jobs' Hin%Hlate. cbn in Hin.
      repeat (apply elem_of_cons in Hin as [Hin|Hin]; [discriminate Hin|]).
      by apply elem_of_nil in Hin.
  - split.
    + eexists t0, _, _, info, failures, [], []. split; [reflexivity|]. split; [exact Ht0|].
      by eexists.
    + intros jobs' Hin%Hlate. cbn in Hin.
      repeat (apply elem_of_cons in Hin as [Hin|Hin]; [try discriminate Hin|]);
        [|by apply elem_of_nil in Hin].
      injection Hin as ->. split; [|exists info].
      * apply elem_of_app. right. do 2 right. left.
      * apply elem_of_app. right. right. left.
  - split.
    + eexists t0, _, jobs, info, [], [], []. split; [reflexivity|]. split; [exact Ht0|].
      by eexists.
    + intros jobs' Hin. rewrite <- (app_nil_r (stored_as jobs info results)) in Hin |- *.
      apply (Hstored info results []); [constructor|exact Hin].
  - split.
    + eexists t0, _, jobs, info, (outcome_jobFailures out), (outcome_doubleSubmits out),
        (outcome_createdJobs out).
      split; [reflexivity|]. split; [exact Ht0|].
      inversion Hreports; subst; by eexists.
    + intros jobs' Hin. apply (Hstored info results tail); [|exact Hin].
      inversion Hreports; subst; repeat constructor.
Qed.

(** X10. When [SubmitJobs] returns a response, the job store has answered
    the write of the jobs with a list of results, and the response holds one
    item for each result, in the order of the results, with the job id and,
    if any, the error of the result. The operation then returns no error or
    [Internal], and it returns [Internal] whenever a result holds an
    error. *)
Theorem SubmitJobs_response (response : JobSubmitResponse) (err : option Status) :
  let out := run h (SubmitJobs server ctx req) s in
  result_of out = Some (Some response, err) ->
  exists jobs submissionResults,
    (jobs, inl submissionResults) ∈ store_answers (trace_of out)
    /\ JobResponseItems response = map response_of submissionResults
    /\ (code_of err = OK \/ code_of err = Internal)
    /\ (Exists failed_result submissionResults -> code_of err = Internal).
Proof.
  intros out Hresult. subst out.
  destruct (traced_run _ _ h s (SubmitJobs_submission server ctx req))
    as (t0 & t1 & Ht & Ht0 & Hcourse).
  rewrite Hresult in Hcourse. rewrite Ht. clear Ht Hresult.
  destruct Hcourse as [(_ & st & [=])|(jobs & _ & Hcourse)].
  inversion Hcourse as [| | | | |info results out tail err' Hout Hreports]; subst.
  exists jobs, results.
  pose proof (partitionResults_classes jobs 0 results no_outcome) as Hclasses.
  rewrite Hout in Hclasses. destruct Hclasses as (Hresp & _ & _ & _ & Hnone).
  split; [|split; [|split]].
  - rewrite !store_answers_app. apply elem_of_app. right. apply elem_of_app. left.
    cbn. left.
  - cbn. by rewrite Hresp.
  - inversion Hreports as [e st Hst|e st Hst|e st Hst|st Hst Hne|Hnil]; subst; cbn; auto.
  - intros Hfailed.
    inversion Hreports as [e st Hst|e st Hst|e st Hst|st Hst Hne|Hnil]; subst; cbn; try done.
    apply Hnone in Hnil as [_ Hall].
    apply Exists_exists in Hfailed as (r & Hin & Hr).
    rewrite Forall_forall in Hall. by apply Hall in Hr.
Qed.

Lemma reports_reporting (out : SubmissionOutcome) (tail : list Entry) (err : option Status) :
  reports out tail err ->
  Forall reporting (calls tail)
  /\ forall c,
      c ∈ calls tail ->
      c = reportFailed EmptyString (outcome_jobFailures out)
      \/ c = reportDuplicateDetected (outcome_doubleSubmits out)
      \/ c = reportQueued (outcome_createdJobs out).
Proof.
  intros Hreports. split.
  - inversion Hreports; subst; repeat constructor.
  - intros c Hin.
    inversion Hreports; subst; cbn in Hin;
      repeat (apply elem_of_cons in Hin as [->|Hin]; [by auto|]);
      by apply elem_of_nil in Hin.
Qed.

Lemma store_answers_reporting (tail : list Entry) :
  Forall reporting (calls tail) -> store_answers tail = [].
Proof.
  induction tail as [|[c r] tail IH]; [done|].
  intros [Hc Htail]%Forall_cons.
  unfold store_answers in *. cbn [flat_map entry_cmd entry_resp].
  rewrite (IH Htail). by destruct c.
Qed.

Lemma reported_app (t1 t2 : list Entry) : reported (t1 ++ t2) = reported t1 ++ reported t2.
Proof. apply flat_map_app. Qed.

Lemma preparing_reports_nothing (t : list Entry) :
  Forall preparing (calls t) -> reported t = [].
Proof.
  induction t as [|[c r] t IH]; [done|].
  intros [Hc Ht]%Forall_cons.
  unfold reported in *. cbn [flat_map entry_cmd entry_resp].
  rewrite (IH Ht). by destruct c.
Qed.

(** X11. When the job store has answered the write of the jobs with a list
    of results, no more of them than jobs, [SubmitJobs] reports the failed
    events for the jobs whose result holds an error; when that report is
    accepted, it reports the duplicate events for the results without error
    that are marked as duplicates; and when that report is accepted, it
    reports the queued events for the jobs of the other results. Results
    and jobs go together by position, and these are all the failed,
    duplicate and queued events that the operation reports. *)
Theorem SubmitJobs_events (jobs : list Job) (submissionResults : list SubmitJobResult) :
  let t := trace_of (run h (SubmitJobs server ctx req) s) in
  (jobs, inl submissionResults) ∈ store_answers t ->
  (length submissionResults <= length jobs)%nat ->
  exists failures,
    map jobFailure_job failures
    = (filter (fun p => failed_result p.2) (zip jobs submissionResults)).*1
    /\ let failed := reportFailed EmptyString failures in
       let duplicates := reportDuplicateDetected (filter duplicate_result submissionResults) in
       let queued :=
         reportQueued (filter (fun p => created_result p.2) (zip jobs submissionResults)).*1 in
       (exists err, reported t = [(failed, Some err)])
       \/ (exists err, reported t = [(failed, None); (duplicates, Some err)])
       \/ (exists answer, reported t = [(failed, None); (duplicates, None); (queued, answer)]).
Proof.
  intros t Hstore Hlength. subst t.
  destruct (traced_run _ _ h s (SubmitJobs_submission server ctx req))
    as (t0 & t1 & Ht & Ht0 & Hcourse).
  rewrite Ht in Hstore |- *. clear Ht.
  destruct (preparing_stores_nothing t0 Ht0) as [Hnone Hprep].
  rewrite store_answers_app, Hnone in Hstore. cbn [app] in Hstore.
  rewrite reported_app, (preparing_reports_nothing t0 Ht0). cbn [app].
  destruct Hcourse as [[-> _]|(jobs0 & _ & Hcourse)]; [by apply elem_of_nil in Hstore|].
  inversion Hcourse as [err st Hst|info err st Hst|info err st Hst
                        |info err failures reported st Hfailures Hst
                        |info results Hpanic|info results out tail err Hout Hreports];
    subst t1.
  1-3: by apply elem_of_nil in Hstore.
  - by apply list_elem_of_singleton in Hstore.
  - apply list_elem_of_singleton in Hstore as [= -> ->].
    pose proof (partitionResults_classes jobs0 0 results no_outcome) as Hclasses.
    rewrite Hpanic in Hclasses. cbn in Hclasses. lia.
  - destruct (reports_reporting out tail err Hreports) as [Htail _].
    rewrite store_answers_app, (store_answers_reporting tail Htail) in Hstore.
    apply list_elem_of_singleton in Hstore as [= -> ->].
    pose proof (partitionResults_classes jobs0 0 results no_outcome) as Hclasses.
    rewrite Hout in Hclasses. destruct Hclasses as (_ & Hdup & Hcreated & Hfailed & _).
    cbn in Hdup, Hcreated, Hfailed.
    exists (outcome_jobFailures out). split; [exact Hfailed|].
    rewrite reported_app. change (drop 0 jobs0) with jobs0 in Hcreated.
    inversion Hreports; subst tail; cbn; rewrite ?Hdup, ?Hcreated; eauto.
Qed.

(** X12. When the job store refuses the write of the jobs as a whole,
    [SubmitJobs] reports a failed event for every one of the jobs, and that
    is its last call; it returns no response, with [Aborted], or with
    [Internal] when the report of the failed events fails too. *)
Theorem SubmitJobs_store_refuses (jobs : list Job) (err : foreign_error) :
  let out := run h (SubmitJobs server ctx req) s in
  (jobs, inr err) ∈ store_answers (trace_of out) ->
  exists failures reported st,
    last (trace_of out) = Some (answered (reportFailed EmptyString failures) reported)
    /\ map jobFailure_job failures = jobs
    /\ result_of out = Some (None, Some st)
    /\ Status_Code st = (if reported is Some _ then Internal else Aborted).
Proof.
  intros out Hstore. subst out.
  destruct (traced_run _ _ h s (SubmitJobs_submission server ctx req))
    as (t0 & t1 & Ht & Ht0 & Hcourse).
  rewrite Ht in Hstore |- *. clear Ht.
  destruct (preparing_stores_nothing t0 Ht0) as [Hnone _].
  rewrite store_answers_app, Hnone in Hstore. cbn [app] in Hstore.
  destruct Hcourse as [[-> _]|(jobs0 & _ & Hcourse)]; [by apply elem_of_nil in Hstore|].
  inversion Hcourse as [err' st Hst|info err' st Hst|info err' st Hst
                        |info err' failures reported st Hfailures Hst
                        |info results Hpanic|info results out tail err' Hout Hreports];
    subst t1.
  1-3: by apply elem_of_nil in Hstore.
  - apply list_elem_of_singleton in Hstore as [= -> ->].
    exists failures, reported, st. split; [|done].
    by rewrite last_app.
  - by apply list_elem_of_singleton in Hstore.
  - destruct (reports_reporting out tail err' Hreports) as [Htail _].
    rewrite store_answers_app, (store_answers_reporting tail Htail) in Hstore.
    by apply list_elem_of_singleton in Hstore.
Qed.

(** X13. When the job store answers the write of the jobs with a result
    beyond the last job that holds an error or is not marked as a
    duplicate, [SubmitJobs] panics: it looks for the job of that result out
    of the range of the jobs. *)
Theorem SubmitJobs_panics_on_excess_results (jobs : list Job)
    (submissionResults : list SubmitJobResult) (k : nat) (submissionResult : SubmitJobResult) :
  let out := run h (SubmitJobs server ctx req) s in
  (jobs, inl submissionResults) ∈ store_answers (trace_of out) ->
  submissionResults !! k = Some submissionResult ->
  (length jobs <= k)%nat ->
  ~ duplicate_result submissionResult ->
  result_of out = None.
Proof.
  intros out Hstore Hk Hbeyond Hresult. subst out.
  destruct (traced_run _ _ h s (SubmitJobs_submission server ctx req))
    as (t0 & t1 & Ht & Ht0 & Hcourse).
  rewrite Ht in Hstore. clear Ht.
  destruct (preparing_stores_nothing t0 Ht0) as [Hnone _].
  rewrite store_answers_app, Hnone in Hstore. cbn [app] in Hstore.
  destruct Hcourse as [[-> _]|(jobs0 & _ & Hcourse)]; [by apply elem_of_nil in Hstore|].
  inversion Hcourse as [err st Hst|info err st Hst|info err st Hst
                        |info err failures reported st Hfailures Hst
                        |info results Hpanic|info results out tail err Hout Hreports];
    subst t1.
  1-3: by apply elem_of_nil in Hstore.
  - by apply list_elem_of_singleton in Hstore.
  - done.
  - destruct (reports_reporting out tail err Hreports) as [Htail _].
    rewrite store_answers_app, (store_answers_reporting tail Htail) in Hstore.
    apply list_elem_of_singleton in Hstore as [= -> ->].
    by rewrite (partitionResults_out_of_range jobs0 results 0 no_outcome k submissionResult)
      in Hout.
Qed.

End submissions.

Lemma SubmitJobs_response_witness :
  exists jobs submissionResults,
    (jobs, inl submissionResults) ∈ store_answers (trace_of submission_of_three)
    /\ JobResponseItems example_response = map response_of submissionResults
    /\ (code_of example_response_error = OK \/ code_of example_response_error = Internal)
    /\ (Exists failed_result submissionResults -> code_of example_response_error = Internal).
Proof.
  apply (SubmitJobs_response mixed_store_handler tt example_server ctx_root example_request3
           example_response example_response_error).
  vm_compute. reflexivity.
Defined.

Lemma SubmitJobs_events_witness :
  exists failures,
    map jobFailure_job failures
    = (filter (fun p => failed_result p.2) (zip example_jobs3 (mixed_results example_jobs3))).*1
    /\ let failed := reportFailed EmptyString failures in
       let duplicates :=
         reportDuplicateDetected (filter duplicate_result (mixed_results example_jobs3)) in
       let queued :=
         reportQueued (filter (fun p => created_result p.2)
                              (zip example_jobs3 (mixed_results example_jobs3))).*1 in
       (exists err, reported (trace_of submission_of_three) = [(failed, Some err)])
       \/ (exists err,
              reported (trace_of submission_of_three) = [(failed, None); (duplicates, Some err)])
       \/ (exists answer,
              reported (trace_of submission_of_three)
              = [(failed, None); (duplicates, None); (queued, answer)]).
Proof.
  apply (SubmitJobs_events mixed_store_handler tt example_server ctx_root example_request3
           example_jobs3 (mixed_results example_jobs3)).
  - vm_compute. left.
  - vm_compute. lia.
Defined.

Lemma SubmitJobs_store_refuses_witness :
  exists failures reported st,
    last (trace_of (run refusing_store_handler
                      (SubmitJobs example_server ctx_root example_request3) tt))
    = Some (answered (reportFailed EmptyString failures) reported)
    /\ map jobFailure_job failures = example_jobs3
    /\ result_of (run refusing_store_handler
                    (SubmitJobs example_server ctx_root example_request3) tt)
       = Some (None, Some st)
    /\ Status_Code st = (if reported is Some _ then Internal else Aborted).
Proof.
  apply (SubmitJobs_store_refuses refusing_store_handler tt example_server ctx_root
           example_request3 example_jobs3 (ErrOpaque "job store unavailable")).
  vm_compute. left.
Defined.

Lemma SubmitJobs_panics_on_excess_results_witness :
  result_of (run overflowing_store_handler (SubmitJobs example_server ctx_root example_request3) tt)
  = None.
Proof.
  eapply (SubmitJobs_panics_on_excess_results overflowing_store_handler tt example_server
            ctx_root example_request3 example_jobs3
            (mixed_results (example_jobs3 ++ example_jobs3)) 3%nat).
  - vm_compute. left.
  - vm_compute. reflexivity.
  - vm_compute. lia.
  - intros [_ Hdup]. vm_compute in Hdup. discriminate Hdup.
Defined.

(** The submission of three items, of which the job store fails to save the
    first and finds the second to be a duplicate: the response holds three
    items, the first with an error, and the operation returns [Internal]. *)
Example submission_of_three_response :
  map (fun item => if ResponseItem_Error item is Some _ then true else false)
      (JobResponseItems example_response)
  = [true; false; false]
  /\ code_of example_response_error = Internal
  /\ length example_jobs3 = 3%nat.
Proof. vm_compute. by repeat split. Qed.

(* ===================================================================== *)
(** * Properties: the cancellation of jobs *)
(* ===================================================================== *)

(** The loop of [cancelJobs] over the deletion result keeps the jobs that
    were deleted without error, in order, and their ids. *)
Lemma deletions_app (t1 t2 : list Entry) : deletions (t1 ++ t2) = deletions t1 ++ deletions t2.
Proof. apply flat_map_app. Qed.

(** The lookups of queues delete nothing and report nothing. *)
Lemma looking_up_deletes_nothing (t : list Entry) :
  Forall looking_up (calls t) ->
  deletions t = [] /\ forall c, c ∈ calls t -> looking_up c.
Proof.
  intros Ht. split; [|by apply Forall_forall].
  induction t as [|[c r] t IH]; [done|].
  apply Forall_cons in Ht as [Hc Ht].
  unfold deletions in *. cbn [flat_map entry_cmd entry_resp].
  rewrite (IH Ht). by destruct c.
Qed.

Lemma cancelJobs_permitted_cancellation (server : SubmitServer) (ctx : Context)
    (jobs : list Job) :
  traced (cancellation (GetName (GetPrincipal ctx)) jobs) (cancelJobs_permitted server ctx jobs).
Proof.
  unfold cancelJobs_permitted.
  traced_step. intros [err|]; cbv beta.
  { traced_step. constructor. }
  traced_step. intros [deletionResult|err]; cbv beta.
  2: { traced_step. constructor. }
  rewrite cancelledOf_deleted.
  traced_step. intros [err|]; cbv beta; traced_step; constructor.
Qed.

(** [cancelJobs] looks up queues to check the permissions, and then either
    returns an error without a further call or takes one of the courses of
    [cancellation]. *)
Lemma cancelJobs_cancellation (server : SubmitServer) (ctx : Context) (jobs : list Job) :
  traced (fun t r =>
            exists t0 t1,
              t = t0 ++ t1
              /\ Forall looking_up (calls t0)
              /\ ((t1 = [] /\ exists e, r = Some (inr e))
                  \/ cancellation (GetName (GetPrincipal ctx)) jobs t1 r))
         (cancelJobs server ctx jobs).
Proof.
  unfold cancelJobs.
  eapply traced_bind.
  { apply holds_traced, checkCancelPerms_looking_up. }
  2: { by intros t1 [_ ?]. }
  intros t1 [err|] [Ht1 _].
  - traced_step. cbv beta. exists t1, []. split; [reflexivity|]. split; [exact Ht1|].
    left. split; [reflexivity|]. by eexists.
  - eapply traced_weaken; [|apply cancelJobs_permitted_cancellation].
    intros t r Hcourse. cbv beta. exists t1, t. split; [reflexivity|]. split; [exact Ht1|].
    by right.
Qed.

(** X14. [cancelJobs] deletes no job before the cancelling events of the
    jobs have been reported without error, and it deletes the jobs it was
    given. It reports the cancelled events for exactly the jobs that the job
    store deleted without error, in the order of the deletion result, and
    when it succeeds it returns the ids of these jobs. *)
Theorem cancelJobs_events {S : Type} (h : Handler S) (s : S) (server : SubmitServer)
    (ctx : Context) (jobs : list Job) :
  let out := run h (cancelJobs server ctx jobs) s in
  let name := GetName (GetPrincipal ctx) in
  (forall jobs' answer,
      (jobs', answer) ∈ deletions (trace_of out) ->
      jobs' = jobs /\ answered (reportJobsCancelling name jobs) None ∈ trace_of out)
  /\ (forall name' cancelled,
        reportJobsCancelled name' cancelled ∈ calls (trace_of out) ->
        name' = name
        /\ exists deletionResult,
            (jobs, inl deletionResult) ∈ deletions (trace_of out)
            /\ cancelled = deleted_without_error deletionResult)
  /\ (forall result,
        result_of out = Some (inl result) ->
        exists deletionResult,
          (jobs, inl deletionResult) ∈ deletions (trace_of out)
          /\ CancelledIds result = map Job_Id (deleted_without_error deletionResult)).
Proof.
  intros out name. subst out name.
  destruct (traced_run _ _ h s (cancelJobs_cancellation server ctx jobs))
    as (t0 & t1 & -> & Ht0 & Hcourse).
  destruct (looking_up_deletes_nothing t0 Ht0) as [Hnone Hlook].
  rewrite deletions_app, Hnone. cbn [app].
  assert (forall c, ~ looking_up c -> c ∈ calls (t0 ++ t1) -> c ∈ calls t1) as Hlate.
  { intros c Hc Hin. unfold calls in Hin. rewrite map_app in Hin.
    apply elem_of_app in Hin as [Hin|Hin]; [by apply Hlook in Hin|exact Hin]. }
  destruct Hcourse as [(-> & e & Hresult)|Hcourse].
  { split; [|split].
    - intros jobs' answer Hin. by apply elem_of_nil in Hin.
    - intros name' cancelled Hin%Hlate; [|by intros []]. by apply elem_of_nil in Hin.
    - intros result Hr. congruence. }
  inversion Hcourse as [err e Ht Hr|err e Ht Hr|deletionResult err e Ht Hr|deletionResult Ht Hr];
    subst t1; cbn [deletions flat_map entry_cmd entry_resp answered deletion_of app].
  - split; [|split].
    + intros jobs' answer Hin. by apply elem_of_nil in Hin.
    + intros name' cancelled Hin%Hlate; [|by intros []]. cbn in Hin.
      repeat (apply elem_of_cons in Hin as [Hin|Hin]; [discriminate Hin|]).
      by apply elem_of_nil in Hin.
    + intros result Hresult. congruence.
  - split; [|split].
    + intros jobs' answer [= -> ->]%list_elem_of_singleton. split; [done|].
      apply elem_of_app. right. left.
    + intros name' cancelled Hin%Hlate; [|by intros []]. cbn in Hin.
      repeat (apply elem_of_cons in Hin as [Hin|Hin]; [discriminate Hin|]).
      by apply elem_of_nil in Hin.
    + intros result Hresult. congruence.
  - split; [|split].
    + intros jobs' answer [= -> ->]%list_elem_of_singleton. split; [done|].
      apply elem_of_app. right. left.
    + intros name' cancelled Hin%Hlate; [|by intros []]. cbn in Hin.
      repeat (apply elem_of_cons in Hin as [Hin|Hin]; [try discriminate Hin|]);
        [|by apply elem_of_nil in Hin].
      injection Hin as -> ->. split; [done|]. exists deletionResult. split; [left|done].
    + intros result Hresult. congruence.
  - split; [|split].
    + intros jobs' answer [= -> ->]%list_elem_of_singleton. split; [done|].
      apply elem_of_app. right. left.
    + intros name' cancelled Hin%Hlate; [|by intros []]. cbn in Hin.
      repeat (apply elem_of_cons in Hin as [Hin|Hin]; [try discriminate Hin|]);
        [|by apply elem_of_nil in Hin].
      injection Hin as -> ->. split; [done|]. exists deletionResult. split; [left|done].
    + intros result Hresult.
      assert (result = {| CancelledIds := map Job_Id (deleted_without_error deletionResult) |})
        as -> by congruence.
      exists deletionResult. split; [left|done].
Qed.

Lemma cancelJobs_events_witness :
  exists deletionResult,
    (example_jobs_abc, inl deletionResult)
    ∈ deletions (trace_of (run partly_deleting_handler
                             (cancelJobs example_server ctx_root example_jobs_abc) tt))
    /\ CancelledIds {| CancelledIds := ["a"; "c"] |}
       = map Job_Id (deleted_without_error deletionResult).
Proof.
  destruct (cancelJobs_events partly_deleting_handler tt example_server ctx_root example_jobs_abc)
    as (_ & _ & Hresult).
  apply Hresult. vm_compute. reflexivity.
Defined.

(* ===================================================================== *)
(** * Properties: the checks of permissions by queue *)
(* ===================================================================== *)


Section checks.

Context (server : SubmitServer) (ctx : Context).




End checks.


(* ===================================================================== *)
(** * Properties: the operations on one job and on one queue *)
(* ===================================================================== *)

Lemma cancelJobsById_traced (server : SubmitServer) (ctx : Context) (jobId : string) :
  traced (fun t r =>
            exists answer rest,
              t = answered (JobRepository_GetExistingJobsByIds [jobId]) answer :: rest
              /\ match answer with
                 | inr _ => rest = [] /\ returned_code r = Some Unavailable
                 | inl jobs =>
                     if bool_decide (length jobs = 1%nat)
                     then returned_code r = Some OK
                          \/ returned_code r = Some PermissionDenied
                          \/ returned_code r = Some Unavailable
                     else rest = [] /\ returned_code r = Some Internal
                 end
              /\ (forall result err, r = Some (Some result, err) -> err = None))
         (cancelJobsById server ctx jobId).
Proof.
  unfold cancelJobsById. traced_step. intros [jobs|err]; cbv beta.
  2: { traced_step. exists (inr err), []. split; [reflexivity|]. split; [by split|].
       by intros ? ? [=]. }
  destruct (bool_decide (length jobs = 1%nat)) eqn:Hlen; cbn [negb].
  2: { traced_step. exists (inl jobs), []. split; [reflexivity|]. rewrite Hlen.
       split; [by split|]. by intros ? ? [=]. }
  eapply traced_bind.
  { apply holds_traced, cancelJobs_holds. }
  2: { by intros t1 [_ ?]. }
  intros t1 [result|e] _.
  - traced_step. exists (inl jobs), (t1 ++ []). split; [reflexivity|]. rewrite Hlen.
    split; [by left|]. by intros ? ? [= _ <-].
  - destruct (errors_As_ErrNoPermission e); traced_step;
      (exists (inl jobs), (t1 ++ []); split; [reflexivity|]; rewrite Hlen;
       split; [by auto|]; by intros ? ? [=]).
Qed.

(** X16. [cancelJobsById] first fetches the job of the id from the job
    store. When the job store fails, it returns [Unavailable]; when the job
    store finds no job or more than one, it returns [Internal]; in both
    cases it makes no other call. It returns [Internal] in no other case,
    it returns a result only together with no error, and it does not
    panic. *)
Theorem cancelJobsById_outcome {S : Type} (h : Handler S) (s : S) (server : SubmitServer)
    (ctx : Context) (jobId : string) :
  let out := run h (cancelJobsById server ctx jobId) s in
  exists answer rest,
    trace_of out = answered (JobRepository_GetExistingJobsByIds [jobId]) answer :: rest
    /\ (forall err, answer = inr err -> rest = [] /\ returned_code (result_of out) = Some Unavailable)
    /\ (forall jobs,
          answer = inl jobs -> length jobs <> 1%nat ->
          rest = [] /\ returned_code (result_of out) = Some Internal)
    /\ (returned_code (result_of out) = Some Internal ->
        exists jobs, answer = inl jobs /\ length jobs <> 1%nat)
    /\ (forall result err, result_of out = Some (Some result, err) -> err = None)
    /\ is_Some (result_of out).
Proof.
  intros out. subst out.
  destruct (traced_run _ _ h s (cancelJobsById_traced server ctx jobId))
    as (answer & rest & Ht & Hanswer & Hresult).
  exists answer, rest. split; [exact Ht|].
  destruct answer as [jobs|err].
  - destruct (bool_decide (length jobs = 1%nat)) eqn:Hlen.
    + apply bool_decide_eq_true in Hlen.
      split; [by intros ? [=]|]. split; [by intros ? [= <-] ?|].
      split; [|split; [exact Hresult|]].
      * intros Hcode. rewrite Hcode in Hanswer. by destruct Hanswer as [[=]|[[=]|[=]]].
      * destruct (result_of _); [by eexists|]. by destruct Hanswer as [[=]|[[=]|[=]]].
    + apply bool_decide_eq_false in Hlen. destruct Hanswer as [-> Hcode].
      split; [by intros ? [=]|]. split; [by intros ? [= <-] ?|].
      split; [by exists jobs|]. split; [exact Hresult|].
      destruct (result_of _); [by eexists|done].
  - destruct Hanswer as [-> Hcode].
    split; [by intros ? [= <-]|]. split; [by intros ? [=]|].
    split; [|split; [exact Hresult|]].
    + intros Hcode'. rewrite Hcode' in Hcode. done.
    + destruct (result_of _); [by eexists|done].
Qed.

Lemma getQueueOrCreate_traced (server : SubmitServer) (ctx : Context) (queueName : string) :
  traced (fun t r =>
            exists answer rest,
              t = answered (QueueRepository_GetQueue queueName) answer :: rest
              /\ match answer with
                 | inl q => rest = [] /\ r = Some (inl q)
                 | inr e =>
                     match errors_As_ErrQueueNotFound e with
                     | None =>
                         rest = [] /\ exists st, r = Some (inr st) /\ Status_Code st = Unavailable
                     | Some _ =>
                         (rest = [] /\ exists st, r = Some (inr st) /\ Status_Code st = NotFound)
                         \/ (AutoCreateQueues (queueManagementConfig server) = true
                             /\ UserHasPermission (server_permissions server) ctx
                                                  permissions.SubmitAnyJobs = true
                             /\ exists created,
                                 rest = [ answered (QueueRepository_CreateQueue
                                                      (autoCreatedQueue server ctx queueName))
                                                   created ]
                                 /\ match created with
                                    | None => r = Some (inl (autoCreatedQueue server ctx queueName))
                                    | Some _ =>
                                        exists st, r = Some (inr st) /\ Status_Code st = Aborted
                                    end)
                     end
                 end)
         (getQueueOrCreate server ctx queueName).
Proof.
  unfold getQueueOrCreate. traced_step. intros [q|e]; cbv beta.
  { traced_step. by eexists _, _. }
  destruct (errors_As_ErrQueueNotFound e) as [name|] eqn:Hnf.
  2: { traced_step. eexists (inr e), _. split; [reflexivity|]. rewrite Hnf.
       split; [done|]. by eexists. }
  destruct (AutoCreateQueues (queueManagementConfig server)) eqn:Hauto; cbn [negb orb].
  2: { traced_step. eexists (inr e), _. split; [reflexivity|]. rewrite Hnf.
       left. split; [done|]. by eexists. }
  destruct (UserHasPermission (server_permissions server) ctx permissions.SubmitAnyJobs)
    eqn:Hany; cbn [negb].
  2: { traced_step. eexists (inr e), _. split; [reflexivity|]. rewrite Hnf.
       left. split; [done|]. by eexists. }
  fold (autoCreatedQueue server ctx queueName).
  traced_step. intros [err|]; cbv beta; traced_step;
    (eexists (inr e), _; split; [reflexivity|]; rewrite Hnf; right;
     split; [done|]; split; [done|]; eexists; split; [reflexivity|]).
  - by eexists.
  - done.
Qed.

(** X17. [getQueueOrCreate] first looks the queue up. A queue that the
    registry finds is returned as it is, whatever the configuration and the
    permissions of the caller, and no queue is created; when the lookup
    fails with an error that is not an error that the queue is not found,
    the operation returns [Unavailable] and creates no queue either. A
    queue is created at most once, and only after the registry has not
    found the queue. *)
Theorem getQueueOrCreate_creates_only_if_not_found {S : Type} (h : Handler S) (s : S)
    (server : SubmitServer) (ctx : Context) (queueName : string) :
  let out := run h (getQueueOrCreate server ctx queueName) s in
  exists answer rest,
    trace_of out = answered (QueueRepository_GetQueue queueName) answer :: rest
    /\ (forall q, answer = inl q -> rest = [] /\ result_of out = Some (inl q))
    /\ (forall e,
          answer = inr e -> errors_As_ErrQueueNotFound e = None ->
          rest = [] /\ exists st, result_of out = Some (inr st) /\ Status_Code st = Unavailable)
    /\ (forall q,
          QueueRepository_CreateQueue q ∈ calls (trace_of out) ->
          q = autoCreatedQueue server ctx queueName
          /\ calls rest = [QueueRepository_CreateQueue q]
          /\ exists e, answer = inr e /\ is_Some (errors_As_ErrQueueNotFound e)).
Proof.
  intros out. subst out.
  destruct (traced_run _ _ h s (getQueueOrCreate_traced server ctx queueName))
    as (answer & rest & Ht & Hanswer).
  exists answer, rest. split; [exact Ht|]. rewrite Ht.
  assert (forall q, QueueRepository_CreateQueue q
                    ∈ calls (answered (QueueRepository_GetQueue queueName) answer :: rest) ->
                    QueueRepository_CreateQueue q ∈ calls rest) as Hlate.
  { intros q Hin. cbn in Hin. by apply elem_of_cons in Hin as [[=]|Hin]. }
  destruct answer as [q|e].
  - destruct Hanswer as [-> Hq].
    split; [by intros ? [= <-]|]. split; [by intros ? [=]|].
    intros q' Hin%Hlate. by apply elem_of_nil in Hin.
  - split; [by intros ? [=]|].
    destruct (errors_As_ErrQueueNotFound e) as [name|] eqn:Hnf.
    + split; [intros ? [= <-] ?; congruence|].
      intros q Hin%Hlate.
      destruct Hanswer as [[-> _]|(_ & _ & created & -> & _)]; [by apply elem_of_nil in Hin|].
      cbn in Hin. apply list_elem_of_singleton in Hin as [= ->].
      split; [done|]. split; [done|]. exists e. split; [done|]. rewrite Hnf. by eexists.
    + destruct Hanswer as [-> Hq].
      split; [by intros ? [= <-] _|].
      intros q Hin%Hlate. by apply elem_of_nil in Hin.
Qed.

Lemma DeleteQueue_traced (server : SubmitServer) (ctx : Context) (request : QueueDeleteRequest) :
  traced (fun t r =>
            if UserHasPermission (server_permissions server) ctx permissions.DeleteQueue
            then
              exists active rest,
                t = answered (JobRepository_GetQueueActiveJobSets (QueueDelete_Name request)) active
                    :: rest
                /\ match active with
                   | inr _ => rest = [] /\ returned_code r = Some InvalidArgument
                   | inl [] =>
                       exists deleted,
                         rest = [ answered (QueueRepository_DeleteQueue (QueueDelete_Name request))
                                           deleted ]
                   | inl (_ :: _) => rest = []
                   end
            else t = [] /\ returned_code r = Some PermissionDenied)
         (DeleteQueue server ctx request).
Proof.
  unfold DeleteQueue, checkPermission.
  destruct (UserHasPermission (server_permissions server) ctx permissions.DeleteQueue).
  2: { cbn. by split. }
  traced_step. intros [active|err]; cbv beta.
  2: { traced_step. eexists (inr err), _. by split. }
  destruct active as [|jobSet active]; cbn [length bool_decide].
  - rewrite bool_decide_eq_false_2 by (cbn; lia).
    traced_step. intros [err|]; cbv beta; traced_step;
      (eexists (inl []), _; split; [reflexivity|]; by eexists).
  - rewrite bool_decide_eq_true_2 by (cbn; lia).
    traced_step. eexists (inl (jobSet :: active)), _. by split.
Qed.

(** X18. [DeleteQueue] asks the registry to delete a queue only for a caller
    that has the permission [delete_queue], only after the job store has
    listed the active job sets of the queue and has listed none, and only
    for the queue of the request. A caller without the permission is
    refused with [PermissionDenied] before any call, and when the job store
    fails to list the active job sets the operation returns
    [InvalidArgument] and the registry is not called. *)
Theorem DeleteQueue_guarded {S : Type} (h : Handler S) (s : S) (server : SubmitServer)
    (ctx : Context) (request : QueueDeleteRequest) :
  let out := run h (DeleteQueue server ctx request) s in
  let permitted := UserHasPermission (server_permissions server) ctx permissions.DeleteQueue in
  (permitted = false ->
   trace_of out = [] /\ returned_code (result_of out) = Some PermissionDenied)
  /\ (forall name,
        QueueRepository_DeleteQueue name ∈ calls (trace_of out) ->
        name = QueueDelete_Name request
        /\ permitted = true
        /\ listings (trace_of out) = [inl []])
  /\ (forall err,
        inr err ∈ listings (trace_of out) ->
        calls (trace_of out) = [JobRepository_GetQueueActiveJobSets (QueueDelete_Name request)]
        /\ returned_code (result_of out) = Some InvalidArgument).
Proof.
  intros out permitted. subst out permitted.
  pose proof (traced_run _ _ h s (DeleteQueue_traced server ctx request)) as Hrun.
  cbv beta in Hrun.
  destruct (UserHasPermission (server_permissions server) ctx permissions.DeleteQueue).
  2: { destruct Hrun as [-> Hcode]. split; [done|]. split.
       - intros name Hin. by apply elem_of_nil in Hin.
       - intros err Hin. by apply elem_of_nil in Hin. }
  destruct Hrun as (active & rest & -> & Hactive).
  split; [done|]. split.
  - intros name Hin. cbn in Hin. apply elem_of_cons in Hin as [[=]|Hin].
    destruct active as [[|jobSet active]|err].
    + destruct Hactive as [deleted ->]. cbn in Hin.
      apply list_elem_of_singleton in Hin as [= ->].
      split; [reflexivity|]. split; reflexivity.
    + subst rest. by apply elem_of_nil in Hin.
    + destruct Hactive as [-> _]. by apply elem_of_nil in Hin.
  - intros err Hin.
    destruct active as [[|jobSet active]|err'].
    + destruct Hactive as [deleted ->]. cbn in Hin.
      by apply list_elem_of_singleton in Hin.
    + subst rest. cbn in Hin. by apply list_elem_of_singleton in Hin.
    + destruct Hactive as [-> Hcode]. by split.
Qed.

(* ===================================================================== *)
(** * Properties: the pod specifications of the jobs created *)
(* ===================================================================== *)

Lemma preparedContainer_lookup (server : SubmitServer) (c : Container) :
  let requests0 : gmap string Quantity := default ∅ (Requests (Container_Resources c)) in
  let limits0 : gmap string Quantity := default ∅ (Limits (Container_Resources c)) in
  let defaults := DefaultJobLimits (schedulingConfig server) in
  exists requests limits : gmap string Quantity,
    Container_Resources (preparedContainer server c)
    = {| Limits := Some limits; Requests := Some requests |}
    /\ forall res,
        requests !! res = prepared_value requests0 limits0 defaults res
        /\ limits !! res = prepared_value limits0 requests0 defaults res.
Proof.
  intros requests0 limits0 defaults.
  destruct (fillContainer_filled c) as [_ (limits1 & requests1 & HL & HR & _)].
  unfold preparedContainer, applyDefaultsToContainer. rewrite HL, HR. simpl.
  pose proof (applyDefaults_loop_lookup defaults requests1 limits1) as Hloop.
  cbv zeta in Hloop. fold defaults.
  destruct (map_fold _ (requests1, limits1) defaults) as [requests limits].
  exists requests, limits. split; [reflexivity|].
  intros res. destruct (Hloop res) as [Hr Hl]. simpl in Hr, Hl.
  destruct (fillContainer_Limits c res) as (limits1' & HL' & Hl1).
  destruct (fillContainer_Requests c res) as (requests1' & HR' & Hr1).
  assert (limits1' = limits1) as -> by congruence.
  assert (requests1' = requests1) as -> by congruence.
  rewrite Hr, Hl, Hl1, Hr1. unfold prepared_value. fold requests0 limits0.
  destruct (limits0 !! res), (requests0 !! res), (defaults !! res); done.
Qed.

Lemma preparedContainer_name (server : SubmitServer) (c : Container) :
  Container_Name (preparedContainer server c) = Container_Name c.
Proof.
  unfold preparedContainer, applyDefaultsToContainer.
  destruct (map_fold _ _ _) as [requests limits]. by destruct c as [? [[?|] [?|]]].
Qed.

Lemma prepared_value_domains (requests0 limits0 defaults requests limits : gmap string Quantity) :
  (forall res,
      requests !! res = prepared_value requests0 limits0 defaults res
      /\ limits !! res = prepared_value limits0 requests0 defaults res) ->
  dom requests = dom limits /\ dom defaults ⊆ dom requests.
Proof.
  intros Hlookup. split.
  - apply set_eq. intros res. rewrite !elem_of_dom.
    destruct (Hlookup res) as [-> ->]. unfold prepared_value.
    destruct (requests0 !! res), (limits0 !! res); try done; by split; intros; eexists.
  - intros res. rewrite !elem_of_dom. intros [v Hv].
    destruct (Hlookup res) as [-> _]. unfold prepared_value.
    destruct (requests0 !! res), (limits0 !! res); by eauto.
Qed.

(** X19. On the way into a job, a container gets requests and limits over
    the same resources: for each resource, the request is the request that
    the client gave, else the limit that the client gave, else the default
    of the scheduling configuration, if there is one, and the limit is the
    limit that the client gave, else the request, else the default. So
    every resource with a default has a request and a limit, and a value
    that the client gave is never replaced. *)
Theorem preparedContainer_resources (server : SubmitServer) (c : Container) :
  let requests0 : gmap string Quantity := default ∅ (Requests (Container_Resources c)) in
  let limits0 : gmap string Quantity := default ∅ (Limits (Container_Resources c)) in
  let defaults := DefaultJobLimits (schedulingConfig server) in
  Container_Name (preparedContainer server c) = Container_Name c
  /\ exists requests limits : gmap string Quantity,
      Container_Resources (preparedContainer server c)
      = {| Limits := Some limits; Requests := Some requests |}
      /\ dom requests = dom limits
      /\ dom defaults ⊆ dom requests
      /\ (forall res,
            requests !! res = prepared_value requests0 limits0 defaults res
            /\ limits !! res = prepared_value limits0 requests0 defaults res)
      /\ (forall res v, requests0 !! res = Some v -> requests !! res = Some v)
      /\ (forall res v, limits0 !! res = Some v -> limits !! res = Some v).
Proof.
  intros requests0 limits0 defaults. split; [apply preparedContainer_name|].
  destruct (preparedContainer_lookup server c) as (requests & limits & Hres & Hlookup).
  fold requests0 limits0 defaults in Hlookup.
  exists requests, limits. split; [exact Hres|].
  destruct (prepared_value_domains _ _ _ _ _ Hlookup) as [Hsame Hdefaults].
  split; [exact Hsame|]. split; [exact Hdefaults|]. split; [exact Hlookup|]. split.
  - intros res v Hv. destruct (Hlookup res) as [-> _]. unfold prepared_value. by rewrite Hv.
  - intros res v Hv. destruct (Hlookup res) as [_ ->]. unfold prepared_value. by rewrite Hv.
Qed.

(** X20. Preparing a container is idempotent: a container that has been
    filled and given the defaults is left as it is when it is filled and
    given the defaults again. *)
Theorem preparedContainer_idempotent (server : SubmitServer) (c : Container) :
  preparedContainer server (preparedContainer server c) = preparedContainer server c.
Proof.
  destruct (preparedContainer_lookup server c) as (requests & limits & Hres & Hlookup).
  destruct (preparedContainer_lookup server (preparedContainer server c))
    as (requests' & limits' & Hres' & Hlookup').
  rewrite Hres in Hlookup'. simpl in Hlookup'.
  assert (requests' = requests /\ limits' = limits) as [-> ->].
  { split; apply map_eq; intros res;
      destruct (Hlookup' res) as [Hr' Hl']; destruct (Hlookup res) as [Hr Hl];
      rewrite ?Hr', ?Hl'; unfold prepared_value in *;
      destruct (requests !! res) as [vr|] eqn:Er, (limits !! res) as [vl|] eqn:El;
      try done;
      destruct (default ∅ (Requests (Container_Resources c)) !! res),
               (default ∅ (Limits (Container_Resources c)) !! res);
      congruence. }
  pose proof (preparedContainer_name server (preparedContainer server c)) as Hname.
  destruct (preparedContainer server (preparedContainer server c)) as [name' resources'].
  destruct (preparedContainer server c) as [name resources].
  cbn in Hres, Hres', Hname. by subst.
Qed.

(** The map of the tolerations of a pod by key holds tolerations of the
    pod only. *)
Lemma podTolerations_elem (tolerations : list Toleration) (acc : gmap string Toleration)
    (key : string) (podToleration : Toleration) :
  foldl (fun (m : gmap string Toleration) podToleration =>
           <[Toleration_Key podToleration := podToleration]> m) acc tolerations !! key
  = Some podToleration ->
  podToleration ∈ tolerations \/ acc !! key = Some podToleration.
Proof.
  revert acc. induction tolerations as [|t rest IH]; intros acc; [by right|].
  cbn [foldl]. intros H. apply IH in H as [Hin|Hacc]; [left; by right|].
  destruct (decide (Toleration_Key t = key)) as [<-|Hne].
  - rewrite lookup_insert_eq in Hacc. injection Hacc as <-. left. left.
  - rewrite lookup_insert_ne in Hacc by done. by right.
Qed.

(** The loop of [applyDefaultsToPodSpec] over the default tolerations. *)
Lemma defaultTolerations_loop (podTolerations : gmap string Toleration)
    (defaults pod tolerations : list Toleration) :
  (forall key podToleration,
      podTolerations !! key = Some podToleration -> podToleration ∈ pod) ->
  (forall t, t ∈ pod -> t ∈ tolerations) ->
  exists added,
    foldl (fun tolerations defaultToleration =>
             match podTolerations !! Toleration_Key defaultToleration with
             | Some podToleration =>
                 if MatchToleration defaultToleration podToleration
                 then tolerations
                 else tolerations ++ [defaultToleration]
             | None => tolerations ++ [defaultToleration]
             end) tolerations defaults
    = tolerations ++ added
    /\ added `sublist_of` defaults
    /\ forall defaultToleration,
        defaultToleration ∈ defaults ->
        exists toleration,
          toleration ∈ tolerations ++ added
          /\ MatchToleration defaultToleration toleration = true.
Proof.
  intros Hpod.
  assert (forall t, MatchToleration t t = true) as Hrefl.
  { intros t. unfold MatchToleration. by rewrite !bool_decide_eq_true_2. }
  revert tolerations. induction defaults as [|d rest IH]; intros tolerations Hkept.
  - exists []. cbn. rewrite app_nil_r. split; [done|]. split; [done|].
    intros d Hin. by apply elem_of_nil in Hin.
  - cbn [foldl].
    assert (forall tolerations',
               tolerations' = tolerations ++ [d] ->
               exists added,
                 foldl (fun tolerations defaultToleration =>
                          match podTolerations !! Toleration_Key defaultToleration with
                          | Some podToleration =>
                              if MatchToleration defaultToleration podToleration
                              then tolerations
                              else tolerations ++ [defaultToleration]
                          | None => tolerations ++ [defaultToleration]
                          end) tolerations' rest
                 = tolerations ++ added
                 /\ added `sublist_of` d :: rest
                 /\ forall defaultToleration,
                     defaultToleration ∈ d :: rest ->
                     exists toleration,
                       toleration ∈ tolerations ++ added
                       /\ MatchToleration defaultToleration toleration = true) as Hadd.
    { intros tolerations' ->.
      destruct (IH (tolerations ++ [d])) as (added & Hfold & Hsub & Hall).
      { intros t Hin. apply elem_of_app. left. by apply Hkept. }
      exists (d :: added). rewrite Hfold, <- app_assoc. split; [done|].
      split; [by apply sublist_skip|].
      intros d' [->|Hin]%elem_of_cons.
      - exists d. split; [|apply Hrefl]. apply elem_of_app. right. left.
      - destruct (Hall d' Hin) as (t & Ht & Hmatch). exists t. split; [|done].
        by rewrite <- app_assoc in Ht. }
    destruct (podTolerations !! Toleration_Key d) as [podToleration|] eqn:Hkey;
      [|by apply Hadd].
    destruct (MatchToleration d podToleration) eqn:Hmatch; [|by apply Hadd].
    destruct (IH tolerations Hkept) as (added & Hfold & Hsub & Hall).
    exists added. split; [exact Hfold|]. split; [by apply sublist_cons|].
    intros d' [->|Hin]%elem_of_cons; [|by apply Hall].
    exists podToleration. split; [|done].
    apply elem_of_app. left. apply Hkept. by apply (Hpod (Toleration_Key d)).
Qed.

Lemma applyDefaultsToPodSpec_matched (server : SubmitServer) (spec : PodSpec) :
  exists added,
    Tolerations (applyDefaultsToPodSpec server spec) = Tolerations spec ++ added
    /\ added `sublist_of` DefaultJobTolerations (schedulingConfig server)
    /\ forall defaultToleration,
        defaultToleration ∈ DefaultJobTolerations (schedulingConfig server) ->
        exists toleration,
          toleration ∈ Tolerations spec ++ added
          /\ MatchToleration defaultToleration toleration = true.
Proof.
  unfold applyDefaultsToPodSpec. cbn [Tolerations].
  apply (defaultTolerations_loop _ _ (Tolerations spec)); [|done].
  intros key podToleration H. apply podTolerations_elem in H as [H|H]; [done|].
  by rewrite lookup_empty in H.
Qed.

(** X21. [applyDefaultsToPodSpec] keeps the tolerations of the pod, in
    order, and appends default tolerations only, in the order of the
    configuration; afterwards every default toleration is matched by a
    toleration of the pod. The node selector of the pod is left as it is,
    and there are as many containers as before. *)
Theorem applyDefaultsToPodSpec_tolerations (server : SubmitServer) (spec : PodSpec) :
  let defaults := DefaultJobTolerations (schedulingConfig server) in
  let result := applyDefaultsToPodSpec server spec in
  NodeSelector result = NodeSelector spec
  /\ length (Containers result) = length (Containers spec)
  /\ Tolerations spec `prefix_of` Tolerations result
  /\ (exists added,
        Tolerations result = Tolerations spec ++ added /\ added `sublist_of` defaults)
  /\ forall defaultToleration,
      defaultToleration ∈ defaults ->
      exists toleration,
        toleration ∈ Tolerations result
        /\ MatchToleration defaultToleration toleration = true.
Proof.
  intros defaults result. subst defaults result.
  destruct (applyDefaultsToPodSpec_matched server spec) as (added & Hfold & Hsub & Hall).
  split; [reflexivity|].
  split; [unfold applyDefaultsToPodSpec; cbn [Containers]; by rewrite length_map|].
  rewrite Hfold. split; [by exists added|].
  split; [by exists added|]. exact Hall.
Qed.

Lemma mergeRequiredNodeLabels_selector (labels : gmap string string) (podSpec : PodSpec) :
  NodeSelector (mergeRequiredNodeLabels labels podSpec)
  = if decide (labels = ∅) then NodeSelector podSpec
    else Some (labels ∪ default ∅ (NodeSelector podSpec)).
Proof.
  unfold mergeRequiredNodeLabels. cbn [NodeSelector].
  pose (merged := fun (acc : option (gmap string string)) (m : gmap string string) =>
                    acc = if decide (m = ∅) then NodeSelector podSpec
                          else Some (m ∪ default ∅ (NodeSelector podSpec))).
  apply (map_fold_weak_ind merged); unfold merged.
  - by rewrite decide_True.
  - intros k v m acc Hk ->.
    rewrite (decide_False (P := <[k := v]> m = ∅)) by apply insert_non_empty.
    destruct (decide (m = ∅)) as [->|Hne].
    + by rewrite <- insert_union_l, (left_id_L ∅ (∪)).
    + simpl. by rewrite insert_union_l.
Qed.

Lemma mergeRequiredNodeLabels_lookup (labels : gmap string string) (podSpec : PodSpec)
    (key : string) :
  default ∅ (NodeSelector (mergeRequiredNodeLabels labels podSpec)) !! key
  = match labels !! key with
    | Some value => Some value
    | None => default ∅ (NodeSelector podSpec) !! key
    end.
Proof.
  rewrite mergeRequiredNodeLabels_selector.
  destruct (decide (labels = ∅)) as [->|Hne].
  - by rewrite lookup_empty.
  - simpl. rewrite lookup_union.
    destruct (labels !! key) as [value|], (default ∅ (NodeSelector podSpec) !! key); done.
Qed.

(** X22. The required node labels of an item override the node selector of
    a pod specification: after they are merged, a key of the labels selects
    the value of the labels, and any other key selects what it selected
    before. A pod specification without a node selector gets one only when
    there are labels to merge. The containers and the tolerations are left
    as they are. *)
Theorem mergeRequiredNodeLabels_overrides (labels : gmap string string) (podSpec : PodSpec) :
  let result := mergeRequiredNodeLabels labels podSpec in
  Containers result = Containers podSpec
  /\ Tolerations result = Tolerations podSpec
  /\ (is_Some (NodeSelector result) <-> is_Some (NodeSelector podSpec) \/ labels <> ∅)
  /\ forall key,
      default ∅ (NodeSelector result) !! key
      = match labels !! key with
        | Some value => Some value
        | None => default ∅ (NodeSelector podSpec) !! key
        end.
Proof.
  intros result. subst result.
  split; [reflexivity|]. split; [reflexivity|].
  split; [|apply mergeRequiredNodeLabels_lookup].
  rewrite mergeRequiredNodeLabels_selector.
  destruct (decide (labels = ∅)) as [->|Hne].
  - split; [by left|]. by intros [?|?].
  - split; [by right|]. by eexists.
Qed.

(* ===================================================================== *)
(** * Properties: the pod specifications that the created jobs carry *)
(* ===================================================================== *)

Lemma createJobsObjects_podSpecs_prepared (server : SubmitServer) (request : JobSubmitRequest)
    (item : JobSubmitRequestItem) (i j : Z) (podSpecs : list PodSpec) :
  traced (fun _ r =>
            match r with
            | Some (inl prepared) => prepared = map (preparedPodSpec server item) podSpecs
            | Some (inr _) => True
            | None => False
            end)
         (createJobsObjects_podSpecs server request item i j podSpecs).
Proof.
  revert j. induction podSpecs as [|podSpec rest IH]; intros j.
  - done.
  - cbn [createJobsObjects_podSpecs].
    traced_step. traced_step. traced_step; [by traced_step|].
    eapply traced_bind; [apply IH| |done].
    intros t1 [prepared|err] Hrest; traced_step; [|done].
    cbn [map]. by rewrite Hrest.
Qed.

Lemma createJobsObjects_items_carry (server : SubmitServer) (request : JobSubmitRequest)
    (owner : string) (groups : list string) (i : Z) (items : list JobSubmitRequestItem) :
  traced (fun _ r =>
            match r with
            | Some (inl jobs) =>
                Forall2 (fun item job =>
                           forall podSpec,
                             carries job podSpec ->
                             exists given,
                               given ∈ GetAllPodSpecs item
                               /\ podSpec = preparedPodSpec server item given)
                        items jobs
            | Some (inr _) => True
            | None => False
            end)
         (createJobsObjects_items server request owner groups i items).
Proof.
  revert i. induction items as [|item rest IH]; intros i.
  - cbn. constructor.
  - cbn [createJobsObjects_items].
    destruct (bool_decide (is_Some (Item_PodSpec item))
              && bool_decide (0 < length (Item_PodSpecs item))%nat) eqn:Hboth; [exact I|].
    destruct (bool_decide (length (GetAllPodSpecs item) = 0%nat)); [exact I|].
    destruct (ValidateJobSubmitRequestItem item); [exact I|].
    eapply traced_bind; [apply createJobsObjects_podSpecs_prepared| |done].
    intros t1 [podSpecs|err] Hprepared; [|exact I].
    traced_step. traced_step. traced_step. traced_step.
    eapply traced_bind; [apply IH| |done].
    intros t2 [jobs|err] Hjobs; [|exact I].
    traced_step. constructor; [|exact Hjobs].
    intros podSpec. unfold carries, updatedPodSpec, updatedPodSpecs, GetAllPodSpecs in *.
    cbn [Job_PodSpec Job_PodSpecs]. subst podSpecs.
    destruct (Item_PodSpecs item) as [|first others] eqn:Hspecs.
    + destruct (Item_PodSpec item) as [given|]; cbn [map head].
      * intros [[= <-]|Hin]; [|by apply elem_of_nil in Hin].
        exists given. split; [left|done].
      * intros [?|Hin]; [done|by apply elem_of_nil in Hin].
    + destruct (Item_PodSpec item) as [given|].
      { cbn in Hboth. done. }
      intros [?|Hin]; [done|].
      apply list_elem_of_fmap in Hin as (given & -> & Hin). by exists given.
Qed.

(** X23. Every pod specification that a job created by [createJobs]
    carries has the defaults of the server: every default toleration is
    matched by a toleration of the pod specification; every container has
    requests and limits over the same resources, among them every resource
    with a default limit; and the node selector selects, for every key of
    the required node labels of the job, the value of the labels. *)
Theorem createJobs_pod_specifications {S : Type} (h : Handler S) (s : S) (server : SubmitServer)
    (request : JobSubmitRequest) (owner : string) (groups : list string) :
  forall jobs,
    result_of (run h (createJobs server request owner groups) s) = Some (inl jobs) ->
    forall job podSpec,
      job ∈ jobs ->
      carries job podSpec ->
      (forall defaultToleration,
          defaultToleration ∈ DefaultJobTolerations (schedulingConfig server) ->
          exists toleration,
            toleration ∈ Tolerations podSpec
            /\ MatchToleration defaultToleration toleration = true)
      /\ (forall c,
            c ∈ Containers podSpec ->
            exists requests limits : gmap string Quantity,
              Container_Resources c = {| Limits := Some limits; Requests := Some requests |}
              /\ dom requests = dom limits
              /\ dom (DefaultJobLimits (schedulingConfig server)) ⊆ dom requests)
      /\ (forall key value,
            Job_RequiredNodeLabels job !! key = Some value ->
            default ∅ (NodeSelector podSpec) !! key = Some value).
Proof.
  intros jobs Hjobs job podSpec Hjob Hcarries.
  unfold createJobs, createJobsObjects in Hjobs.
  destruct (bool_decide (Req_JobSetId request = EmptyString)); [done|].
  destruct (bool_decide (Req_Queue request = EmptyString)); [done|].
  pose proof (traced_run _ _ h s
                (createJobsObjects_items_carry server request owner groups 0
                   (Req_JobRequestItems request))) as Hcarry.
  pose proof (traced_run _ _ h s
                (createJobsObjects_items_traced server request owner groups 0
                   (Req_JobRequestItems request))) as Hcopied.
  cbv beta in Hcarry, Hcopied. rewrite Hjobs in Hcarry, Hcopied.
  destruct Hcopied as [Hcopied _].
  apply list_elem_of_lookup in Hjob as [n Hn].
  destruct (Forall2_lookup_r _ _ _ _ _ Hcarry Hn) as (item & Hitem & Hprepared).
  destruct (Forall2_lookup_r _ _ _ _ _ Hcopied Hn) as (item' & Hitem' & Hcopy).
  assert (item' = item) as -> by congruence.
  destruct (Hprepared podSpec Hcarries) as (given & _ & ->).
  destruct Hcopy as (_ & _ & _ & Hlabels & _).
  unfold preparedPodSpec. split; [|split].
  - intros d Hd. cbn [mergeRequiredNodeLabels Tolerations].
    match goal with
    | |- context [applyDefaultsToPodSpec server ?spec] =>
        destruct (applyDefaultsToPodSpec_matched server spec) as (added & Hfold & _ & Hall)
    end.
    rewrite Hfold. by apply Hall.
  - intros c. cbn [mergeRequiredNodeLabels Containers applyDefaultsToPodSpec].
    unfold applyDefaultsToPodSpec. cbn [Containers]. unfold fillContainerRequestsAndLimits.
    rewrite <- list_fmap_compose.
    intros (c0 & -> & _)%list_elem_of_fmap.
    destruct (preparedContainer_lookup server c0) as (requests & limits & Hres & Hlookup).
    exists requests, limits. split; [exact Hres|].
    exact (prepared_value_domains _ _ _ _ _ Hlookup).
  - intros key value Hkey. rewrite mergeRequiredNodeLabels_lookup.
    rewrite Hlabels in Hkey. by rewrite Hkey.
Qed.

Lemma createJobs_pod_specifications_witness :
  Forall (fun job =>
            forall podSpec,
              carries job podSpec ->
              (forall defaultToleration,
                  defaultToleration ∈ DefaultJobTolerations (schedulingConfig example_server) ->
                  exists toleration,
                    toleration ∈ Tolerations podSpec
                    /\ MatchToleration defaultToleration toleration = true)
              /\ (forall c,
                    c ∈ Containers podSpec ->
                    exists requests limits : gmap string Quantity,
                      Container_Resources c
                      = {| Limits := Some limits; Requests := Some requests |}
                      /\ dom requests = dom limits
                      /\ dom (DefaultJobLimits (schedulingConfig example_server)) ⊆ dom requests)
              /\ (forall key value,
                    Job_RequiredNodeLabels job !! key = Some value ->
                    default ∅ (NodeSelector podSpec) !! key = Some value))
         example_jobs.
Proof.
  apply Forall_forall. intros job Hjob podSpec.
  apply (createJobs_pod_specifications steady_handler tt example_server example_request
           "alice" ["admins"] example_jobs); [|exact Hjob].
  vm_compute. reflexivity.
Defined.

(* ===================================================================== *)
(** * Properties: what the cancellation of a job set returns *)
(* ===================================================================== *)

Lemma confirmed_app (t1 t2 : list Entry) : confirmed (t1 ++ t2) = confirmed t1 ++ confirmed t2.
Proof. apply flat_map_app. Qed.

(** The lookups of queues fetch no job and confirm no cancellation. *)
Lemma looking_up_confirms_nothing (t : list Entry) :
  Forall looking_up (calls t) -> confirmed t = [] /\ fetched t = [].
Proof.
  induction t as [|[c r] t IH]; [done|].
  intros [Hc Ht]%Forall_cons. destruct (IH Ht) as [Hconfirmed Hfetched].
  unfold confirmed, fetched in *. cbn [flat_map entry_cmd entry_resp].
  rewrite Hconfirmed, Hfetched. by destruct c.
Qed.

(** [cancelJobs] fetches no job; the ids that it returns are the ids that
    it confirmed, and it confirms nothing when it returns an error. *)
Lemma cancelJobs_confirmed (server : SubmitServer) (ctx : Context) (jobs : list Job) :
  traced (fun t r =>
            fetched t = []
            /\ match r with
               | Some (inl result) => CancelledIds result = confirmed t
               | Some (inr _) => confirmed t = []
               | None => False
               end)
         (cancelJobs server ctx jobs).
Proof.
  eapply traced_weaken; [|apply cancelJobs_cancellation].
  intros t r (t0 & t1 & -> & Ht0 & Hcourse).
  destruct (looking_up_confirms_nothing t0 Ht0) as [Hconfirmed Hfetched].
  rewrite confirmed_app, fetched_app, Hconfirmed, Hfetched. cbn [app].
  destruct Hcourse as [(-> & e & ->)|Hcourse]; [done|].
  destruct Hcourse; cbn; by rewrite ?app_nil_r.
Qed.

(** The loop of [cancelJobsByQueueAndSet] over the batches. *)
Lemma cancelJobsByQueueAndSet_batches_confirmed (server : SubmitServer) (ctx : Context)
    (batches : list (list string)) (cancelledIds : list string) :
  traced (fun t r =>
            match r with
            | Some (Some result, status) =>
                CancelledIds result = cancelledIds ++ confirmed t
                /\ (status = None -> fetched t = batches)
            | Some (None, Some status) => Status_Code status = PermissionDenied
            | Some (None, None) | None => False
            end)
         (cancelJobsByQueueAndSet_batches server ctx batches cancelledIds).
Proof.
  revert cancelledIds. induction batches as [|batch rest IH]; intros cancelledIds.
  - cbn. by rewrite app_nil_r.
  - cbn [cancelJobsByQueueAndSet_batches].
    traced_step. intros [jobs|err]; cbv beta.
    2: { traced_step. cbn. by rewrite app_nil_r. }
    eapply traced_bind; [apply cancelJobs_confirmed| |by intros t1 [_ ?]].
    intros t1 [result|err] [Hfetched Hconfirmed].
    2: { destruct (errors_As_ErrNoPermission err); traced_step; [done|].
         rewrite app_nil_r. cbn. unfold confirmed in *.
         cbn [flat_map entry_cmd entry_resp answered confirmation_of app].
         by rewrite Hconfirmed, app_nil_r. }
    assert (forall t2 : list Entry,
               confirmed (answered (JobRepository_GetExistingJobsByIds batch) (inl jobs)
                            :: t1 ++ t2)
               = CancelledIds result ++ confirmed t2) as Hids.
    { intros t2. unfold confirmed in *.
      cbn [flat_map entry_cmd entry_resp answered confirmation_of app].
      by rewrite flat_map_app, Hconfirmed. }
    assert (forall t2 : list Entry,
               fetched (answered (JobRepository_GetExistingJobsByIds batch) (inl jobs)
                          :: t1 ++ t2)
               = batch :: fetched t2) as Hbatches.
    { intros t2. rewrite fetched_cons, fetched_app, Hfetched. done. }
    unfold CloseToDeadline. destruct (ctx_deadline ctx) as [deadline|].
    + change (mbind ?f (mbind ?g (call ?c))) with (Call c (fun r => mbind f (g r))).
      cbn [traced]. intros now.
      change (mbind ?f (mret ?a)) with (f a). cbv beta.
      destruct (bool_decide (deadline - now < time_Second * 1)).
      * traced_step. rewrite Hids. cbn. by rewrite app_nil_r.
      * eapply traced_weaken; [|apply IH].
        intros t2 [[[result2|] status]|]; cbv beta; try done.
        intros [Hresult Hdone].
        change (answered time_Now now :: t2) with ([answered time_Now now] ++ t2).
        rewrite Hids, Hbatches, confirmed_app, fetched_app.
        cbn [confirmed fetched flat_map entry_cmd entry_resp answered confirmation_of app].
        rewrite Hresult, <- app_assoc. split; [done|]. intros Hnone. by rewrite Hdone.
    + change (mbind ?f (mret ?a)) with (f a). cbv beta iota.
      eapply traced_weaken; [|apply IH].
      intros t2 [[[result2|] status]|]; cbv beta; try done.
      intros [Hresult Hdone].
      rewrite Hids, Hbatches, Hresult, <- app_assoc. split; [done|].
      intros Hnone. by rewrite Hdone.
Qed.

(** X24. For a positive batch size: whatever result the cancellation of a
    job set returns, with or without an error, the cancelled ids of the
    result are the ids of the jobs whose cancelled events were reported
    without error, in that order. It returns no result only with an error:
    when the active ids cannot be listed, before any job is fetched, and
    when the caller may not cancel the jobs of a batch; the ids cancelled in
    earlier batches are not returned then. It returns without error only
    after it has fetched every batch of the active ids, so that every
    active id was fetched, in order. *)
Theorem cancelJobsByQueueAndSet_outcome {S : Type} (h : Handler S) (s : S)
    (server : SubmitServer) (ctx : Context) (queue jobSetId : string) :
  0 < cancelJobsBatchSize server ->
  let out := run h (cancelJobsByQueueAndSet server ctx queue jobSetId) s in
  let listing := (h (JobRepository_GetActiveJobIds queue jobSetId) s).1 in
  match result_of out with
  | Some (Some result, status) =>
      CancelledIds result = confirmed (trace_of out)
      /\ (status = None ->
          exists ids,
            listing = inl ids
            /\ fetched (trace_of out) = Batch ids (cancelJobsBatchSize server)
            /\ concat (fetched (trace_of out)) = ids)
  | Some (None, Some status) =>
      (Status_Code status = Unavailable
       /\ (exists err, listing = inr err) /\ fetched (trace_of out) = [])
      \/ (Status_Code status = PermissionDenied /\ exists ids, listing = inl ids)
  | Some (None, None) => False
  | None => True
  end.
Proof.
  intros Hsize out listing. subst out listing. unfold cancelJobsByQueueAndSet.
  change (run h (mbind ?f (call ?c)) s) with (run h (Call c f) s).
  cbn [run]. destruct (h (JobRepository_GetActiveJobIds queue jobSetId) s) as [[ids|err] s1].
  2: { cbn. left. split; [done|]. split; [by eexists|done]. }
  cbv zeta. cbn beta iota.
  pose proof (traced_run _ _ h s1
                (cancelJobsByQueueAndSet_batches_confirmed server ctx
                   (Batch ids (cancelJobsBatchSize server)) [])) as Hloop.
  cbv beta in Hloop.
  destruct (run h (cancelJobsByQueueAndSet_batches server ctx
                     (Batch ids (cancelJobsBatchSize server)) []) s1) as [[r s2] t].
  cbn [trace_of result_of fst snd] in *.
  destruct r as [[[result|] [status|]]|]; try done.
  - destruct Hloop as [Hresult _]. split; [|done].
    rewrite Hresult. unfold confirmed. by cbn.
  - destruct Hloop as [Hresult Hdone]. split.
    + rewrite Hresult. unfold confirmed. by cbn.
    + intros _. exists ids. split; [done|]. rewrite fetched_cons. cbn [app].
      rewrite (Hdone eq_refl). split; [done|]. by apply Batch_concat.
  - right. split; [exact Hloop|by eexists].
Qed.

Lemma cancelJobsByQueueAndSet_outcome_witness :
  let out := run ticking (cancelJobsByQueueAndSet example_server ctx_root_in_a_hurry "q1" "js1") 0 in
  match result_of out with
  | Some (Some result, status) =>
      CancelledIds result = confirmed (trace_of out)
      /\ (status = None ->
          exists ids,
            (ticking (JobRepository_GetActiveJobIds "q1" "js1") 0).1 = inl ids
            /\ fetched (trace_of out) = Batch ids (cancelJobsBatchSize example_server)
            /\ concat (fetched (trace_of out)) = ids)
  | Some (None, Some status) =>
      (Status_Code status = Unavailable
       /\ (exists err, (ticking (JobRepository_GetActiveJobIds "q1" "js1") 0).1 = inr err)
       /\ fetched (trace_of out) = [])
      \/ (Status_Code status = PermissionDenied
          /\ exists ids, (ticking (JobRepository_GetActiveJobIds "q1" "js1") 0).1 = inl ids)
  | Some (None, None) => False
  | None => True
  end.
Proof.
  apply (cancelJobsByQueueAndSet_outcome ticking 0 example_server ctx_root_in_a_hurry
           "q1" "js1").
  reflexivity.
Defined.

(* ===================================================================== *)
(** * Properties: the two tiers in the operations on jobs *)
(* ===================================================================== *)



Section two_tiers.

Context (server : SubmitServer) (ctx : Context).


















End two_tiers.




